(* ===== verification/_CoqProject ===== *)
-Q . S2P
Prelude.v
Formula.v
Core.v
Restore.v
State.v
Conflict.v
Assign.v
Propagate.v
Trail.v
Tallies.v
Search.v
Loader.v
Sound.v
Runs.v
Scenarios.v
