(* ===== verification/Prelude.v ===== *)
(** * A verification development for the DPLL solver of [src/sat.cpp]

    The program is a single C++ translation unit: a DPLL satisfiability
    solver with counter-based unit propagation, a most-constrained variable
    order, a majority-sign value order and conflict-directed backjumping
    driven by two per-variable [std::set<int>] relations.  All of its state
    lives in module-level arrays.  [main] reads a DIMACS body, builds the
    occurrence lists, calls [dfs(0)] and prints an assignment or [UNSAT];
    [dfs] picks a variable, and [try_value] gives it a value with
    [assign], runs the queue of forced literals with
    [do_unit_propagations], recurses, and on failure undoes the queue with
    [undo_unit_propagations] and the value with [unassign].

    ** Files, in dependency order

    - [Prelude] (this file): the memory model shared by every component.
      A C [int] array is a [gmap Z Z] read with default [0] ([get], [upd]);
      an array of [std::set<int>] is a [gmap Z (gset Z)] ([sget], [sadd],
      [sclear]).  Pointwise equivalence of arrays ([arr_eq]) with its
      [Proper] instances, the rewrite database [arr], the tactics
      [case_ztest] and [arr_simpl], and list-counting lemmas.
    - [Formula]: the immutable formula store ([V], [C], [clauses],
      [appearances], with [csizes] and [napps] as lengths), the encoding of
      literals and occurrence entries, the reference occurrence list
      [occurrences], well-formedness [wf_formula] and the propositional
      semantics [eval_formula].
    - [Core]: the counter machine.  Of the globals only [assn],
      [satisfier], [rem] and [nunsat] decide satisfaction; [cassign],
      [cunassign_upto] and [cunassign] are what [assign], [unassign_upto]
      and [unassign] do to those four.  The invariant [cinv] and its
      preservation, the roll-back of a failed [cassign], the round trip
      [cassign]/[cunassign], and [cinv_model]: with [nunsat = 0] every
      clause holds a true literal.
    - [Restore]: backtracking on the counter machine.  [cextends] (more
      variables set, new satisfiers only on new variables), [crestore] (a
      machine of the invariant that extends [k0] and sets nothing new is
      [k0], whatever the order of the undo), [cunit] (a clause that forces
      a literal) and [cassign_unit_fails] (contradicting a forced literal
      makes [cassign] fail).
    - [State]: the record [state] of the mutable globals of [sat.cpp]
      ([assn], [satisfier], [rem], [nunsat], [npos_app], [nneg_app],
      [propagation_queue], [npropped], [npropped_at], [propping_clause],
      [conflict], [in_conflict]), one setter per field, the projections
      [core], [tallies], [queue] and [conflicts], the classes [Frame]
      (an operation leaves a projection alone), [Touches] and [Respects]
      with which the frame facts of every function are instances, the
      invariant [inv] and the model [model_of] a state denotes.
    - [Conflict]: [in_conflict_set], [augment_conflict],
      [backprop_conflict] and the clearing done by [dfs] and
      [do_unit_propagations]; irreflexivity is an invariant, symmetry is
      not.
    - [Assign]: [modify_signed_appearances], [mark_signed_appearances],
      [unmark_signed_appearances], [enqueue_unit_propagation], [assign],
      [unassign_upto], [unassign], each the whole C function with its early
      returns; refinement to the machine of [Core], hence preservation of
      [inv], roll-back and round trip; the tallies and what the functions
      do to them.
    - [Propagate]: [undo_unit_propagations] and [do_unit_propagations],
      with the termination of the propagation loop, and the capacity of
      the queue ([total], [room]).
    - [Trail]: the discipline of the propagation queue.  [assign_iter] is
      one iteration of the loop of [assign]; a successful [assign] queues
      forced literals only and does not disturb the entries that wait; the
      loop invariant [trail] of [do_unit_propagations]; the undo loop
      unsets the variables of the entries it passes and nothing else.
    - [Tallies]: the closed form of [npos_app] and [nneg_app] after a
      successful [assign] and after the round trip [assign], [unassign]
      ([marked], [contradicted]).
    - [Search]: [most_constrained_var], [random_next_var], [try_value],
      [dfs]; the class [Heuristic] of the picking functions.
    - [Loader]: the part of [main] that reads the clauses, builds the
      occurrence lists in two passes and initialises the state, with the
      driver [solve] and the reporter's output.
    - [Sound]: what [dfs] promises ([dfs_post]) by induction on the
      recursion; soundness of the answer [true], exact backtracking on the
      answer [false], termination; the same for [main] on a DIMACS body.
    - [Runs]: [do_unit_propagations], [try_value] and [dfs] as relations
      without fuel ([prop_run], [try_run], [dfs_run]: one rule per path
      through the body), and their equivalence with the functions.
    - [Scenarios]: the concrete scenarios of the specification; the
      answer [UNSAT] on two satisfiable inputs; runs that instantiate the
      general theorems of [Assign], [Tallies] and [Search].

    ** Modelling choices

    - Integers are [Z], and no cell overflows.  [assn], [satisfier],
      [rem], [nunsat], the queue with [npropped] and [npropped_at], and
      [propping_clause] hold signs, indices and counts bounded by [V],
      [C] and the number of literals.  That is not so of two values:
      [npos_app[v]] gains 2 on every [assign]/[unassign] pair of a
      variable with negative occurrences ([assign_unassign_tallies]), so
      it grows with the length of the search; and the size [V * C] of the
      queue block ([capacity]) is a product of two [int]s at line 380.
      Signed overflow is undefined in C++; the model does not have it.
    - An array is a store indexed by all of [Z].  C gives no meaning to an
      access outside the allocated block; the model keeps such a cell
      inside the same array, apart from every other array.
      [modify_signed_appearances] indexes the tallies by the literal where
      the variable index was meant, so it leaves the block for every
      negative literal and for the positive literal of the last variable;
      the theorems of [Assign] say exactly when.  A run of the program
      that satisfies a clause with such a literal has undefined behaviour
      in C, and most runs do; the theorems are about the program in which
      these writes land in cells of their own.  The tallies only steer the
      heuristics: no theorem on the counters, the queue or the answer
      reads them, and soundness holds for every picking function of the
      class [Heuristic].
    - An index outside [0, C) reads the empty clause and a variable
      outside [0, V) the empty occurrence list, where the program would
      read outside an array; under [wf_formula] and [inv] no operation
      does.  [propping_clause] is allocated uninitialised and starts at
      [0] in the model; it is written before it is read.
    - A loop over an array segment is a recursion over the list of its
      cells.  [std::set] iteration is ascending; the model iterates
      [elements], whose order is unspecified.  Both loops of
      [augment_conflict] only insert, so the result does not depend on the
      order.
    - Two states are compared on their core with [≡c], pointwise on the
      arrays: a cell that was written and reset to [0] reads like a cell
      never written.

    ** Fuel

    The two recursions that are not structural run on fuel, and running
    out of fuel is [None]; the theorems show that the fuel passed is
    enough, so [None] is never the answer of the model on a state of the
    invariant.
    - The loop of [do_unit_propagations] runs to a bound, [npropped],
      that [assign] moves.  [do_unit_propagations] passes [prop_fuel]: one
      more than the entries still queued plus the occurrences of the unset
      variables ([slack]).  An iteration passes one entry, and a
      successful [assign] takes out of the slack at least what it adds to
      the queue ([assign_true_measure]).
    - [dfs] takes the depth of the recursion.  Every level sets a variable
      that was unset before it recurses and tries the second value in a
      state with the same variables unset, so [dfs_fuel F = V + 1] is
      enough ([dfs_with_returns]); more fuel does not change the answer
      ([dfs_with_fuel_mono]).

    ** What the theorems show

    - Counters ([Core], [Assign]): the invariant [inv] (spec I1, I2 from
      left to right, I3) is preserved by [assign] on both exits and by
      [unassign]; a failed [assign] restores the core; [unassign] undoes
      [assign]; the program's functions refine the counter machine.
    - Queue ([Trail]): every entry a successful [assign] queues is the
      only unset literal of an unsatisfied clause; an [assign] that
      contradicts such a literal fails, so an entry is never passed with
      its variable at the other value; after [do_unit_propagations] every
      entry of the level holds, or the level is unwound.
    - Search ([Sound]): an answer [true] of [dfs] comes with a model of
      the formula; an answer [false] comes with the core of the call;
      [dfs] preserves [inv] and terminates, for [most_constrained_var] and
      for every picking function of the class [Heuristic]; the queue
      stays within [V * C] cells, and no cell beyond is written.  For
      [main]: the printed assignment satisfies the clauses read, and an
      answer is always printed.
    - Runs ([Runs]): the functions on fuel compute the relations without
      fuel: an answer is a derivation, a derivation is the answer on the
      fuel [V + 1], and a call has one run only.
    - Loader ([Loader]): reading gives back the clause list; the
      occurrence lists are the reference lists; the initial state
      satisfies [inv].
    - Heuristics and conflict sets ([Search], [Conflict]): closed forms of
      the two picking functions ([random_next_var] is never called: line
      321 is commented out); what [augment_conflict] and
      [backprop_conflict] leave in the two relations; irreflexivity.
    - Tallies ([Assign], [Tallies]): the cell that
      [modify_signed_appearances] moves is the literal; after [assign]
      the cells of the literals of the clauses that got satisfied are up
      by one each; after [assign] and [unassign] all is as before but
      [npos_app[v]], up by 2 per negative occurrence.
    - Where program and specification part, each as a theorem for all
      inputs of its hypotheses with a computed instance: the answer
      [UNSAT] on satisfiable formulas, because a refused first value ends
      the level without the second ([Search], [Scenarios]); the tallies
      against spec I4 and I7 ([Tallies]); spec I2 from right to left,
      which [unassign] does not keep ([Assign]); the queue after a refused
      decision ([Search]); the symmetry of the conflict relations after
      [clear()] ([Conflict]).

    ** Not modelled

    - [print_conflict_set], [print_in_conflict_set]: debug output, never
      called.
    - The character-level [scanf] calls that skip to the problem line and
      read [p cnf V C] with the exit [return 1], [srand]/[time],
      [malloc]/[calloc]/[free] (lines 357-387): the model starts from [V],
      [C] and the integers that follow.
    - Input that ends early.  Line 401 does not test the result of
      [scanf]; on an ended stream [v] is indeterminate and the program has
      no error exit (the specification promises one).  [read_clause] has
      no result there ([None]), and nothing is stated of such a run.
    - Undefined behaviour of C: accesses outside a block and overflow of
      [int] are given the meaning above, not detected.
    - The capacity of the clause rows: a row is a list of any length
      ([MAX_CLAUSE_SIZE] is not modelled).  The queue is an array over all
      of [Z]; that the program stays inside the [V * C] cells it allocates
      is a theorem ([dfs_queue_in_bounds]), for formulas whose clauses do
      not repeat a variable.
    - Completeness: the answer [false] is not shown to mean that the
      formula is unsatisfiable, because it does not ([Scenarios]). *)

From Stdlib Require Export ZArith Lia List.
From stdpp Require Export gmap list.

#[global] Open Scope Z_scope.

Declare Scope sat_scope.
Delimit Scope sat_scope with sat.
#[global] Open Scope sat_scope.

(** ** Integer arrays *)

Abbreviation arr := (gmap Z Z).

(** [a[i]] for a [calloc]ed array: an unwritten cell reads 0. *)
Definition get (a : arr) (i : Z) : Z := default 0 (a !! i).

(** [a[i] = x]. *)
Definition upd (a : arr) (i x : Z) : arr := <[i := x]> a.

Notation "a .[ i ]" := (get a i)
  (at level 1, i at level 99, left associativity, format "a .[ i ]") : sat_scope.
Notation "a .[ i <- x ]" := (upd a i x)
  (at level 1, i at level 99, left associativity,
   format "a .[ i  <-  x ]") : sat_scope.

(** Two arrays are equivalent when every cell reads the same; an explicit
    zero and an unwritten cell are not told apart. *)
Definition arr_eq (a b : arr) : Prop := ∀ i, a.[i] = b.[i].

Infix "≡ₐ" := arr_eq (at level 70, no associativity) : sat_scope.

(** ** Arrays of sets *)

Abbreviation sarr := (gmap Z (gset Z)).

Definition sget (m : sarr) (i : Z) : gset Z := default ∅ (m !! i).

(** [m[i].insert(x)] *)
Definition sadd (m : sarr) (i x : Z) : sarr := <[i := {[x]} ∪ sget m i]> m.

(** [m[i].clear()] *)
Definition sclear (m : sarr) (i : Z) : sarr := <[i := ∅]> m.

(** ** Counting *)

Definition countb {A} (p : A → bool) (l : list A) : Z :=
  Z.of_nat (length (filter (λ x, p x = true) l)).

(** The sum of [f] over a list. *)
Definition sumz {A} (f : A → Z) (l : list A) : Z :=
  foldr (λ x a, f x + a) 0 l.

(** The list [lo, lo+1, ..., hi-1] of the indices of a [for] loop. *)
Definition range (lo hi : Z) : list Z := seqZ lo (hi - lo).

(** [sign = app > 0 ? 1 : -1] *)
Definition sign_of (app : Z) : Z := if app >? 0 then 1 else -1.

(** ** Tactics *)

(** Case analysis on the first integer test of the goal, leaving the
    corresponding proposition in the context. *)
Ltac case_ztest :=
  match goal with
  | |- context [?a =? ?b] => destruct (Z.eqb_spec a b)
  | |- context [?a <? ?b] => destruct (Z.ltb_spec a b)
  | |- context [?a <=? ?b] => destruct (Z.leb_spec a b)
  | |- context [?a >? ?b] =>
      rewrite (Z.gtb_ltb a b); destruct (Z.ltb_spec b a)
  end.

Ltac case_ztest_in H :=
  match type of H with
  | context [?a =? ?b] => destruct (Z.eqb_spec a b)
  | context [?a <? ?b] => destruct (Z.ltb_spec a b)
  | context [?a <=? ?b] => destruct (Z.leb_spec a b)
  | context [?a >? ?b] =>
      rewrite (Z.gtb_ltb a b) in H; destruct (Z.ltb_spec b a)
  end.

(** ** Lemmas on integer arrays *)

Section arr.
Implicit Types (a b : arr) (i j x y : Z).

Lemma get_empty i : (∅ : arr).[i] = 0.
Proof. done. Qed.

Lemma get_upd_eq a i x : a.[i <- x].[i] = x.
Proof. unfold get, upd. by rewrite lookup_insert_eq. Qed.

Lemma get_upd_ne a i j x : i ≠ j → a.[i <- x].[j] = a.[j].
Proof. intros. unfold get, upd. by rewrite lookup_insert_ne. Qed.

Lemma get_upd a i j x :
  a.[i <- x].[j] = if decide (i = j) then x else a.[j].
Proof.
  case_decide; subst; [apply get_upd_eq | by apply get_upd_ne].
Qed.

Lemma upd_upd_eq a i x y : a.[i <- x].[i <- y] = a.[i <- y].
Proof. unfold upd. apply insert_insert_eq. Qed.

Lemma upd_comm a i j x y : i ≠ j → a.[i <- x].[j <- y] = a.[j <- y].[i <- x].
Proof. intros. unfold upd. by apply insert_insert_ne. Qed.

#[global] Instance arr_eq_equiv : Equivalence arr_eq.
Proof.
  split; [done | by intros a b H i | ].
  intros a b c H1 H2 i. by rewrite H1.
Qed.

#[global] Instance get_proper : Proper (arr_eq ==> eq ==> eq) get.
Proof. intros a b H i ? <-. apply H. Qed.

#[global] Instance upd_proper : Proper (arr_eq ==> eq ==> eq ==> arr_eq) upd.
Proof.
  intros a b H i ? <- x ? <- j. rewrite !get_upd. by case_decide.
Qed.

Lemma upd_get_id a i : a.[i <- a.[i]] ≡ₐ a.
Proof. intros j. rewrite get_upd. case_decide; by subst. Qed.

Lemma upd_id a i x : a.[i] = x → a.[i <- x] ≡ₐ a.
Proof. intros <-. apply upd_get_id. Qed.

Lemma upd_upd_restore a i x : a.[i <- x].[i <- a.[i]] ≡ₐ a.
Proof. rewrite upd_upd_eq. apply upd_get_id. Qed.

Lemma arr_eq_eq a b : a = b → a ≡ₐ b.
Proof. by intros ->. Qed.
End arr.

(** ** Lemmas on arrays of sets *)

Section sarr.
Implicit Types (m : sarr) (i j x y : Z).

Lemma sget_empty i : sget ∅ i = ∅.
Proof. done. Qed.

Lemma sget_sadd m i j x :
  sget (sadd m i x) j = if decide (i = j) then {[x]} ∪ sget m j else sget m j.
Proof.
  unfold sget at 1, sadd. case_decide; subst.
  - by rewrite lookup_insert_eq.
  - by rewrite lookup_insert_ne.
Qed.

Lemma sget_sclear m i j :
  sget (sclear m i) j = if decide (i = j) then ∅ else sget m j.
Proof.
  unfold sget at 1, sclear. case_decide; subst.
  - by rewrite lookup_insert_eq.
  - by rewrite lookup_insert_ne.
Qed.

Lemma elem_of_sget_sadd m i j x y :
  y ∈ sget (sadd m i x) j ↔ (i = j ∧ y = x) ∨ y ∈ sget m j.
Proof.
  rewrite sget_sadd. case_decide; [rewrite elem_of_union, elem_of_singleton |];
    naive_solver.
Qed.

Lemma elem_of_sget_sclear m i j y :
  y ∈ sget (sclear m i) j ↔ i ≠ j ∧ y ∈ sget m j.
Proof.
  rewrite sget_sclear. case_decide; [rewrite elem_of_empty |]; naive_solver.
Qed.
End sarr.

(** ** Lemmas on counting and ranges *)

Section counting.
Context {A : Type}.
Implicit Types (p q : A → bool) (l k : list A).

Lemma countb_nil p : countb p [] = 0.
Proof. done. Qed.

Lemma countb_cons p x l :
  countb p (x :: l) = (if p x then 1 else 0) + countb p l.
Proof.
  unfold countb. rewrite filter_cons.
  destruct (p x); case_decide; try done; simpl; lia.
Qed.

Lemma countb_app p l k : countb p (l ++ k) = countb p l + countb p k.
Proof. unfold countb. rewrite filter_app, length_app. lia. Qed.

Lemma countb_nonneg p l : 0 ≤ countb p l.
Proof. unfold countb. lia. Qed.

Lemma countb_le_length p l : countb p l ≤ Z.of_nat (length l).
Proof. unfold countb. pose proof (length_filter (λ x, p x = true) l). lia. Qed.

Lemma countb_ext p q l :
  (∀ x, x ∈ l → p x = q x) → countb p l = countb q l.
Proof.
  induction l as [|x l IH]; intros H; [done |].
  rewrite !countb_cons, (H x) by apply list_elem_of_here.
  rewrite IH; [done |]. intros y Hy. apply H. by apply list_elem_of_further.
Qed.

Lemma countb_zero p l : countb p l = 0 ↔ ∀ x, x ∈ l → p x = false.
Proof.
  induction l as [|x l IH].
  { split; [intros _ y Hy; by apply elem_of_nil in Hy | done]. }
  rewrite countb_cons. pose proof (countb_nonneg p l).
  split.
  - intros H0 y Hy. apply elem_of_cons in Hy as [Hy|Hy].
    + subst y. destruct (p x); [lia | done].
    + apply IH; [destruct (p x); lia | done].
  - intros H0. rewrite (H0 x) by apply list_elem_of_here.
    apply proj2 in IH. rewrite IH; [done |].
    intros y Hy. apply H0. by apply list_elem_of_further.
Qed.

Lemma countb_pos p l : 0 < countb p l ↔ ∃ x, x ∈ l ∧ p x = true.
Proof.
  induction l as [|x l IH].
  { rewrite countb_nil. split; [lia |]. intros (y & Hy & _).
    by apply elem_of_nil in Hy. }
  rewrite countb_cons. pose proof (countb_nonneg p l).
  split.
  - destruct (p x) eqn:E.
    { intros _. exists x. split; [apply list_elem_of_here | done]. }
    intros H0. destruct (proj1 IH) as (y & ? & ?); [lia |].
    exists y. split; [by apply list_elem_of_further | done].
  - intros (y & Hy & Hp). apply elem_of_cons in Hy as [Hy|Hy].
    + subst y. rewrite Hp. lia.
    + assert (0 < countb p l) by (apply IH; eauto). destruct (p x); lia.
Qed.
End counting.

(** When exactly one element counts, two elements that count are equal. *)
Lemma countb_one_unique {A} (p : A → bool) (l : list A) (x y : A) :
  countb p l = 1 → x ∈ l → y ∈ l → p x = true → p y = true → x = y.
Proof.
  induction l as [|z l IH]; intros Hc Hx Hy Hpx Hpy; [by apply elem_of_nil in Hx |].
  rewrite countb_cons in Hc. pose proof (countb_nonneg p l).
  apply elem_of_cons in Hx as [->|Hx], Hy as [->|Hy]; [done | | |].
  - rewrite Hpx in Hc. assert (0 < countb p l) by (apply countb_pos; eauto). lia.
  - rewrite Hpy in Hc. assert (0 < countb p l) by (apply countb_pos; eauto). lia.
  - destruct (p z); [| apply IH; (done || lia)].
    assert (0 < countb p l) by (apply countb_pos; eauto). lia.
Qed.

Lemma countb_fmap {A B} (f : A → B) (p : B → bool) (l : list A) :
  countb p (f <$> l) = countb (λ x, p (f x)) l.
Proof.
  induction l as [|x l IH]; [done |].
  rewrite fmap_cons, !countb_cons, IH. done.
Qed.

Lemma countb_filter {A} (q : A → bool) (p : A → bool) (l : list A) :
  countb p (filter (λ x, q x = true) l) = countb (λ x, q x && p x) l.
Proof.
  induction l as [|x l IH]; [done |].
  rewrite filter_cons, countb_cons. destruct (q x) eqn:E; case_decide; try done.
  all: rewrite ?countb_cons, IH; simpl; lia || done.
Qed.

Lemma countb_orb {A} (p q : A → bool) (l : list A) :
  (∀ x, x ∈ l → p x && q x = false) →
  countb (λ x, p x || q x) l = countb p l + countb q l.
Proof.
  induction l as [|x l IH]; intros H; [done |].
  rewrite !countb_cons, IH by (intros y Hy; apply H; by apply list_elem_of_further).
  pose proof (H x (list_elem_of_here _ _)). destruct (p x), (q x); simpl in *; lia.
Qed.

Lemma countb_true {A} (l : list A) : countb (λ _, true) l = Z.of_nat (length l).
Proof.
  induction l as [|x l IH]; [done |]. rewrite countb_cons, IH. simpl length. lia.
Qed.

Lemma countb_false {A} (p : A → bool) (l : list A) :
  (∀ x, x ∈ l → p x = false) → countb p l = 0.
Proof. apply countb_zero. Qed.

Lemma elem_of_range lo hi i : i ∈ range lo hi ↔ lo ≤ i < hi.
Proof. unfold range. rewrite elem_of_seqZ. lia. Qed.

Lemma range_nil lo hi : hi ≤ lo → range lo hi = [].
Proof.
  intros. unfold range, seqZ. by replace (Z.to_nat (hi - lo)) with 0%nat by lia.
Qed.

Lemma range_cons lo hi : lo < hi → range lo hi = lo :: range (lo + 1) hi.
Proof.
  intros. unfold range. rewrite seqZ_cons by lia. f_equal. f_equal; lia.
Qed.

Lemma range_snoc lo hi : lo ≤ hi → range lo (hi + 1) = range lo hi ++ [hi].
Proof.
  intros. unfold range.
  replace (hi + 1 - lo) with (Z.of_nat (S (Z.to_nat (hi - lo)))) by lia.
  rewrite seqZ_S. rewrite Z2Nat.id by lia. do 2 f_equal. lia.
Qed.

Lemma length_range lo hi : length (range lo hi) = Z.to_nat (hi - lo).
Proof. unfold range. apply length_seqZ. Qed.

Lemma sign_of_cases app : sign_of app = 1 ∧ 0 < app ∨ sign_of app = -1 ∧ app ≤ 0.
Proof. unfold sign_of. case_ztest; lia. Qed.

Lemma range_split lo m hi : lo ≤ m ≤ hi → range lo hi = range lo m ++ range m hi.
Proof.
  intros. unfold range. replace (hi - lo) with ((m - lo) + (hi - m)) by lia.
  rewrite seqZ_app by lia. do 2 f_equal. lia.
Qed.

(** A loop [for(i = 0; i < n; i++)] keeps an invariant indexed by [i]. *)
Lemma foldl_range_inv {A} (f : A → Z → A) (I : Z → A → Prop) (a : A) n :
  0 ≤ n → I 0 a →
  (∀ i x, 0 ≤ i < n → I i x → I (i + 1) (f x i)) →
  I n (foldl f a (range 0 n)).
Proof.
  intros Hn H0 Hstep.
  assert (∀ m, (m ≤ Z.to_nat n)%nat →
               I (Z.of_nat m) (foldl f a (range 0 (Z.of_nat m)))) as H.
  { induction m as [|m IH]; intros Hm; [by rewrite range_nil |].
    rewrite Nat2Z.inj_succ, <- Z.add_1_r, range_snoc, foldl_app by lia.
    apply Hstep; [lia | apply IH; lia]. }
  specialize (H (Z.to_nat n)). rewrite Z2Nat.id in H by done. by apply H.
Qed.

(** Counting the zero cells of an array segment, after one write. *)
Lemma count_zero_upd (a : arr) n c0 x :
  0 ≤ c0 < n →
  countb (λ c, a.[c0 <- x].[c] =? 0) (range 0 n)
  = countb (λ c, a.[c] =? 0) (range 0 n)
    - (if a.[c0] =? 0 then 1 else 0) + (if x =? 0 then 1 else 0).
Proof.
  intros Hc. rewrite (range_split 0 c0 n), (range_cons c0 n) by lia.
  rewrite !countb_app, !countb_cons, get_upd_eq.
  rewrite (countb_ext (λ c, a.[c0 <- x].[c] =? 0) (λ c, a.[c] =? 0) (range 0 c0)).
  2:{ intros c Hin%elem_of_range. by rewrite get_upd_ne by lia. }
  rewrite (countb_ext (λ c, a.[c0 <- x].[c] =? 0) (λ c, a.[c] =? 0) (range (c0 + 1) n)).
  2:{ intros c Hin%elem_of_range. by rewrite get_upd_ne by lia. }
  lia.
Qed.

Lemma sumz_app {A} (f : A → Z) (l k : list A) :
  sumz f (l ++ k) = sumz f l + sumz f k.
Proof. induction l as [|x l IH]; simpl; [done | rewrite IH; lia]. Qed.

Lemma sumz_ext {A} (f g : A → Z) (l : list A) :
  (∀ x, x ∈ l → f x = g x) → sumz f l = sumz g l.
Proof.
  induction l as [|x l IH]; intros H; [done |]. simpl.
  rewrite (H x) by apply list_elem_of_here.
  rewrite IH; [done |]. intros y Hy. apply H. by apply list_elem_of_further.
Qed.

Lemma sumz_zero {A} (f : A → Z) (l : list A) :
  (∀ x, x ∈ l → f x = 0) → sumz f l = 0.
Proof.
  intros H. rewrite (sumz_ext f (λ _, 0) l H). clear H.
  induction l as [|x l IH]; simpl; [done | by rewrite IH].
Qed.

(** A sum over the cells of an array segment, after one write. *)
Lemma sumz_upd (g : Z → Z → Z) (a : arr) n c0 x :
  0 ≤ c0 < n →
  sumz (λ c, g c (a.[c0 <- x].[c])) (range 0 n)
  = sumz (λ c, g c (a.[c])) (range 0 n) - g c0 (a.[c0]) + g c0 x.
Proof.
  intros Hc. rewrite (range_split 0 c0 n), (range_cons c0 n) by lia.
  rewrite !sumz_app. simpl. rewrite get_upd_eq.
  rewrite (sumz_ext (λ c, g c (a.[c0 <- x].[c])) (λ c, g c (a.[c])) (range 0 c0)).
  2:{ intros c Hin%elem_of_range. by rewrite get_upd_ne by lia. }
  rewrite (sumz_ext (λ c, g c (a.[c0 <- x].[c])) (λ c, g c (a.[c]))
             (range (c0 + 1) n)).
  2:{ intros c Hin%elem_of_range. by rewrite get_upd_ne by lia. }
  lia.
Qed.

(** A loop that writes [f c] to every cell [c] of a list. *)
Lemma get_foldl_upd (f : Z → Z) (l : list Z) (a : arr) c :
  (foldl (λ a c, a.[c <- f c]) a l).[c] = if decide (c ∈ l) then f c else a.[c].
Proof.
  revert a. induction l as [|x l IH]; intros a; simpl.
  { done. }
  rewrite IH, get_upd.
  destruct (decide (c ∈ l)) as [Hl|Hl].
  - rewrite decide_True; [done | by apply list_elem_of_further].
  - destruct (decide (x = c)) as [->|Hx].
    + rewrite decide_True; [done | apply list_elem_of_here].
    + rewrite decide_False; [done |]. intros [?|?]%elem_of_cons; congruence.
Qed.

(** ** Hint and rewrite databases *)

Create HintDb sat discriminated.
Create Rewrite HintDb arr.

#[export] Hint Rewrite get_upd_eq upd_upd_eq get_empty sget_empty : arr.
#[export] Hint Rewrite get_upd_ne using (lia || congruence || done) : arr.
#[export] Hint Resolve countb_nonneg countb_le_length : sat.
#[export] Hint Extern 1 (_ ≡ₐ _) => reflexivity : sat.

(** Normalise reads of updated arrays, deciding index equalities by [lia]. *)
Ltac arr_simpl :=
  repeat first
    [ progress autorewrite with arr
    | rewrite get_upd; case_decide; try lia ].
