(* ===== verification/Formula.v ===== *)
(** * The formula store

    The immutable part of the globals of [src/sat.cpp]: [V], [C],
    [clauses] with [csizes], [appearances] with [napps].  A row of
    [clauses] together with its size is a list of literals; a row of
    [appearances] together with its count is a list of occurrence entries.
    The file also holds the encoding of literals and occurrence entries, a
    reference definition of the occurrence lists, well-formedness of a
    store, and the propositional semantics the solver is judged against. *)

From S2P Require Import Prelude.

(** ** Data *)

Record formula := mkFormula {
  V : Z;                            (* number of variables *)
  C : Z;                            (* number of clauses *)
  clauses : list (list Z);          (* clauses[c][0 .. csizes[c]) *)
  appearances : gmap Z (list Z);    (* appearances[v][0 .. napps[v]) *)
}.

(** [abs(v)-1]: the variable index of a literal, and the clause index of
    an occurrence entry. *)
Definition var_of (lit : Z) : Z := Z.abs lit - 1.

(** The row [clauses[c]] up to [csizes[c]]. *)
Definition clause (F : formula) (c : Z) : list Z :=
  if c <? 0 then [] else default [] (clauses F !! Z.to_nat c).

Definition csizes (F : formula) (c : Z) : Z := Z.of_nat (length (clause F c)).

(** The row [appearances[v]] up to [napps[v]]. *)
Definition apps (F : formula) (v : Z) : list Z := default [] (appearances F !! v).

Definition napps (F : formula) (v : Z) : Z := Z.of_nat (length (apps F v)).

(** The occurrence entry for a literal of clause [c]: [c+1], negated when
    the literal is negative. *)
Definition app_enc (c lit : Z) : Z := if lit <? 0 then - (c + 1) else c + 1.

(** The literal of variable [v] that the value [sign] makes true. *)
Definition lit_of (v sign : Z) : Z := sign * (v + 1).

(** ** Reference occurrence lists *)

(** The entries that clause number [c] contributes to variable [v]. *)
Definition occ_in (v c : Z) (cl : list Z) : list Z :=
  app_enc c <$> filter (λ l, var_of l = v) cl.

(** All entries of [v], clause by clause from clause number [c0] on. *)
Fixpoint occ_from (v c0 : Z) (cls : list (list Z)) : list Z :=
  match cls with
  | [] => []
  | cl :: cls => occ_in v c0 cl ++ occ_from v (c0 + 1) cls
  end.

Definition occurrences (cls : list (list Z)) (v : Z) : list Z := occ_from v 0 cls.

(** The store that the clause list [cls] over [nv] variables denotes. *)
Definition formula_of (nv : Z) (cls : list (list Z)) : formula :=
  mkFormula nv (Z.of_nat (length cls)) cls
    (list_to_map ((λ v, (v, occurrences cls v)) <$> range 0 nv)).

(** The number of literals of variable [v] with the given polarity. *)
Definition count_lits (cls : list (list Z)) (neg : bool) (v : Z) : Z :=
  countb (λ l, (var_of l =? v) && bool_decide ((l <? 0) = neg)) (concat cls).

(** A satisfiable formula over three variables, the third unused:
    [(x1 ∨ x2) ∧ (x1 ∨ x2) ∧ ¬x1]. *)
Definition example_formula : formula := formula_of 3 [[1; 2]; [1; 2]; [-1]].

(** A formula that the solver satisfies with one decision and two
    propagations: [(x1 ∨ x2) ∧ (¬x1 ∨ x3) ∧ (¬x2 ∨ ¬x3)]. *)
Definition chain_formula : formula := formula_of 3 [[1; 2]; [-1; 3]; [-2; -3]].

(** The decision [x1 = false] queues [x2], [x3], [x2] again, [x4] and
    [¬x4]; the propagation fails on [x4] with [x2] and [x3] set. *)
Definition twice_queued_formula : formula :=
  formula_of 4 [[1; 2]; [1; 3]; [1; 2]; [2; 3]; [1; 4]; [1; -4]].

(** [x1] is tried with [-1] first; [assign] queues [x2] for the first
    clause and fails on the second. *)
Definition refused_formula : formula :=
  formula_of 3 [[1; 2]; [1]; [-1; 3]; [-1; 3]].

(** ** Well-formedness *)

Definition lit_ok (F : formula) (l : Z) : Prop := l ≠ 0 ∧ Z.abs l ≤ V F.

Record wf_formula (F : formula) : Prop := {
  wf_V : 0 ≤ V F;
  wf_C : C F = Z.of_nat (length (clauses F));
  wf_lits : ∀ cl l, cl ∈ clauses F → l ∈ cl → lit_ok F l;
  wf_apps : ∀ v, 0 ≤ v < V F → apps F v = occurrences (clauses F) v;
  wf_apps_out : ∀ v, ¬ (0 ≤ v < V F) → apps F v = [];
}.

(** No variable occurs twice in a clause. *)
Definition distinct_vars (F : formula) : Prop :=
  ∀ cl, cl ∈ clauses F → NoDup (var_of <$> cl).

(** Decidable versions, so that a concrete store is checked by computation. *)
Definition lit_okb (F : formula) (l : Z) : bool :=
  negb (l =? 0) && (Z.abs l <=? V F).

Definition wf_formulab (F : formula) : bool :=
  (0 <=? V F) && (C F =? Z.of_nat (length (clauses F)))
  && forallb (forallb (lit_okb F)) (clauses F)
  && forallb (λ v, bool_decide (apps F v = occurrences (clauses F) v))
       (range 0 (V F))
  && bool_decide (map_Forall (λ v _, 0 ≤ v < V F) (appearances F)).

(** ** Propositional semantics *)

(** A valuation gives a truth value to every variable index. *)
Definition valuation := Z → bool.

Definition eval_lit (ν : valuation) (l : Z) : bool :=
  if 0 <? l then ν (var_of l) else negb (ν (var_of l)).

Definition eval_clause (ν : valuation) (cl : list Z) : bool :=
  existsb (eval_lit ν) cl.

Definition eval_formula (ν : valuation) (F : formula) : bool :=
  forallb (eval_clause ν) (clauses F).

Definition satisfiable (F : formula) : Prop := ∃ ν, eval_formula ν F = true.

(** ** Lemmas *)

Section formula.
Context (F : formula).
Implicit Types (c v l : Z) (cl : list Z).

Lemma clause_lookup c cl :
  0 ≤ c → clauses F !! Z.to_nat c = Some cl → clause F c = cl.
Proof. intros Hc H. unfold clause. case_ztest; [lia |]. by rewrite H. Qed.

Lemma clause_elem c :
  0 ≤ c < Z.of_nat (length (clauses F)) → clause F c ∈ clauses F.
Proof.
  intros Hc. destruct (lookup_lt_is_Some_2 (clauses F) (Z.to_nat c)) as [cl Hcl];
    [lia |].
  rewrite (clause_lookup c cl) by (done || lia).
  by eapply list_elem_of_lookup_2.
Qed.

Lemma clause_out c : ¬ (0 ≤ c < Z.of_nat (length (clauses F))) → clause F c = [].
Proof.
  intros Hc. unfold clause. case_ztest; [done |].
  rewrite lookup_ge_None_2; [done | lia].
Qed.

Lemma lit_okb_spec l : lit_okb F l = true ↔ lit_ok F l.
Proof. unfold lit_okb, lit_ok. repeat case_ztest; simpl; intuition lia. Qed.

Lemma wf_formulab_spec : wf_formulab F = true → wf_formula F.
Proof.
  unfold wf_formulab. rewrite !andb_true_iff, !forallb_forall.
  intros [[[[HV HC] Hl] Ha] Ho%bool_decide_eq_true_1]. split.
  - lia.
  - lia.
  - intros cl l Hcl Hin. apply lit_okb_spec.
    apply list_elem_of_In in Hcl, Hin.
    specialize (Hl cl Hcl). rewrite forallb_forall in Hl. by apply Hl.
  - intros v Hv. eapply bool_decide_eq_true_1, Ha.
    apply list_elem_of_In, elem_of_range. lia.
  - intros v Hv. unfold apps.
    destruct (appearances F !! v) as [l|] eqn:E; [| done].
    by destruct (Hv (Ho v l E)).
Qed.

Lemma wf_clause_lit c l :
  wf_formula F → l ∈ clause F c → lit_ok F l.
Proof.
  intros HF Hl.
  destruct (decide (0 ≤ c < Z.of_nat (length (clauses F)))) as [Hc|Hc].
  - eapply wf_lits; [done | by apply clause_elem | done].
  - rewrite clause_out in Hl by done. by apply elem_of_nil in Hl.
Qed.

Lemma wf_clause_var c l :
  wf_formula F → l ∈ clause F c → 0 ≤ var_of l < V F.
Proof.
  intros HF Hl. destruct (wf_clause_lit c l HF Hl). unfold var_of. lia.
Qed.
End formula.

(** Entries and literals. *)

Lemma var_of_app_enc c lit : 0 ≤ c → var_of (app_enc c lit) = c.
Proof. intros. unfold var_of, app_enc. case_ztest; lia. Qed.

Lemma app_enc_agree c lit sign :
  0 ≤ c → lit ≠ 0 → (sign = 1 ∨ sign = -1) →
  (app_enc c lit * sign >? 0) = (lit * sign >? 0).
Proof.
  intros Hc Hl Hs. unfold app_enc. case_ztest; destruct Hs; subst;
    repeat case_ztest; lia.
Qed.

Lemma var_of_lit_of v sign :
  0 ≤ v → (sign = 1 ∨ sign = -1) → var_of (lit_of v sign) = v.
Proof. intros Hv [-> | ->]; unfold var_of, lit_of; lia. Qed.

Lemma lit_of_var_of l sign :
  l ≠ 0 → (sign = 1 ∨ sign = -1) → 0 < l * sign → lit_of (var_of l) sign = l.
Proof. intros Hl [-> | ->] Hs; unfold var_of, lit_of; lia. Qed.

(** Membership in the reference occurrence lists. *)

Lemma elem_of_occ_in v c cl e :
  e ∈ occ_in v c cl ↔ ∃ l, l ∈ cl ∧ var_of l = v ∧ e = app_enc c l.
Proof.
  unfold occ_in. rewrite list_elem_of_fmap. split.
  - intros (l & -> & Hl). apply list_elem_of_filter in Hl as [? ?]. eauto.
  - intros (l & Hl & Hv & ->). exists l. split; [done |].
    by apply list_elem_of_filter.
Qed.

Lemma elem_of_occ_from v c0 cls e :
  e ∈ occ_from v c0 cls ↔
  ∃ (i : nat) cl l, cls !! i = Some cl ∧ l ∈ cl ∧ var_of l = v
                    ∧ e = app_enc (c0 + Z.of_nat i) l.
Proof.
  revert c0. induction cls as [|cl cls IH]; intros c0; simpl.
  { split; [by intros ?%elem_of_nil | by intros (i & ? & ? & ? & _)]. }
  rewrite elem_of_app, elem_of_occ_in, IH. split.
  - intros [(l & ? & ? & ->) | (i & cl' & l & ? & ? & ? & ->)].
    + exists 0%nat, cl, l. rewrite Z.add_0_r. done.
    + exists (S i), cl', l. split_and!; try done. f_equal. lia.
  - intros ([|i] & cl' & l & Hi & ? & ? & ->); simpl in Hi.
    + left. exists l. rewrite Z.add_0_r. by simplify_eq.
    + right. exists i, cl', l. split_and!; try done. f_equal. lia.
Qed.

(** The number of entries of variable [v] that name clause [c] is the
    number of literals of [v] in that clause. *)
Lemma count_occ_in v c c0 cl :
  0 ≤ c0 →
  countb (λ e, var_of e =? c) (occ_in v c0 cl)
  = if c0 =? c then countb (λ l, var_of l =? v) cl else 0.
Proof.
  intros Hc0. unfold occ_in. rewrite countb_fmap.
  rewrite (countb_ext _ (λ _, c0 =? c)).
  2:{ intros l _. by rewrite var_of_app_enc. }
  case_ztest; [| by apply countb_false].
  rewrite countb_true. unfold countb.
  do 2 f_equal. apply list_filter_iff. intros l. symmetry. apply Z.eqb_eq.
Qed.

Lemma count_occ_from v c c0 cls :
  0 ≤ c0 →
  countb (λ e, var_of e =? c) (occ_from v c0 cls)
  = if c0 <=? c
    then countb (λ l, var_of l =? v) (default [] (cls !! Z.to_nat (c - c0)))
    else 0.
Proof.
  revert c0. induction cls as [|cl cls IH]; intros c0 Hc0; simpl.
  { rewrite !countb_nil. by case_ztest. }
  rewrite countb_app, count_occ_in, IH by lia.
  destruct (Z.eqb_spec c0 c) as [->|Hne].
  - rewrite Z.sub_diag. repeat case_ztest; simpl; lia.
  - repeat case_ztest; try lia.
    replace (Z.to_nat (c - c0)) with (S (Z.to_nat (c - (c0 + 1)))) by lia. done.
Qed.

(** A clause that does not repeat a variable gives a variable one entry
    at most. *)
Lemma length_occ_in v c cl :
  NoDup (var_of <$> cl) → (length (occ_in v c cl) ≤ 1)%nat.
Proof.
  unfold occ_in. rewrite length_fmap.
  induction cl as [|l cl IH]; [simpl; lia |].
  rewrite fmap_cons, NoDup_cons, filter_cons. intros [Hl Hcl].
  case_decide as Hv; [| by apply IH]. simpl.
  destruct (filter (λ l, var_of l = v) cl) as [|x p] eqn:E; [simpl; lia |].
  destruct Hl. assert (x ∈ filter (λ l, var_of l = v) cl) as Hx
    by (rewrite E; left).
  apply list_elem_of_filter in Hx as [Hxv Hx]. rewrite Hv, <- Hxv.
  by apply list_elem_of_fmap_2.
Qed.

Lemma length_occ_from v c0 cls :
  Forall (λ cl, NoDup (var_of <$> cl)) cls →
  (length (occ_from v c0 cls) ≤ length cls)%nat.
Proof.
  intros H. revert c0. induction H as [|cl cls Hcl _ IH]; intros c0; [done |].
  simpl. rewrite length_app. pose proof (length_occ_in v c0 cl Hcl).
  specialize (IH (c0 + 1)). lia.
Qed.

Section wf.
Context (F : formula) (HF : wf_formula F).
Implicit Types (c v l e : Z).

(** An entry of [appearances[v]] names a clause that holds a literal of
    [v], with the entry's sign. *)
Lemma apps_sound v e :
  0 ≤ v < V F → e ∈ apps F v →
  ∃ l, l ∈ clause F (var_of e) ∧ var_of l = v ∧ e = app_enc (var_of e) l
       ∧ 0 ≤ var_of e < C F.
Proof.
  intros Hv He. rewrite (wf_apps F HF v Hv) in He.
  apply elem_of_occ_from in He as (i & cl & l & Hi & Hl & Hvl & ->).
  rewrite Z.add_0_l, var_of_app_enc by lia.
  pose proof (lookup_lt_Some _ _ _ Hi). rewrite (wf_C F HF).
  exists l. split_and!; try done; try lia.
  rewrite (clause_lookup F _ cl); [done | lia | by rewrite Nat2Z.id].
Qed.

(** Every literal of a clause has its entry in the occurrence list of its
    variable. *)
Lemma apps_complete c l :
  0 ≤ c < C F → l ∈ clause F c → app_enc c l ∈ apps F (var_of l).
Proof.
  intros Hc Hl. rewrite (wf_C F HF) in Hc.
  rewrite (wf_apps F HF) by (eapply wf_clause_var; eauto).
  apply elem_of_occ_from.
  destruct (lookup_lt_is_Some_2 (clauses F) (Z.to_nat c)) as [cl Hcl]; [lia |].
  exists (Z.to_nat c), cl, l. rewrite (clause_lookup F c cl) in Hl by (done || lia).
  split_and!; try done. f_equal. lia.
Qed.

Lemma count_apps_clause v c :
  0 ≤ v < V F → 0 ≤ c < C F →
  countb (λ e, var_of e =? c) (apps F v) = countb (λ l, var_of l =? v) (clause F c).
Proof.
  intros Hv Hc. rewrite (wf_apps F HF v Hv). unfold occurrences.
  rewrite count_occ_from by lia. case_ztest; [| lia].
  rewrite Z.sub_0_r. unfold clause. case_ztest; [lia | done].
Qed.

Lemma apps_in_range v :
  0 ≤ v < V F → Forall (λ e, 0 ≤ var_of e < C F) (apps F v).
Proof.
  intros Hv. apply Forall_forall. intros e He.
  by destruct (apps_sound v e Hv He) as (_ & _ & _ & _ & ?).
Qed.

(** Without repeated variables a variable has one entry per clause at
    most. *)
Lemma napps_le_C v : distinct_vars F → napps F v ≤ C F.
Proof.
  intros Hd. rewrite (wf_C F HF). unfold napps.
  destruct (decide (0 ≤ v < V F)) as [Hv|Hv];
    [| rewrite (wf_apps_out F HF v Hv); simpl; lia].
  rewrite (wf_apps F HF v Hv). unfold occurrences.
  enough (length (occ_from v 0 (clauses F)) ≤ length (clauses F))%nat by lia.
  apply length_occ_from, Forall_forall, Hd.
Qed.

Lemma apps_entry_nonzero v e : 0 ≤ v < V F → e ∈ apps F v → e ≠ 0.
Proof.
  intros Hv He. destruct (apps_sound v e Hv He) as (l & _ & _ & Heq & Hc).
  rewrite Heq. unfold app_enc. case_ztest; lia.
Qed.
End wf.

#[export] Hint Resolve wf_V wf_clause_var wf_clause_lit : sat.

(** The value of a formula depends on the variables of its literals only. *)
Lemma eval_formula_ext (ν ν' : valuation) F :
  (∀ cl l, cl ∈ clauses F → l ∈ cl → ν (var_of l) = ν' (var_of l)) →
  eval_formula ν F = eval_formula ν' F.
Proof.
  intros H. unfold eval_formula.
  induction (clauses F) as [|cl cls IH]; simpl; [done |].
  rewrite IH by (intros; eapply H; [by right | done]). f_equal.
  assert (∀ l, l ∈ cl → eval_lit ν l = eval_lit ν' l) as Hcl.
  { intros l Hl. unfold eval_lit. rewrite (H cl l); [done | by left | done]. }
  clear H IH. unfold eval_clause.
  induction cl as [|l cl IH]; simpl; [done |].
  rewrite Hcl by left. rewrite IH; [done |]. intros; apply Hcl. by right.
Qed.

Lemma example_formula_wf : wf_formula example_formula.
Proof. apply wf_formulab_spec. vm_compute. reflexivity. Qed.

Lemma chain_formula_wf : wf_formula chain_formula.
Proof. apply wf_formulab_spec. by vm_compute. Qed.

Lemma twice_queued_formula_wf : wf_formula twice_queued_formula.
Proof. apply wf_formulab_spec. by vm_compute. Qed.

Lemma refused_formula_wf : wf_formula refused_formula.
Proof. apply wf_formulab_spec. by vm_compute. Qed.

Lemma chain_formula_distinct : distinct_vars chain_formula.
Proof.
  intros cl Hcl. revert cl Hcl. apply Forall_forall.
  apply (bool_decide_unpack _). by vm_compute.
Qed.
