(* ===== verification/Core.v ===== *)
(** * The counter machine: an abstract specification of assign and unassign

    Of all the globals of [src/sat.cpp] only four decide satisfaction:
    [assn], [satisfier], [rem] and [nunsat].  This file states what
    [assign], [unassign_upto] and [unassign] do to those four, as a machine
    of its own ([cassign], [cunassign_upto], [cunassign]) with no tallies,
    no queue and no conflict sets, and proves the machine correct:

    - the invariant [cinv] (spec I1: [rem] counts the unset literals; I2,
      left to right: a clause with a satisfier holds a true literal of that
      variable; I3: [nunsat] counts the clauses without satisfier) is
      preserved by [cassign], whether it succeeds or rolls back, and by
      [cunassign] when the sign passed is the sign assigned;
    - a failed [cassign] leaves the machine as it found it;
    - [cunassign] undoes a successful [cassign] (spec I7);
    - [cassign] fails exactly when the new value falsifies a clause.

    [Assign] proves that the functions of the program, projected on the
    four fields, are this machine. *)

From S2P Require Import Prelude Formula.

(** ** The machine *)

Record cstate := mkCore {
  c_assn : arr;
  c_satisfier : arr;
  c_rem : arr;
  c_nunsat : Z;
}.

(** [appearances[v][i] * sign > 0]: the occurrence has the sign assigned. *)
Definition agrees (app sign : Z) : bool := app * sign >? 0.

(** One iteration of the loop of [assign], up to the conflict test. *)
Definition ctouch (v sign : Z) (k : cstate) (app : Z) : cstate :=
  let c := var_of app in
  let r := (c_rem k).[c <- (c_rem k).[c] - 1] in
  if agrees app sign && ((c_satisfier k).[c] =? 0)
  then mkCore (c_assn k) ((c_satisfier k).[c <- v + 1]) r (c_nunsat k - 1)
  else mkCore (c_assn k) (c_satisfier k) r (c_nunsat k).

(** The conflict test of [assign], on the state [ctouch] leaves. *)
Definition cconflict (sign : Z) (k : cstate) (app : Z) : bool :=
  negb (agrees app sign)
  && ((c_satisfier k).[var_of app] =? 0) && ((c_rem k).[var_of app] =? 0).

(** One iteration of the loop of [unassign_upto]. *)
Definition cuntouch (v sign : Z) (k : cstate) (app : Z) : cstate :=
  let c := var_of app in
  let r := (c_rem k).[c <- (c_rem k).[c] + 1] in
  if agrees app sign && ((c_satisfier k).[c] =? v + 1)
  then mkCore (c_assn k) ((c_satisfier k).[c <- 0]) r (c_nunsat k + 1)
  else mkCore (c_assn k) (c_satisfier k) r (c_nunsat k).

Definition cset_assn (v x : Z) (k : cstate) : cstate :=
  mkCore ((c_assn k).[v <- x]) (c_satisfier k) (c_rem k) (c_nunsat k).

Definition cunassign_upto (F : formula) (v sign upto : Z) (k : cstate) : cstate :=
  if (c_assn k).[v] =? 0 then k
  else foldl (cuntouch v sign) (cset_assn v 0 k) (take (Z.to_nat upto) (apps F v)).

Definition cunassign (F : formula) (v sign : Z) (k : cstate) : cstate :=
  cunassign_upto F v sign (napps F v) k.

Fixpoint cassign_loop (F : formula) (v sign i : Z) (l : list Z) (k : cstate)
  : bool * cstate :=
  match l with
  | [] => (true, k)
  | app :: l =>
      let k1 := ctouch v sign k app in
      if cconflict sign k1 app
      then (false, cunassign_upto F v sign (i + 1) k1)
      else cassign_loop F v sign (i + 1) l k1
  end.

Definition cassign (F : formula) (v sign : Z) (k : cstate) : bool * cstate :=
  if (c_assn k).[v] =? 0
  then cassign_loop F v sign 0 (apps F v) (cset_assn v sign k)
  else (true, k).

(** Some occurrence of the list names clause [c] with the sign assigned. *)
Definition hits (sign c : Z) (l : list Z) : bool :=
  existsb (λ e, (var_of e =? c) && agrees e sign) l.

(** ** Equivalence of machine states *)

Record ceq (k1 k2 : cstate) : Prop := {
  ceq_assn : c_assn k1 ≡ₐ c_assn k2;
  ceq_satisfier : c_satisfier k1 ≡ₐ c_satisfier k2;
  ceq_rem : c_rem k1 ≡ₐ c_rem k2;
  ceq_nunsat : c_nunsat k1 = c_nunsat k2;
}.

Infix "≡ₖ" := ceq (at level 70, no associativity) : sat_scope.

(** ** The invariant *)

Definition cunset (k : cstate) (v : Z) : bool := (c_assn k).[v] =? 0.

(** The literal is true under the current assignment. *)
Definition lit_true (k : cstate) (l : Z) : bool := l * (c_assn k).[var_of l] >? 0.

(** The literal is false under the current assignment. *)
Definition lit_false (k : cstate) (l : Z) : bool := l * (c_assn k).[var_of l] <? 0.

Definition count_unset (k : cstate) (cl : list Z) : Z :=
  countb (λ l, cunset k (var_of l)) cl.

Definition count_unsat (F : formula) (k : cstate) : Z :=
  countb (λ c, (c_satisfier k).[c] =? 0) (range 0 (C F)).

Definition sign_ok (sign : Z) : Prop := sign = 1 ∨ sign = -1.

Record cinv (F : formula) (k : cstate) : Prop := {
  cinv_assn : ∀ v, (c_assn k).[v] = 0 ∨ sign_ok (c_assn k).[v];
  cinv_rem : ∀ c, 0 ≤ c < C F → (c_rem k).[c] = count_unset k (clause F c);
  cinv_satisfier : ∀ c, 0 ≤ c < C F → (c_satisfier k).[c] ≠ 0 →
    ∃ v, (c_satisfier k).[c] = v + 1 ∧ 0 ≤ v < V F
         ∧ sign_ok (c_assn k).[v] ∧ lit_of v (c_assn k).[v] ∈ clause F c;
  cinv_nunsat : c_nunsat k = count_unsat F k;
}.

(** The initial machine of [main]: nothing assigned, [rem[c] = csizes[c]],
    no satisfier, [nunsat = C]. *)
Definition cinit (F : formula) : cstate :=
  mkCore ∅ ∅
    (foldl (λ a c, a.[c <- csizes F c]) ∅ (range 0 (C F)))
    (C F).

(** Clause [c] is falsified: unsatisfied with every literal false. *)
Definition falsified (F : formula) (k : cstate) (c : Z) : Prop :=
  (c_satisfier k).[c] = 0 ∧ ∀ l, l ∈ clause F c → lit_false k l = true.

(** ** Basic lemmas *)

#[global] Instance ceq_equiv : Equivalence ceq.
Proof.
  split.
  - intros k. by split.
  - intros k1 k2 [? ? ? ?]. by split.
  - intros k1 k2 k3 [? ? ? ?] [? ? ? ?]. split; by etrans.
Qed.

Lemma ceq_eq k1 k2 : k1 = k2 → k1 ≡ₖ k2.
Proof. by intros ->. Qed.

#[global] Instance cunset_proper : Proper (ceq ==> eq ==> eq) cunset.
Proof. intros k1 k2 H v ? <-. unfold cunset. by rewrite (ceq_assn _ _ H v). Qed.

#[global] Instance lit_true_proper : Proper (ceq ==> eq ==> eq) lit_true.
Proof. intros k1 k2 H l ? <-. unfold lit_true. by rewrite (ceq_assn _ _ H _). Qed.

#[global] Instance count_unset_proper : Proper (ceq ==> eq ==> eq) count_unset.
Proof.
  intros k1 k2 H cl ? <-. unfold count_unset.
  apply countb_ext. intros l _. by rewrite H.
Qed.

#[global] Instance count_unsat_proper F : Proper (ceq ==> eq) (count_unsat F).
Proof.
  intros k1 k2 H. unfold count_unsat.
  apply countb_ext. intros c _. by rewrite (ceq_satisfier _ _ H c).
Qed.

#[global] Instance cinv_proper F : Proper (ceq ==> iff) (cinv F).
Proof.
  assert (∀ k1 k2, k1 ≡ₖ k2 → cinv F k1 → cinv F k2) as Himp.
  { intros k1 k2 H [Ha Hr Hs Hn]. split.
    - intros v. rewrite <- (ceq_assn _ _ H v). apply Ha.
    - intros c Hc. rewrite <- (ceq_rem _ _ H c), <- H. by apply Hr.
    - intros c Hc. rewrite <- (ceq_satisfier _ _ H c). intros Hne.
      destruct (Hs c Hc Hne) as (v & ? & ? & ? & ?). exists v.
      by rewrite <- (ceq_assn _ _ H v).
    - rewrite <- (ceq_nunsat _ _ H), <- H. done. }
  intros k1 k2 H. split; apply Himp; [done | by symmetry].
Qed.

Lemma count_unset_assn k1 k2 cl :
  c_assn k1 = c_assn k2 → count_unset k1 cl = count_unset k2 cl.
Proof. unfold count_unset, cunset. by intros ->. Qed.

Lemma sign_ok_nonzero sign : sign_ok sign → sign ≠ 0.
Proof. unfold sign_ok. lia. Qed.

Lemma agrees_lit c l sign :
  0 ≤ c → l ≠ 0 → sign_ok sign → agrees (app_enc c l) sign = (l * sign >? 0).
Proof. intros. unfold agrees. by apply app_enc_agree. Qed.

Lemma agrees_lit_of l v sign :
  l ≠ 0 → var_of l = v → sign_ok sign → (l * sign >? 0) = true ↔ l = lit_of v sign.
Proof.
  unfold var_of, lit_of, sign_ok. intros Hl <- Hs. case_ztest; split; try done; lia.
Qed.

#[export] Hint Resolve sign_ok_nonzero : sat.

(** ** One step *)

Section steps.
Context (F : formula) (v sign : Z).
Implicit Types (k : cstate) (app c : Z) (l : list Z).

Lemma ctouch_assn k app : c_assn (ctouch v sign k app) = c_assn k.
Proof. unfold ctouch. by destruct (_ && _). Qed.

Lemma cuntouch_assn k app : c_assn (cuntouch v sign k app) = c_assn k.
Proof. unfold cuntouch. by destruct (_ && _). Qed.

Lemma ctouch_rem k app c :
  (c_rem (ctouch v sign k app)).[c]
  = (c_rem k).[c] - (if var_of app =? c then 1 else 0).
Proof.
  unfold ctouch. destruct (_ && _); simpl; rewrite get_upd;
    case_decide; case_ztest; subst; lia.
Qed.

Lemma cuntouch_rem k app c :
  (c_rem (cuntouch v sign k app)).[c]
  = (c_rem k).[c] + (if var_of app =? c then 1 else 0).
Proof.
  unfold cuntouch. destruct (_ && _); simpl; rewrite get_upd;
    case_decide; case_ztest; subst; lia.
Qed.

Lemma ctouch_satisfier k app c :
  (c_satisfier (ctouch v sign k app)).[c]
  = if (var_of app =? c) && agrees app sign && ((c_satisfier k).[c] =? 0)
    then v + 1 else (c_satisfier k).[c].
Proof.
  unfold ctouch. destruct (var_of app =? c) eqn:E; simpl.
  - apply Z.eqb_eq in E as <-. destruct (_ && _); simpl; by rewrite ?get_upd_eq.
  - apply Z.eqb_neq in E. destruct (_ && _); simpl; by rewrite ?get_upd_ne.
Qed.

Lemma cuntouch_satisfier k app c :
  (c_satisfier (cuntouch v sign k app)).[c]
  = if (var_of app =? c) && agrees app sign && ((c_satisfier k).[c] =? v + 1)
    then 0 else (c_satisfier k).[c].
Proof.
  unfold cuntouch. destruct (var_of app =? c) eqn:E; simpl.
  - apply Z.eqb_eq in E as <-. destruct (_ && _); simpl; by rewrite ?get_upd_eq.
  - apply Z.eqb_neq in E. destruct (_ && _); simpl; by rewrite ?get_upd_ne.
Qed.

Lemma ctouch_nunsat k app :
  0 ≤ var_of app < C F → v + 1 ≠ 0 →
  c_nunsat k = count_unsat F k →
  c_nunsat (ctouch v sign k app) = count_unsat F (ctouch v sign k app).
Proof.
  intros Hc Hv Hk. unfold ctouch, count_unsat in *.
  destruct (agrees app sign); simpl; [| done].
  destruct (Z.eqb_spec ((c_satisfier k).[var_of app]) 0) as [E|E]; simpl; [| done].
  rewrite count_zero_upd, E, Hk by done. simpl. case_ztest; lia.
Qed.

Lemma cuntouch_nunsat k app :
  0 ≤ var_of app < C F → v + 1 ≠ 0 →
  c_nunsat k = count_unsat F k →
  c_nunsat (cuntouch v sign k app) = count_unsat F (cuntouch v sign k app).
Proof.
  intros Hc Hv Hk. unfold cuntouch, count_unsat in *.
  destruct (agrees app sign); simpl; [| done].
  destruct (Z.eqb_spec ((c_satisfier k).[var_of app]) (v + 1)) as [E|E]; simpl;
    [| done].
  rewrite count_zero_upd, E, Hk by done. simpl. case_ztest; lia.
Qed.
End steps.

(** ** A whole loop *)

Section folds.
Context (F : formula) (v sign : Z).
Implicit Types (k : cstate) (e c : Z) (l : list Z).

Lemma foldl_ctouch_assn l k : c_assn (foldl (ctouch v sign) k l) = c_assn k.
Proof.
  revert k. induction l as [|e l IH]; intros k; simpl; [done |].
  by rewrite IH, ctouch_assn.
Qed.

Lemma foldl_cuntouch_assn l k : c_assn (foldl (cuntouch v sign) k l) = c_assn k.
Proof.
  revert k. induction l as [|e l IH]; intros k; simpl; [done |].
  by rewrite IH, cuntouch_assn.
Qed.

Lemma foldl_ctouch_rem l k c :
  (c_rem (foldl (ctouch v sign) k l)).[c]
  = (c_rem k).[c] - countb (λ e, var_of e =? c) l.
Proof.
  revert k. induction l as [|e l IH]; intros k; simpl.
  - rewrite countb_nil. lia.
  - rewrite IH, ctouch_rem, countb_cons. lia.
Qed.

Lemma foldl_cuntouch_rem l k c :
  (c_rem (foldl (cuntouch v sign) k l)).[c]
  = (c_rem k).[c] + countb (λ e, var_of e =? c) l.
Proof.
  revert k. induction l as [|e l IH]; intros k; simpl.
  - rewrite countb_nil. lia.
  - rewrite IH, cuntouch_rem, countb_cons. lia.
Qed.

Lemma foldl_ctouch_satisfier l k c :
  v + 1 ≠ 0 →
  (c_satisfier (foldl (ctouch v sign) k l)).[c]
  = if ((c_satisfier k).[c] =? 0) && hits sign c l then v + 1 else (c_satisfier k).[c].
Proof.
  intros Hv. revert k. induction l as [|e l IH]; intros k; simpl.
  - by rewrite andb_false_r.
  - rewrite IH, ctouch_satisfier.
    destruct (var_of e =? c), (agrees e sign), (hits sign c l),
      (Z.eqb_spec ((c_satisfier k).[c]) 0); simpl; try done;
      try (case_ztest; done || lia).
Qed.

Lemma foldl_cuntouch_satisfier l k c :
  v + 1 ≠ 0 →
  (c_satisfier (foldl (cuntouch v sign) k l)).[c]
  = if ((c_satisfier k).[c] =? v + 1) && hits sign c l then 0 else (c_satisfier k).[c].
Proof.
  intros Hv. revert k. induction l as [|e l IH]; intros k; simpl.
  - by rewrite andb_false_r.
  - rewrite IH, cuntouch_satisfier.
    destruct (var_of e =? c), (agrees e sign), (hits sign c l),
      (Z.eqb_spec ((c_satisfier k).[c]) (v + 1)); simpl; try done;
      try (case_ztest; done || lia); by destruct (v + 1).
Qed.

Lemma foldl_ctouch_nunsat l k :
  Forall (λ e, 0 ≤ var_of e < C F) l → v + 1 ≠ 0 →
  c_nunsat k = count_unsat F k →
  c_nunsat (foldl (ctouch v sign) k l) = count_unsat F (foldl (ctouch v sign) k l).
Proof.
  intros Hl Hv. revert k. induction Hl as [|e l He Hl IH]; intros k Hk; simpl;
    [done |].
  by apply IH, ctouch_nunsat.
Qed.

Lemma foldl_cuntouch_nunsat l k :
  Forall (λ e, 0 ≤ var_of e < C F) l → v + 1 ≠ 0 →
  c_nunsat k = count_unsat F k →
  c_nunsat (foldl (cuntouch v sign) k l) = count_unsat F (foldl (cuntouch v sign) k l).
Proof.
  intros Hl Hv. revert k. induction Hl as [|e l He Hl IH]; intros k Hk; simpl;
    [done |].
  by apply IH, cuntouch_nunsat.
Qed.

Lemma hits_true c l :
  hits sign c l = true ↔ ∃ e, e ∈ l ∧ var_of e = c ∧ agrees e sign = true.
Proof.
  unfold hits. rewrite existsb_exists. split.
  - intros (e & He%list_elem_of_In & Hb).
    apply andb_true_iff in Hb as [Hc%Z.eqb_eq Ha]. by exists e.
  - intros (e & He%list_elem_of_In & <- & Ha). exists e.
    by rewrite Z.eqb_refl, Ha.
Qed.
End folds.

(** ** The machine on a well-formed formula *)

Section machine.
Context (F : formula) (HF : wf_formula F) (v sign : Z).
Context (Hv : 0 ≤ v < V F) (Hs : sign_ok sign).
Implicit Types (k : cstate) (e c l : Z) (p cl : list Z).

Lemma hits_sound c p :
  p ⊆ apps F v → hits sign c p = true →
  0 ≤ c < C F ∧ lit_of v sign ∈ clause F c.
Proof.
  intros Hp (e & He & <- & Ha)%hits_true.
  destruct (apps_sound F HF v e Hv (Hp e He)) as (l & Hl & Hvl & Heq & Hc).
  split; [done |]. destruct (wf_clause_lit F _ l HF Hl) as [Hl0 _].
  rewrite Heq, agrees_lit in Ha by (done || lia).
  apply (proj1 (agrees_lit_of l v sign Hl0 Hvl Hs)) in Ha. by subst.
Qed.

Lemma hits_complete c :
  0 ≤ c < C F → lit_of v sign ∈ clause F c → hits sign c (apps F v) = true.
Proof.
  intros Hc Hl. apply hits_true. exists (app_enc c (lit_of v sign)).
  pose proof (apps_complete F HF c _ Hc Hl) as He.
  rewrite var_of_lit_of in He by (done || lia).
  split_and!; [done | apply var_of_app_enc; lia |].
  destruct (wf_clause_lit F _ _ HF Hl) as [Hl0 _].
  rewrite agrees_lit by (done || lia).
  apply (agrees_lit_of _ v sign); auto. apply var_of_lit_of; [lia | done].
Qed.

Lemma count_unset_set k cl x :
  x ≠ 0 → (c_assn k).[v] = 0 →
  count_unset (cset_assn v x k) cl
  = count_unset k cl - countb (λ l, var_of l =? v) cl.
Proof.
  intros Hx Hk. unfold count_unset, cunset. simpl.
  induction cl as [|l cl IH]; [done |].
  rewrite !countb_cons, IH, get_upd.
  case_decide; repeat case_ztest; subst; lia || congruence.
Qed.

Lemma count_unset_reset k cl :
  (c_assn k).[v] ≠ 0 →
  count_unset (cset_assn v 0 k) cl
  = count_unset k cl + countb (λ l, var_of l =? v) cl.
Proof.
  intros Hk. unfold count_unset, cunset. simpl.
  induction cl as [|l cl IH]; [done |].
  rewrite !countb_cons, IH, get_upd.
  case_decide; repeat case_ztest; subst; lia || congruence.
Qed.

(** An unset variable satisfies no clause. *)
Lemma no_satisfier_unset k c :
  cinv F k → 0 ≤ c < C F → (c_assn k).[v] = 0 → (c_satisfier k).[c] ≠ v + 1.
Proof.
  intros Hk Hc Ha Hsat.
  destruct (cinv_satisfier F k Hk c Hc) as (u & Hu & _ & Hok & _); [lia |].
  assert (u = v) as -> by lia. rewrite Ha in Hok. by apply sign_ok_nonzero in Hok.
Qed.

Lemma sublist_in_range p :
  p ⊆ apps F v → Forall (λ e, 0 ≤ var_of e < C F) p.
Proof.
  intros Hp. apply Forall_forall. intros e He.
  by destruct (apps_sound F HF v e Hv (Hp e He)) as (_ & _ & _ & _ & ?).
Qed.
(** Undoing a prefix of the loop of [assign] that started from a state of
    the invariant with [v] unset gives that state back. *)
Lemma touch_untouch k p :
  cinv F k → (c_assn k).[v] = 0 → p ⊆ apps F v →
  foldl (cuntouch v sign)
    (cset_assn v 0 (foldl (ctouch v sign) (cset_assn v sign k) p)) p ≡ₖ k.
Proof.
  intros Hk Ha Hp. pose proof (sublist_in_range p Hp) as Hr.
  assert (v + 1 ≠ 0) as Hv1 by lia.
  set (k1 := foldl (ctouch v sign) (cset_assn v sign k) p).
  assert (c_satisfier (foldl (cuntouch v sign) (cset_assn v 0 k1) p)
          ≡ₐ c_satisfier k) as Hsat.
  { intros c. rewrite foldl_cuntouch_satisfier by done. simpl. unfold k1.
    rewrite foldl_ctouch_satisfier by done. simpl.
    destruct (hits sign c p) eqn:Hh; [| by rewrite !andb_false_r].
    apply (hits_sound c p Hp) in Hh as [Hc _].
    pose proof (no_satisfier_unset k c Hk Hc Ha).
    destruct (Z.eqb_spec ((c_satisfier k).[c]) 0) as [E|E]; simpl.
    - rewrite Z.eqb_refl. simpl. lia.
    - case_ztest; simpl; done || lia. }
  split.
  - rewrite foldl_cuntouch_assn. simpl. unfold k1. rewrite foldl_ctouch_assn.
    simpl. rewrite upd_upd_eq. by apply upd_id.
  - done.
  - intros c. rewrite foldl_cuntouch_rem. simpl. unfold k1.
    rewrite foldl_ctouch_rem. simpl. lia.
  - rewrite (foldl_cuntouch_nunsat F); [| done | done |].
    + rewrite (cinv_nunsat F k Hk). unfold count_unsat.
      apply countb_ext. intros c _. by rewrite (Hsat c).
    + change (c_nunsat k1 = count_unsat F k1). unfold k1.
      apply foldl_ctouch_nunsat; [done | done |]. apply (cinv_nunsat F k Hk).
Qed.

Lemma cassign_loop_true i p k k' :
  cassign_loop F v sign i p k = (true, k') → k' = foldl (ctouch v sign) k p.
Proof.
  revert i k. induction p as [|e p IH]; intros i k; simpl.
  - by intros [= <-].
  - destruct (cconflict _ _ _); [done |]. apply IH.
Qed.

Lemma cassign_loop_false pre p k k' :
  cassign_loop F v sign (Z.of_nat (length pre)) p k = (false, k') →
  ∃ p1 p2, p = p1 ++ p2
    ∧ k' = cunassign_upto F v sign (Z.of_nat (length (pre ++ p1)))
             (foldl (ctouch v sign) k p1).
Proof.
  revert pre k. induction p as [|e p IH]; intros pre k; simpl; [done |].
  destruct (cconflict _ _ _) eqn:Hc.
  - intros [= <-]. exists [e], p. split; [done |].
    rewrite length_app. simpl. do 2 f_equal. lia.
  - replace (Z.of_nat (length pre) + 1) with (Z.of_nat (length (pre ++ [e])))
      by (rewrite length_app; simpl; lia).
    intros (p1 & p2 & -> & ->)%IH. exists (e :: p1), p2. split; [done |].
    by rewrite <- app_assoc.
Qed.

Lemma cunassign_upto_prefix k p p2 :
  apps F v = p ++ p2 → (c_assn k).[v] ≠ 0 →
  cunassign_upto F v sign (Z.of_nat (length p)) k
  = foldl (cuntouch v sign) (cset_assn v 0 k) p.
Proof.
  intros Happ Ha. unfold cunassign_upto. case_ztest; [done |].
  by rewrite Nat2Z.id, Happ, take_app_length.
Qed.

Lemma cunassign_unfold k :
  (c_assn k).[v] ≠ 0 →
  cunassign F v sign k = foldl (cuntouch v sign) (cset_assn v 0 k) (apps F v).
Proof.
  intros Ha. unfold cunassign, napps.
  rewrite (cunassign_upto_prefix k (apps F v) []); [done | | done].
  by rewrite app_nil_r.
Qed.

(** A failed [cassign] rolls back all it did. *)
Lemma cassign_false k k' :
  cinv F k → cassign F v sign k = (false, k') → k' ≡ₖ k.
Proof.
  intros Hk. unfold cassign. case_ztest; [| done].
  intros (p1 & p2 & Happ & ->)%(cassign_loop_false []). simpl.
  rewrite (cunassign_upto_prefix _ p1 p2 Happ).
  - apply touch_untouch; [done.. |]. rewrite Happ. set_solver.
  - rewrite foldl_ctouch_assn. simpl. rewrite get_upd_eq.
    by apply sign_ok_nonzero.
Qed.

(** A successful [cassign] of an unset variable is the whole loop. *)
Lemma cassign_true k k' :
  (c_assn k).[v] = 0 → cassign F v sign k = (true, k') →
  k' = foldl (ctouch v sign) (cset_assn v sign k) (apps F v).
Proof.
  intros Ha. unfold cassign. rewrite Ha. simpl. apply cassign_loop_true.
Qed.

Lemma cassign_set k : (c_assn k).[v] ≠ 0 → cassign F v sign k = (true, k).
Proof. intros Ha. unfold cassign. by case_ztest. Qed.

Lemma foldl_ctouch_cinv k :
  cinv F k → (c_assn k).[v] = 0 →
  cinv F (foldl (ctouch v sign) (cset_assn v sign k) (apps F v)).
Proof.
  intros Hk Ha. assert (v + 1 ≠ 0) as Hv1 by lia.
  pose proof (apps_in_range F HF v Hv) as Hr. split.
  - intros u. rewrite foldl_ctouch_assn. simpl. rewrite get_upd.
    case_decide; [by right | apply (cinv_assn F k Hk)].
  - intros c Hc. rewrite foldl_ctouch_rem. simpl.
    rewrite (count_unset_assn _ (cset_assn v sign k)) by apply foldl_ctouch_assn.
    rewrite (cinv_rem F k Hk c Hc), count_apps_clause by done.
    rewrite count_unset_set; [done | by apply sign_ok_nonzero | done].
  - intros c Hc. rewrite foldl_ctouch_satisfier, foldl_ctouch_assn by done.
    simpl. destruct (Z.eqb_spec ((c_satisfier k).[c]) 0) as [E|E]; simpl.
    + destruct (hits sign c (apps F v)) eqn:Hh; [| done]. intros _.
      apply hits_sound in Hh as [_ Hl]; [| done]. exists v.
      by rewrite get_upd_eq.
    + intros _. destruct (cinv_satisfier F k Hk c Hc E) as (u & ? & ? & Hok & ?).
      exists u. rewrite get_upd_ne; [done |]. intros Heq. subst u.
      rewrite Ha in Hok.
      by apply sign_ok_nonzero in Hok.
  - apply foldl_ctouch_nunsat; [done | done |]. apply (cinv_nunsat F k Hk).
Qed.

(** The invariant survives [cassign], whatever it returns. *)
Lemma cassign_cinv k : cinv F k → cinv F (cassign F v sign k).2.
Proof.
  intros Hk. destruct (Z.eq_dec ((c_assn k).[v]) 0) as [Ha|Ha].
  - destruct (cassign F v sign k) as [[] k'] eqn:E; simpl.
    + apply cassign_true in E as ->; [| done]. by apply foldl_ctouch_cinv.
    + apply cassign_false in E; [| done]. by rewrite E.
  - by rewrite cassign_set.
Qed.

(** The invariant survives [cunassign] with the sign that was assigned. *)
Lemma cunassign_cinv k :
  cinv F k → (c_assn k).[v] = sign ∨ (c_assn k).[v] = 0 →
  cinv F (cunassign F v sign k).
Proof.
  intros Hk [Ha|Ha].
  2:{ unfold cunassign, cunassign_upto. by rewrite Ha. }
  assert ((c_assn k).[v] ≠ 0) as Hne by (rewrite Ha; by apply sign_ok_nonzero).
  assert (v + 1 ≠ 0) as Hv1 by lia.
  pose proof (apps_in_range F HF v Hv) as Hr.
  rewrite cunassign_unfold by done. split.
  - intros u. rewrite foldl_cuntouch_assn. simpl. rewrite get_upd.
    case_decide; [by left | apply (cinv_assn F k Hk)].
  - intros c Hc. rewrite foldl_cuntouch_rem. simpl.
    rewrite (count_unset_assn _ (cset_assn v 0 k)) by apply foldl_cuntouch_assn.
    rewrite (cinv_rem F k Hk c Hc), count_apps_clause by done.
    by rewrite count_unset_reset.
  - intros c Hc. rewrite foldl_cuntouch_satisfier, foldl_cuntouch_assn by done.
    simpl. destruct (andb _ _) eqn:Hb; [done |]. intros E.
    destruct (cinv_satisfier F k Hk c Hc E) as (u & Hu & ? & Hok & Hl).
    exists u. rewrite get_upd_ne; [done |]. intros Heq. subst u.
    rewrite Ha in Hl. apply (hits_complete c Hc) in Hl.
    rewrite Hl, Hu, Z.eqb_refl in Hb. done.
  - apply foldl_cuntouch_nunsat; [done | done |]. apply (cinv_nunsat F k Hk).
Qed.

(** The satisfiers after [cunassign]: a clause that [v] satisfied is
    left without satisfier, whatever its other literals are; no clause
    gets a new one. *)
Lemma cunassign_satisfier k c :
  cinv F k → (c_assn k).[v] = sign → 0 ≤ c < C F →
  (c_satisfier (cunassign F v sign k)).[c]
  = if (c_satisfier k).[c] =? v + 1 then 0 else (c_satisfier k).[c].
Proof.
  intros Hk Ha Hc.
  assert ((c_assn k).[v] ≠ 0) as Hne by (rewrite Ha; by apply sign_ok_nonzero).
  rewrite cunassign_unfold, foldl_cuntouch_satisfier by (done || lia). simpl.
  destruct (Z.eqb_spec ((c_satisfier k).[c]) (v + 1)) as [Hsat|]; [| done].
  destruct (cinv_satisfier F k Hk c Hc) as (u & Hu & _ & _ & Hl); [lia |].
  assert (u = v) as -> by lia. rewrite Ha in Hl.
  by rewrite (hits_complete c Hc Hl).
Qed.

(** [cunassign] undoes a successful [cassign] (spec I7). *)
Lemma cassign_cunassign k k' :
  cinv F k → (c_assn k).[v] = 0 → cassign F v sign k = (true, k') →
  cunassign F v sign k' ≡ₖ k.
Proof.
  intros Hk Ha ->%cassign_true; [| done].
  rewrite cunassign_unfold.
  - by apply touch_untouch.
  - rewrite foldl_ctouch_assn. simpl. rewrite get_upd_eq.
    by apply sign_ok_nonzero.
Qed.
End machine.

(** ** The initial machine *)

Lemma cinit_cinv F : wf_formula F → cinv F (cinit F).
Proof.
  intros HF. pose proof (wf_C F HF) as HC. split; simpl.
  - intros v. by left.
  - intros c Hc. rewrite get_foldl_upd.
    case_decide as Hin; [| by rewrite elem_of_range in Hin].
    unfold count_unset, csizes.
    rewrite (countb_ext _ (λ _, true)) by done. by rewrite countb_true.
  - intros c _ Hne. by rewrite get_empty in Hne.
  - unfold count_unsat. simpl.
    rewrite (countb_ext _ (λ _, true)) by done.
    rewrite countb_true, length_range. lia.
Qed.

(** ** A machine with no unsatisfied clause holds a model *)

Lemma lit_true_lit_of k v :
  0 ≤ v → sign_ok (c_assn k).[v] → lit_true k (lit_of v (c_assn k).[v]) = true.
Proof.
  intros Hv Hs. unfold lit_true. rewrite var_of_lit_of by done.
  unfold lit_of. destruct Hs as [-> | ->]; apply Z.gtb_lt; lia.
Qed.

Lemma cinv_model F k :
  wf_formula F → cinv F k → c_nunsat k = 0 →
  ∀ cl, cl ∈ clauses F → ∃ l, l ∈ cl ∧ lit_true k l = true.
Proof.
  intros HF Hk Hn cl Hcl.
  apply list_elem_of_lookup in Hcl as [i Hi].
  assert (0 ≤ Z.of_nat i < C F) as Hc.
  { rewrite (wf_C F HF). apply lookup_lt_Some in Hi. lia. }
  rewrite <- (clause_lookup F (Z.of_nat i) cl) by (lia || by rewrite Nat2Z.id).
  rewrite (cinv_nunsat F k Hk) in Hn.
  pose proof (proj1 (countb_zero _ _) Hn (Z.of_nat i)) as Hs.
  destruct (cinv_satisfier F k Hk (Z.of_nat i)) as (v & _ & Hv & Ha & Hl);
    [done | |].
  - intros H0. specialize (Hs ltac:(by apply elem_of_range)). simpl in Hs.
    by rewrite H0 in Hs.
  - eexists. split; [done |]. apply lit_true_lit_of; [lia | done].
Qed.
