(* ===== verification/Restore.v ===== *)
(** * Backtracking on the counter machine

    What makes the undo of [src/sat.cpp] right, stated on the machine of
    [Core] where no queue is in sight:

    - [cextends k0 k]: [k] is [k0] with more variables set; a satisfier
      that [k0] does not have is a variable unset in [k0].  A successful
      [cassign] extends, and so does a [cunassign] of a variable that is
      unset in [k0];
    - [crestore]: a machine of the invariant that extends [k0] and sets no
      variable that [k0] leaves unset is [k0].  The order in which the
      variables were unset plays no part, which is what the undo loop
      needs: it meets a variable queued twice at its later entry first;
    - [cassign_unit_fails]: giving the only unset literal of an
      unsatisfied clause the wrong value makes [cassign] fail, so a
      literal waiting in the queue is never contradicted by a successful
      [cassign]. *)

From S2P Require Import Prelude Formula Core.

(** ** Definitions *)

Record cextends (F : formula) (k0 k : cstate) : Prop := {
  cext_assn : ∀ u, (c_assn k0).[u] ≠ 0 → (c_assn k).[u] = (c_assn k0).[u];
  cext_satisfier : ∀ c,
    (c_satisfier k).[c] = (c_satisfier k0).[c]
    ∨ ((c_satisfier k0).[c] = 0
       ∧ ∃ u, (c_satisfier k).[c] = u + 1 ∧ (c_assn k0).[u] = 0);
  cext_satisfier_out : ∀ c, ¬ (0 ≤ c < C F) →
    (c_satisfier k).[c] = (c_satisfier k0).[c];
  cext_rem_out : ∀ c, ¬ (0 ≤ c < C F) → (c_rem k).[c] = (c_rem k0).[c];
}.

(** The literal [l] is the only unset literal of clause [c], which is
    unsatisfied: the clause forces [l]. *)
Record cunit (F : formula) (k : cstate) (c l : Z) : Prop := {
  cunit_clause : 0 ≤ c < C F;
  cunit_lit : l ∈ clause F c;
  cunit_unset : (c_assn k).[var_of l] = 0;
  cunit_satisfier : (c_satisfier k).[c] = 0;
  cunit_rem : (c_rem k).[c] = 1;
}.

(** ** [cextends] is a preorder *)

#[global] Instance cextends_preorder F : PreOrder (cextends F).
Proof.
  split.
  - intros k. split; auto.
  - intros k1 k2 k3 [Ha1 Hs1 Ho1 Hr1] [Ha2 Hs2 Ho2 Hr2]. split.
    + intros u Hu. rewrite Ha2, Ha1; [done.. |]. by rewrite Ha1.
    + intros c. destruct (Hs1 c) as [E1|(E1 & u & Eu & Hu)].
      * destruct (Hs2 c) as [E2|(E2 & w & Ew & Hw)]; [left; congruence |].
        right. split; [congruence |]. exists w. split; [done |].
        destruct (decide ((c_assn k1).[w] = 0)); [done |].
        rewrite <- Hw. symmetry. by apply Ha1.
      * destruct (Hs2 c) as [E2|(E2 & w & Ew & Hw)].
        -- right. split; [done |]. exists u. split; [congruence | done].
        -- right. split; [done |]. exists w. split; [done |].
           destruct (decide ((c_assn k1).[w] = 0)); [done |].
           rewrite <- Hw. symmetry. by apply Ha1.
    + intros c Hc. by rewrite Ho2, Ho1.
    + intros c Hc. by rewrite Hr2, Hr1.
Qed.

#[global] Instance cextends_proper F : Proper (ceq ==> ceq ==> iff) (cextends F).
Proof.
  assert (∀ k1 k2 m1 m2, k1 ≡ₖ k2 → m1 ≡ₖ m2 → cextends F k1 m1 → cextends F k2 m2)
    as Himp.
  { intros k1 k2 m1 m2 [Ka Ks Kr _] [Ma Ms Mr _] [Ha Hs Ho Hr]. split.
    - intros u. rewrite <- (Ka u), <- (Ma u). apply Ha.
    - intros c. rewrite <- (Ks c), <- (Ms c).
      destruct (Hs c) as [?|(? & u & ? & ?)]; [by left |].
      right. split; [done |]. exists u. by rewrite <- (Ka u).
    - intros c Hc. rewrite <- (Ks c), <- (Ms c). by apply Ho.
    - intros c Hc. rewrite <- (Kr c), <- (Mr c). by apply Hr. }
  intros k1 k2 Hk m1 m2 Hm. split; apply Himp; (done || by symmetry).
Qed.

(** A variable unset in the extension is unset in the base. *)
Lemma cextends_unset F k0 k u :
  cextends F k0 k → (c_assn k).[u] = 0 → (c_assn k0).[u] = 0.
Proof.
  intros He Hu. destruct (decide ((c_assn k0).[u] = 0)) as [|Hne]; [done |].
  by rewrite <- (cext_assn F k0 k He u Hne).
Qed.

(** ** Restoring *)

Lemma crestore F k0 m :
  cinv F k0 → cinv F m → cextends F k0 m →
  (∀ u, (c_assn k0).[u] = 0 → (c_assn m).[u] = 0) → m ≡ₖ k0.
Proof.
  intros Hk0 Hm He Hz.
  assert (c_assn m ≡ₐ c_assn k0) as Ha.
  { intros u. destruct (decide ((c_assn k0).[u] = 0)) as [E|E].
    - by rewrite E, Hz.
    - by apply (cext_assn F k0 m He). }
  assert (c_satisfier m ≡ₐ c_satisfier k0) as Hs.
  { intros c. destruct (decide (0 ≤ c < C F)) as [Hc|Hc];
      [| by apply (cext_satisfier_out F k0 m He)].
    destruct (cext_satisfier F k0 m He c) as [|(E0 & u & Eu & Hu)]; [done |].
    rewrite E0. destruct (decide ((c_satisfier m).[c] = 0)) as [|Hne]; [done |].
    destruct (cinv_satisfier F m Hm c Hc Hne) as (w & Hw & _ & Hok & _).
    assert (w = u) as -> by lia. rewrite (Hz u Hu) in Hok.
    by apply sign_ok_nonzero in Hok. }
  split; [done | done | |].
  - intros c. destruct (decide (0 ≤ c < C F)) as [Hc|Hc];
      [| by apply (cext_rem_out F k0 m He)].
    rewrite (cinv_rem F m Hm c Hc), (cinv_rem F k0 Hk0 c Hc).
    unfold count_unset, cunset. apply countb_ext. intros l _. by rewrite (Ha _).
  - rewrite (cinv_nunsat F m Hm), (cinv_nunsat F k0 Hk0). unfold count_unsat.
    apply countb_ext. intros c _. by rewrite (Hs c).
Qed.

(** ** The steps of the machine extend *)

Section steps.
Context (F : formula) (HF : wf_formula F) (v sign : Z).
Context (Hv : 0 ≤ v < V F) (Hs : sign_ok sign).
Implicit Types (k m : cstate) (e c l : Z) (p : list Z).

(** No occurrence of [v] names a clause outside the formula. *)
Lemma apps_count_out c : ¬ (0 ≤ c < C F) → countb (λ e, var_of e =? c) (apps F v) = 0.
Proof.
  intros Hc. apply countb_false. intros e He.
  destruct (apps_sound F HF v e Hv He) as (_ & _ & _ & _ & ?).
  apply Z.eqb_neq. lia.
Qed.

Lemma hits_out c : ¬ (0 ≤ c < C F) → hits sign c (apps F v) = false.
Proof.
  intros Hc. destruct (hits sign c (apps F v)) eqn:E; [| done].
  by apply (hits_sound F HF v sign Hv Hs c (apps F v)) in E as [? _].
Qed.

(** The loop of [cassign], run to its end, extends the state it starts
    from. *)
Lemma foldl_ctouch_extends k :
  (c_assn k).[v] = 0 →
  cextends F k (foldl (ctouch v sign) (cset_assn v sign k) (apps F v)).
Proof.
  intros Ha. assert (v + 1 ≠ 0) as Hv1 by lia. split.
  - intros u Hu. rewrite foldl_ctouch_assn. simpl.
    rewrite get_upd_ne; [done | congruence].
  - intros c. rewrite foldl_ctouch_satisfier by done. simpl.
    destruct (Z.eqb_spec ((c_satisfier k).[c]) 0); simpl; [| by left].
    destruct (hits sign c (apps F v)); [right; eauto | by left].
  - intros c Hc. rewrite foldl_ctouch_satisfier by done. simpl.
    by rewrite hits_out, andb_false_r.
  - intros c Hc. rewrite foldl_ctouch_rem. simpl. rewrite apps_count_out by done.
    lia.
Qed.

Lemma cassign_extends k k' :
  cassign F v sign k = (true, k') → cextends F k k'.
Proof.
  destruct (decide ((c_assn k).[v] = 0)) as [Ha|Ha].
  - intros ->%cassign_true; [| done]. by apply foldl_ctouch_extends.
  - rewrite cassign_set by done. by intros [= <-].
Qed.

(** Unsetting a variable that the base leaves unset keeps the extension. *)
Lemma cunassign_extends k0 m :
  cinv F k0 → (c_assn k0).[v] = 0 → cextends F k0 m →
  cextends F k0 (cunassign F v sign m).
Proof.
  intros Hk0 Ha0 He. destruct (decide ((c_assn m).[v] = 0)) as [Ha|Ha].
  { unfold cunassign, cunassign_upto. by rewrite Ha. }
  assert (v + 1 ≠ 0) as Hv1 by lia.
  rewrite (cunassign_unfold F v sign) by done. split.
  - intros u Hu. rewrite foldl_cuntouch_assn. simpl.
    rewrite get_upd_ne by congruence. by apply (cext_assn F k0 m He).
  - intros c. rewrite foldl_cuntouch_satisfier by done. simpl.
    destruct ((_ =? v + 1) && _) eqn:E; [| apply (cext_satisfier F k0 m He)].
    apply andb_true_iff in E as [E%Z.eqb_eq Hh].
    apply (hits_sound F HF v sign Hv Hs c (apps F v)) in Hh as [Hc _]; [| done].
    destruct (cext_satisfier F k0 m He c) as [E0|[E0 _]]; [| by left].
    pose proof (no_satisfier_unset F v Hv k0 c Hk0 Hc Ha0). congruence.
  - intros c Hc. rewrite foldl_cuntouch_satisfier by done. simpl.
    rewrite hits_out, andb_false_r by done. by apply (cext_satisfier_out F k0 m He).
  - intros c Hc. rewrite foldl_cuntouch_rem. simpl. rewrite apps_count_out by done.
    rewrite (cext_rem_out F k0 m He c Hc). lia.
Qed.

(** [cunassign] writes [assn[v]] only. *)
Lemma cunassign_assn m u :
  (c_assn (cunassign F v sign m)).[u] = if decide (u = v) then 0 else (c_assn m).[u].
Proof.
  unfold cunassign, cunassign_upto. destruct (Z.eqb_spec ((c_assn m).[v]) 0) as [E|E].
  - case_decide; [by subst | done].
  - rewrite foldl_cuntouch_assn. simpl. rewrite get_upd.
    repeat case_decide; congruence.
Qed.
End steps.

(** ** Unit clauses *)

Section units.
Context (F : formula) (HF : wf_formula F) (v sign : Z).
Context (Hv : 0 ≤ v < V F) (Hs : sign_ok sign).
Implicit Types (k m : cstate) (e c l : Z) (p : list Z).

(** The literal of a unit clause is its only unset literal. *)
Lemma cunit_unique k c l l' :
  cinv F k → cunit F k c l → l' ∈ clause F c → (c_assn k).[var_of l'] = 0 → l' = l.
Proof.
  intros Hk [Hc Hl Hu _ Hr] Hl' Hu'.
  rewrite (cinv_rem F k Hk c Hc) in Hr.
  apply (countb_one_unique _ _ l' l Hr); [done.. | |]; unfold cunset;
    by apply Z.eqb_eq.
Qed.

(** A run of the loop of [cassign] that ends has found no conflict: a
    clause it visited is satisfied or has an unset literal left. *)
Lemma cassign_loop_checked i p k k' e :
  cassign_loop F v sign i p k = (true, k') → e ∈ p →
  (c_satisfier k').[var_of e] = 0 → (c_rem k').[var_of e] ≠ 0.
Proof.
  assert (v + 1 ≠ 0) as Hv1 by lia.
  revert i k e. induction p as [|a p IH]; intros i k e Hrun He;
    [by apply elem_of_nil in He |].
  simpl in Hrun. destruct (cconflict _ _ _) eqn:Hc; [done |].
  destruct (decide (0 < countb (λ x, var_of x =? var_of e) p)) as [Hin|Hin].
  { apply countb_pos in Hin as (e' & He' & Heq%Z.eqb_eq). rewrite <- Heq.
    by eapply IH. }
  assert (var_of a = var_of e) as Hae.
  { apply elem_of_cons in He as [-> | He]; [done |]. destruct Hin.
    apply countb_pos. exists e. by rewrite Z.eqb_refl. }
  rewrite <- Hae in Hin |- *. clear Hae He e.
  pose proof (countb_nonneg (λ x, var_of x =? var_of a) p).
  apply cassign_loop_true in Hrun as ->.
  rewrite foldl_ctouch_rem, foldl_ctouch_satisfier by done.
  assert (hits sign (var_of a) p = false) as ->.
  { destruct (hits _ _ _) eqn:Hh; [| done]. destruct Hin.
    apply hits_true in Hh as (x & Hx & Hxe & _). apply countb_pos.
    exists x. split; [done |]. by apply Z.eqb_eq. }
  rewrite andb_false_r. intros Hsat.
  unfold cconflict in Hc. rewrite Hsat in Hc. simpl in Hc.
  rewrite andb_true_r in Hc. apply andb_false_iff in Hc as [Ha%negb_false_iff|Hr].
  - rewrite ctouch_satisfier, Z.eqb_refl, Ha in Hsat. simpl in Hsat.
    destruct (Z.eqb_spec ((c_satisfier k).[var_of a]) 0); lia.
  - apply Z.eqb_neq in Hr. lia.
Qed.

(** The value that contradicts the literal of a unit clause is refused. *)
Lemma cassign_unit_fails k c l :
  cinv F k → cunit F k c l → var_of l = v → l * sign < 0 →
  (cassign F v sign k).1 = false.
Proof.
  intros Hk Hu Hvl Hneg. destruct Hu as [Hc Hl Ha Hsat Hr] eqn:Hcu. clear Hcu.
  rewrite Hvl in Ha. destruct (cassign F v sign k) as [[] k'] eqn:E; [| done].
  exfalso. assert (v + 1 ≠ 0) as Hv1 by lia.
  pose proof (apps_complete F HF c l Hc Hl) as He. rewrite Hvl in He.
  unfold cassign in E. rewrite Ha in E. simpl in E.
  pose proof (cassign_loop_checked _ _ _ _ _ E He) as Hck.
  apply cassign_loop_true in E as ->.
  rewrite var_of_app_enc in Hck by lia.
  rewrite foldl_ctouch_rem, foldl_ctouch_satisfier in Hck by done. simpl in Hck.
  assert (hits sign c (apps F v) = false) as Hh.
  { destruct (hits _ _ _) eqn:Hh; [| done].
    apply (hits_sound F HF v sign Hv Hs c (apps F v)) in Hh as [_ Hl']; [| done].
    assert (lit_of v sign = l) as Heq.
    { eapply cunit_unique; [exact Hk | exact Hu | exact Hl' |].
      rewrite var_of_lit_of by (lia || done). done. }
    unfold lit_of in Heq. destruct Hs as [-> | ->]; nia. }
  rewrite Hh, andb_false_r in Hck. apply Hck; [done |].
  rewrite (count_apps_clause F HF v c Hv Hc), Hr.
  assert (countb (λ x, var_of x =? v) (clause F c) = 1); [| lia].
  pose proof (cinv_rem F k Hk c Hc) as Hrem. rewrite Hr in Hrem.
  unfold count_unset, cunset in Hrem.
  assert (0 < countb (λ x, var_of x =? v) (clause F c)).
  { apply countb_pos. exists l. split; [done |]. by apply Z.eqb_eq. }
  assert (countb (λ x, var_of x =? v) (clause F c)
          ≤ countb (λ x, (c_assn k).[var_of x] =? 0) (clause F c)); [| lia].
  clear -Ha. induction (clause F c) as [|x cl IH]; [done |].
  rewrite !countb_cons. destruct (Z.eqb_spec (var_of x) v) as [->|].
  - rewrite Ha. simpl. lia.
  - destruct (_ =? 0); lia.
Qed.

(** A successful [cassign] of another variable leaves a unit clause as
    it is. *)
Lemma cassign_keeps_unit k k' c l :
  cinv F k → cunit F k c l → var_of l ≠ v → (c_assn k).[v] = 0 →
  cassign F v sign k = (true, k') → cunit F k' c l.
Proof.
  intros Hk Hu Hne Ha E. assert (v + 1 ≠ 0) as Hv1 by lia.
  apply cassign_true in E as ->; [| done].
  assert (countb (λ e, var_of e =? c) (apps F v) = 0) as Hcount.
  { rewrite (count_apps_clause F HF v c Hv (cunit_clause F k c l Hu)).
    apply countb_false. intros x Hx. apply Z.eqb_neq. intros Hxv.
    destruct Hne. rewrite <- Hxv. f_equal. symmetry.
    eapply cunit_unique; [exact Hk | exact Hu | exact Hx |]. by rewrite Hxv. }
  destruct Hu as [Hc Hl Hun Hsat Hr]. split; [done | done | | |].
  - rewrite foldl_ctouch_assn. simpl. by rewrite get_upd_ne.
  - rewrite foldl_ctouch_satisfier by done. simpl.
    destruct (hits sign c (apps F v)) eqn:Hh; [| by rewrite andb_false_r].
    apply hits_true in Hh as (e & He & Hec & _).
    assert (0 < countb (λ e, var_of e =? c) (apps F v)); [| lia].
    apply countb_pos. exists e. split; [done |]. by apply Z.eqb_eq.
  - rewrite foldl_ctouch_rem. simpl. lia.
Qed.

(** A clause that is unit in the middle of the loop of [cassign], by a
    literal of another variable, is unit at its end. *)
Lemma cunit_persist k k' c l p :
  cinv F k' → k' = foldl (ctouch v sign) k p → cunit F k c l → cunit F k' c l.
Proof.
  intros Hk' -> [Hc Hl Hun Hsat Hr]. assert (v + 1 ≠ 0) as Hv1 by lia.
  pose proof (cinv_rem F _ Hk' c Hc) as Hrem.
  rewrite foldl_ctouch_rem, Hr in Hrem.
  pose proof (countb_nonneg (λ e, var_of e =? c) p).
  assert (0 < count_unset (foldl (ctouch v sign) k p) (clause F c)).
  { apply countb_pos. exists l. split; [done |]. unfold cunset.
    rewrite foldl_ctouch_assn. by apply Z.eqb_eq. }
  split; [done | done | by rewrite foldl_ctouch_assn | |].
  - rewrite foldl_ctouch_satisfier by done.
    destruct (hits sign c p) eqn:Hh; [| by rewrite andb_false_r].
    apply hits_true in Hh as (e & He & Hec & _).
    assert (0 < countb (λ e, var_of e =? c) p); [| lia].
    apply countb_pos. exists e. split; [done |]. by apply Z.eqb_eq.
  - rewrite foldl_ctouch_rem. lia.
Qed.
End units.
