(* ===== verification/State.v ===== *)
(** * The mutable state

    The module-level arrays and counters of [src/sat.cpp] that change
    during the search, as one record; one setter per field (a C assignment
    to a global is a setter applied to the state); the projection [core]
    on the counter machine of [Core] and the equivalence [core_eq] it
    induces; the projections [tallies], [queue] and [conflicts], and the
    classes [Frame], [Touches] and [Respects] that say which part of the
    state an operation writes. *)

From S2P Require Import Prelude Formula Core.

Record state := mkState {
  assn : arr;               (* 1 true, -1 false, 0 unset *)
  satisfier : arr;          (* 0, or v+1 for the variable that satisfied the clause *)
  rem : arr;                (* number of unset variables of the clause *)
  nunsat : Z;               (* number of clauses with satisfier 0 *)
  npos_app : arr;           (* tally of positive occurrences *)
  nneg_app : arr;           (* tally of negative occurrences *)
  propagation_queue : arr;
  npropped : Z;             (* size of the propagation queue *)
  npropped_at : arr;        (* npropped when the variable was branched on *)
  propping_clause : arr;    (* the clause that forced the variable *)
  conflict : sarr;
  in_conflict : sarr;
}.

(** ** Setters *)

Definition set_assn (x : arr) (s : state) : state :=
  mkState x (satisfier s) (rem s) (nunsat s) (npos_app s) (nneg_app s)
    (propagation_queue s) (npropped s) (npropped_at s) (propping_clause s)
    (conflict s) (in_conflict s).

Definition set_satisfier (x : arr) (s : state) : state :=
  mkState (assn s) x (rem s) (nunsat s) (npos_app s) (nneg_app s)
    (propagation_queue s) (npropped s) (npropped_at s) (propping_clause s)
    (conflict s) (in_conflict s).

Definition set_rem (x : arr) (s : state) : state :=
  mkState (assn s) (satisfier s) x (nunsat s) (npos_app s) (nneg_app s)
    (propagation_queue s) (npropped s) (npropped_at s) (propping_clause s)
    (conflict s) (in_conflict s).

Definition set_nunsat (x : Z) (s : state) : state :=
  mkState (assn s) (satisfier s) (rem s) x (npos_app s) (nneg_app s)
    (propagation_queue s) (npropped s) (npropped_at s) (propping_clause s)
    (conflict s) (in_conflict s).

Definition set_npos_app (x : arr) (s : state) : state :=
  mkState (assn s) (satisfier s) (rem s) (nunsat s) x (nneg_app s)
    (propagation_queue s) (npropped s) (npropped_at s) (propping_clause s)
    (conflict s) (in_conflict s).

Definition set_nneg_app (x : arr) (s : state) : state :=
  mkState (assn s) (satisfier s) (rem s) (nunsat s) (npos_app s) x
    (propagation_queue s) (npropped s) (npropped_at s) (propping_clause s)
    (conflict s) (in_conflict s).

Definition set_propagation_queue (x : arr) (s : state) : state :=
  mkState (assn s) (satisfier s) (rem s) (nunsat s) (npos_app s) (nneg_app s)
    x (npropped s) (npropped_at s) (propping_clause s)
    (conflict s) (in_conflict s).

Definition set_npropped (x : Z) (s : state) : state :=
  mkState (assn s) (satisfier s) (rem s) (nunsat s) (npos_app s) (nneg_app s)
    (propagation_queue s) x (npropped_at s) (propping_clause s)
    (conflict s) (in_conflict s).

Definition set_npropped_at (x : arr) (s : state) : state :=
  mkState (assn s) (satisfier s) (rem s) (nunsat s) (npos_app s) (nneg_app s)
    (propagation_queue s) (npropped s) x (propping_clause s)
    (conflict s) (in_conflict s).

Definition set_propping_clause (x : arr) (s : state) : state :=
  mkState (assn s) (satisfier s) (rem s) (nunsat s) (npos_app s) (nneg_app s)
    (propagation_queue s) (npropped s) (npropped_at s) x
    (conflict s) (in_conflict s).

Definition set_conflict (x : sarr) (s : state) : state :=
  mkState (assn s) (satisfier s) (rem s) (nunsat s) (npos_app s) (nneg_app s)
    (propagation_queue s) (npropped s) (npropped_at s) (propping_clause s)
    x (in_conflict s).

Definition set_in_conflict (x : sarr) (s : state) : state :=
  mkState (assn s) (satisfier s) (rem s) (nunsat s) (npos_app s) (nneg_app s)
    (propagation_queue s) (npropped s) (npropped_at s) (propping_clause s)
    (conflict s) x.

(** ** The core of a state

    Satisfaction is decided by [assn], [satisfier], [rem] and [nunsat]
    alone: the tallies steer the heuristics, the queue and the conflict
    sets steer the search. *)

Definition core (s : state) : cstate :=
  mkCore (assn s) (satisfier s) (rem s) (nunsat s).

Definition core_eq (s t : state) : Prop := core s ≡ₖ core t.

Infix "≡c" := core_eq (at level 70, no associativity) : sat_scope.

(** The invariant of the counter machine, on a state of the program. *)
Definition inv (F : formula) (s : state) : Prop := cinv F (core s).

(** The tallies that steer the heuristics. *)
Definition tallies (s : state) : arr * arr := (npos_app s, nneg_app s).

(** The queue with its markers, as one value. *)
Definition queue (s : state) : arr * Z * arr :=
  (propagation_queue s, npropped s, propping_clause s).

(** The two conflict relations. *)
Definition conflicts (s : state) : sarr * sarr := (conflict s, in_conflict s).

(** An operation that leaves a part [proj] of the state alone. *)
Class Frame {A} (proj : state → A) (f : state → state) : Prop :=
  frame : ∀ s, proj (f s) = proj s.

Arguments frame {A} proj f {_} s.

(** An operation that leaves the core alone. *)
Abbreviation CoreFrame := (Frame core).

(** Which part an operation writes, as a relation between the states
    before and after: all the other fields are the same. *)
Definition same_but_conflicts (s t : state) : Prop :=
  core s = core t ∧ tallies s = tallies t ∧ queue s = queue t
  ∧ npropped_at s = npropped_at t.

Definition same_but_tallies (s t : state) : Prop :=
  core s = core t ∧ queue s = queue t ∧ npropped_at s = npropped_at t
  ∧ conflicts s = conflicts t.

Definition same_but_queue (s t : state) : Prop :=
  core s = core t ∧ tallies s = tallies t ∧ npropped_at s = npropped_at t
  ∧ conflicts s = conflicts t.

Definition same_but_core_tallies (s t : state) : Prop :=
  queue s = queue t ∧ npropped_at s = npropped_at t ∧ conflicts s = conflicts t.

(** The two states have the same part [proj]. *)
Definition same_on {A} (proj : state → A) : relation state :=
  λ s t, proj s = proj t.

(** [f] writes only what [R] lets differ. *)
Class Touches (R : relation state) (f : state → state) : Prop :=
  touches : ∀ s, R (f s) s.

(** The part [proj] is the same in states related by [R]. *)
Class Respects {A} (R : relation state) (proj : state → A) : Prop :=
  respects : ∀ s t, R s t → proj s = proj t.

(** [unset s v]: the C test [assn[v] == 0]. *)
Definition unset (s : state) (v : Z) : bool := (assn s).[v] =? 0.

(** The truth value the reporter prints for variable [v]. *)
Definition model_of (s : state) : valuation := λ v, 0 <? (assn s).[v].

(** The state in which [main] calls [dfs(0)]: the [calloc]ed arrays are
    zero, [rem[c] = csizes[c]], [nunsat = C], and the tallies count the
    literals of each variable by polarity. *)
Definition init_state (F : formula) : state :=
  mkState ∅ ∅
    (foldl (λ a c, a.[c <- csizes F c]) ∅ (range 0 (C F)))
    (C F)
    (foldl (λ a v, a.[v <- count_lits (clauses F) false v]) ∅ (range 0 (V F)))
    (foldl (λ a v, a.[v <- count_lits (clauses F) true v]) ∅ (range 0 (V F)))
    ∅ 0 ∅ ∅ ∅ ∅.

(** ** Lemmas *)

#[global] Instance core_eq_equiv : Equivalence core_eq.
Proof.
  unfold core_eq. split.
  - by intros s.
  - by intros s t H.
  - intros s t u H1 H2. by etrans.
Qed.

#[global] Instance core_proper : Proper (core_eq ==> ceq) core.
Proof. by intros s t H. Qed.

#[global] Instance inv_proper F : Proper (core_eq ==> iff) (inv F).
Proof. intros s t H. unfold inv. by rewrite H. Qed.

Lemma core_eq_of_core s t : core s = core t → s ≡c t.
Proof. unfold core_eq. by intros ->. Qed.

Lemma core_eq_assn s t u : s ≡c t → (assn s).[u] = (assn t).[u].
Proof. intros H. apply (ceq_assn _ _ H u). Qed.

Lemma core_frame f `{!CoreFrame f} s : core (f s) = core s.
Proof. apply (frame core f). Qed.

Lemma core_frame_eq f `{!CoreFrame f} s : f s ≡c s.
Proof. by apply core_eq_of_core, core_frame. Qed.

(** A setter leaves alone every part that does not hold its field: the
    two sides are convertible. *)
#[global] Hint Extern 1 (Frame _ (set_assn _)) =>
  (intros ?; reflexivity) : typeclass_instances.
#[global] Hint Extern 1 (Frame _ (set_satisfier _)) =>
  (intros ?; reflexivity) : typeclass_instances.
#[global] Hint Extern 1 (Frame _ (set_rem _)) =>
  (intros ?; reflexivity) : typeclass_instances.
#[global] Hint Extern 1 (Frame _ (set_nunsat _)) =>
  (intros ?; reflexivity) : typeclass_instances.
#[global] Hint Extern 1 (Frame _ (set_npos_app _)) =>
  (intros ?; reflexivity) : typeclass_instances.
#[global] Hint Extern 1 (Frame _ (set_nneg_app _)) =>
  (intros ?; reflexivity) : typeclass_instances.
#[global] Hint Extern 1 (Frame _ (set_propagation_queue _)) =>
  (intros ?; reflexivity) : typeclass_instances.
#[global] Hint Extern 1 (Frame _ (set_npropped _)) =>
  (intros ?; reflexivity) : typeclass_instances.
#[global] Hint Extern 1 (Frame _ (set_npropped_at _)) =>
  (intros ?; reflexivity) : typeclass_instances.
#[global] Hint Extern 1 (Frame _ (set_propping_clause _)) =>
  (intros ?; reflexivity) : typeclass_instances.
#[global] Hint Extern 1 (Frame _ (set_conflict _)) =>
  (intros ?; reflexivity) : typeclass_instances.
#[global] Hint Extern 1 (Frame _ (set_in_conflict _)) =>
  (intros ?; reflexivity) : typeclass_instances.

#[global] Instance same_but_conflicts_equiv : Equivalence same_but_conflicts.
Proof.
  unfold same_but_conflicts. split; repeat intros ?; destruct_and?;
    split_and?; congruence.
Qed.

#[global] Instance same_but_tallies_equiv : Equivalence same_but_tallies.
Proof.
  unfold same_but_tallies. split; repeat intros ?; destruct_and?;
    split_and?; congruence.
Qed.

#[global] Instance same_but_queue_equiv : Equivalence same_but_queue.
Proof.
  unfold same_but_queue. split; repeat intros ?; destruct_and?;
    split_and?; congruence.
Qed.

#[global] Instance same_but_core_tallies_equiv : Equivalence same_but_core_tallies.
Proof.
  unfold same_but_core_tallies. split; repeat intros ?; destruct_and?;
    split_and?; congruence.
Qed.

Lemma same_but_tallies_core_tallies s t :
  same_but_tallies s t → same_but_core_tallies s t.
Proof. unfold same_but_tallies, same_but_core_tallies. tauto. Qed.

(** Two states that differ in the part [R] names agree on a part built
    from the other fields: by computation, field by field. *)
Ltac same_proj :=
  let H := fresh in
  intros [] [];
  unfold same_but_conflicts, same_but_tallies, same_but_queue,
    same_but_core_tallies, core, tallies, queue, conflicts;
  cbn; intros H; decompose [and] H; congruence.

#[global] Hint Extern 1 (Respects _ _) => same_proj : typeclass_instances.

#[global] Instance touches_frame {A} R f (proj : state → A) :
  Touches R f → Respects R proj → Frame proj f | 10.
Proof. intros Hf Hp s. apply Hp, Hf. Qed.

#[global] Instance same_on_equiv {A} (proj : state → A) : Equivalence (same_on proj).
Proof. unfold same_on. split; repeat intros ?; congruence. Qed.

Lemma frame_touches {A} (proj : state → A) f :
  Frame proj f → Touches (same_on proj) f.
Proof. intros Hf s. apply Hf. Qed.

Section touches.
Context (R : relation state) `{!Equivalence R}.

Lemma touches_compose f g : Touches R f → Touches R g → Touches R (λ s, f (g s)).
Proof. intros Hf Hg s. etrans; [apply Hf | apply Hg]. Qed.

Lemma foldl_touches {B} (f : state → B → state) (l : list B) :
  (∀ x, Touches R (λ s, f s x)) → Touches R (λ s, foldl f s l).
Proof.
  intros Hf. induction l as [|x l IH]; intros s; simpl; [done |].
  etrans; [apply IH | apply Hf].
Qed.
End touches.

Section frame.
Context {A} (proj : state → A).

Lemma frame_id : Frame proj (λ s, s).
Proof. done. Qed.

Lemma frame_compose f g : Frame proj f → Frame proj g → Frame proj (λ s, f (g s)).
Proof. intros Hf Hg s. by rewrite (Hf (g s)). Qed.

Lemma frame_if (b : state → bool) f g :
  Frame proj f → Frame proj g → Frame proj (λ s, if b s then f s else g s).
Proof. intros Hf Hg s. by destruct (b s). Qed.

(** A left fold of steps that leave a part alone leaves it alone. *)
Lemma foldl_frame {B} (f : state → B → state) (l : list B) :
  (∀ x, Frame proj (λ s, f s x)) → Frame proj (λ s, foldl f s l).
Proof.
  intros Hf. induction l as [|x l IH]; intros s; simpl; [done |].
  rewrite (IH (f s x)). apply Hf.
Qed.
End frame.

(** Peels the operations off [proj (f1 (f2 ... s)) = proj s] one by one,
    each by its [Frame] instance. *)
Ltac frame_solve :=
  repeat match goal with
         | |- ?proj (?f ?x) = _ => rewrite (frame proj f x)
         end;
  reflexivity.

Lemma unset_core s v : unset s v = cunset (core s) v.
Proof. done. Qed.

Lemma unset_true s v : unset s v = true ↔ (assn s).[v] = 0.
Proof. unfold unset. case_ztest; intuition congruence. Qed.

Lemma unset_false s v : unset s v = false ↔ (assn s).[v] ≠ 0.
Proof. unfold unset. case_ztest; intuition congruence. Qed.

Lemma init_state_core F : core (init_state F) = cinit F.
Proof. done. Qed.

Lemma init_state_inv F : wf_formula F → inv F (init_state F).
Proof. intros HF. unfold inv. rewrite init_state_core. by apply cinit_cinv. Qed.

(** A literal the machine holds true is true in the valuation the
    reporter prints. *)
Lemma eval_lit_model s l : lit_true (core s) l = true → eval_lit (model_of s) l = true.
Proof.
  unfold lit_true, eval_lit, model_of. simpl. intros H%Z.gtb_lt.
  destruct (Z.ltb_spec 0 l), (Z.ltb_spec 0 ((assn s).[var_of l])); (done || nia).
Qed.

(** With the invariant and [nunsat = 0] the assignment is a model. *)
Lemma inv_model F s :
  wf_formula F → inv F s → nunsat s = 0 → eval_formula (model_of s) F = true.
Proof.
  intros HF Hs Hn. apply forallb_forall. intros cl Hcl%list_elem_of_In.
  destruct (cinv_model F (core s) HF Hs Hn cl Hcl) as (l & Hl & Ht).
  apply existsb_exists. exists l.
  split; [by apply list_elem_of_In | by apply eval_lit_model].
Qed.
