(* ===== verification/Conflict.v ===== *)
(** * The conflict tracker

    [conflict[v]] and [in_conflict[v]] of [src/sat.cpp] with the functions
    that write them: [in_conflict_set], [augment_conflict],
    [backprop_conflict], and the pair of [clear()] calls that [dfs] and
    [do_unit_propagations] make before a variable gets a value.

    The loops of [augment_conflict] and [backprop_conflict] share one body,
    "if [x != v], insert [x] into [conflict[v]] and [v] into
    [in_conflict[x]]"; it is [add_edge], guarded in [add_edges].

    Theorems: none of the functions touches the core of the state; what
    each leaves in the two relations, by membership; irreflexivity of both
    relations is preserved by every function; [backprop_conflict] leaves
    [in_conflict[v]] empty; the inverse-relation property (symmetry) is
    preserved by [add_edge] and broken by the [clear()] calls. *)

From S2P Require Import Prelude Formula State.

(** ** Operations *)

(** [conflict[v].insert(u); in_conflict[u].insert(v);] *)
Definition add_edge (v u : Z) (s : state) : state :=
  set_in_conflict (sadd (in_conflict s) u v)
    (set_conflict (sadd (conflict s) v u) s).

(** The shared loop: an edge to [v] from every [u ≠ v] of the list. *)
Definition add_edges (v : Z) (us : list Z) (s : state) : state :=
  foldl (λ s u, if u =? v then s else add_edge v u s) s us.

Definition in_conflict_set (v : Z) (s : state) : bool :=
  negb (bool_decide (sget (in_conflict s) v = ∅)).

(** The two nested loops of [augment_conflict]: for every [o] of the list,
    an edge to [v] from every member of [conflict[o]] but [v]. *)
Definition lift_loop (v : Z) (os : list Z) (s : state) : state :=
  foldl (λ s o, add_edges v (elements (sget (conflict s) o)) s) s os.

Definition augment_conflict (v : Z) (s : state) : state :=
  let s1 := lift_loop v (elements (sget (in_conflict s) v)) s in
  set_in_conflict (sclear (in_conflict s1) v) s1.

Definition backprop_conflict (F : formula) (v c : Z) (s : state) : state :=
  augment_conflict v (add_edges v (var_of <$> clause F c) s).

(** [conflict[v].clear(); in_conflict[v].clear();] (in either order). *)
Definition clear_conflicts (v : Z) (s : state) : state :=
  set_in_conflict (sclear (in_conflict s) v)
    (set_conflict (sclear (conflict s) v) s).

(** ** Invariants *)

(** Spec I6, for both relations. *)
Definition irreflexive (s : state) : Prop :=
  ∀ v, (v ∉ sget (conflict s) v) ∧ (v ∉ sget (in_conflict s) v).

(** Spec I5. *)
Definition symmetric (s : state) : Prop :=
  ∀ u v, u ∈ sget (conflict s) v ↔ v ∈ sget (in_conflict s) u.

(** The variables [augment_conflict v] lifts into [conflict[v]]. *)
Definition lifted (s : state) (v x : Z) : Prop :=
  x ≠ v ∧ ∃ o, o ∈ sget (in_conflict s) v ∧ x ∈ sget (conflict s) o.

(** A state with every array zero and every set empty. *)
Definition empty_state : state := mkState ∅ ∅ ∅ 0 ∅ ∅ ∅ 0 ∅ ∅ ∅ ∅.

(** ** Frame: the tracker writes nothing but the two relations *)

Lemma add_edges_same v us s : same_but_conflicts (add_edges v us s) s.
Proof.
  revert s. induction us as [|u us IH]; intros s; simpl; [done |].
  etrans; [apply IH |]. case_ztest; [done |]. by repeat split.
Qed.

Lemma augment_conflict_same v s : same_but_conflicts (augment_conflict v s) s.
Proof.
  unfold augment_conflict, lift_loop. cbv zeta.
  etrans; [by repeat split |].
  generalize (elements (sget (in_conflict s) v)). intros os. revert s.
  induction os as [|o os IH]; intros s; simpl; [done |].
  etrans; [apply IH | apply add_edges_same].
Qed.

Lemma backprop_conflict_same F v c s :
  same_but_conflicts (backprop_conflict F v c s) s.
Proof.
  unfold backprop_conflict. etrans; [apply augment_conflict_same |].
  apply add_edges_same.
Qed.

Lemma clear_conflicts_same v s : same_but_conflicts (clear_conflicts v s) s.
Proof. by repeat split. Qed.

#[global] Instance add_edges_touches v us :
  Touches same_but_conflicts (add_edges v us).
Proof. intros s. apply add_edges_same. Qed.

#[global] Instance augment_conflict_touches v :
  Touches same_but_conflicts (augment_conflict v).
Proof. intros s. apply augment_conflict_same. Qed.

#[global] Instance backprop_conflict_touches F v c :
  Touches same_but_conflicts (backprop_conflict F v c).
Proof. intros s. apply backprop_conflict_same. Qed.

#[global] Instance clear_conflicts_touches v :
  Touches same_but_conflicts (clear_conflicts v).
Proof. intros s. apply clear_conflicts_same. Qed.

(** ** What each function leaves in the relations *)

Section membership.
Implicit Types (s : state) (u v w x o : Z) (us os : list Z).

Lemma add_edge_conflict v u s w x :
  x ∈ sget (conflict (add_edge v u s)) w ↔
  x ∈ sget (conflict s) w ∨ (w = v ∧ x = u).
Proof. simpl. rewrite elem_of_sget_sadd. naive_solver. Qed.

Lemma add_edge_in_conflict v u s w x :
  x ∈ sget (in_conflict (add_edge v u s)) w ↔
  x ∈ sget (in_conflict s) w ∨ (w = u ∧ x = v).
Proof. simpl. rewrite elem_of_sget_sadd. naive_solver. Qed.

Lemma add_edges_conflict v us s w x :
  x ∈ sget (conflict (add_edges v us s)) w ↔
  x ∈ sget (conflict s) w ∨ (w = v ∧ x ≠ v ∧ x ∈ us).
Proof.
  unfold add_edges. revert s.
  induction us as [|u us IH]; intros s; simpl.
  { split; [auto | intros [?|(_ & _ & []%elem_of_nil)]; done]. }
  rewrite IH, elem_of_cons. case_ztest.
  - naive_solver.
  - rewrite add_edge_conflict. naive_solver.
Qed.

Lemma add_edges_in_conflict v us s w x :
  x ∈ sget (in_conflict (add_edges v us s)) w ↔
  x ∈ sget (in_conflict s) w ∨ (x = v ∧ w ≠ v ∧ w ∈ us).
Proof.
  unfold add_edges. revert s.
  induction us as [|u us IH]; intros s; simpl.
  { split; [auto | intros [?|(_ & _ & []%elem_of_nil)]; done]. }
  rewrite IH, elem_of_cons. case_ztest.
  - naive_solver.
  - rewrite add_edge_in_conflict. naive_solver.
Qed.

Lemma lift_loop_conflict v os s w x :
  x ∈ sget (conflict (lift_loop v os s)) w ↔
  x ∈ sget (conflict s) w
  ∨ (w = v ∧ x ≠ v ∧ ∃ o, o ∈ os ∧ x ∈ sget (conflict s) o).
Proof.
  unfold lift_loop. revert s.
  induction os as [|o os IH]; intros s; simpl.
  { split; [auto | intros [?|(_ & _ & ? & []%elem_of_nil & _)]; done]. }
  rewrite IH. setoid_rewrite add_edges_conflict.
  setoid_rewrite elem_of_elements. setoid_rewrite elem_of_cons.
  naive_solver.
Qed.

Lemma lift_loop_in_conflict v os s w x :
  x ∈ sget (in_conflict (lift_loop v os s)) w ↔
  x ∈ sget (in_conflict s) w
  ∨ (x = v ∧ w ≠ v ∧ ∃ o, o ∈ os ∧ w ∈ sget (conflict s) o).
Proof.
  unfold lift_loop. revert s.
  induction os as [|o os IH]; intros s; simpl.
  { split; [auto | intros [?|(_ & _ & ? & []%elem_of_nil & _)]; done]. }
  rewrite IH. setoid_rewrite add_edges_in_conflict.
  setoid_rewrite add_edges_conflict.
  setoid_rewrite elem_of_elements. setoid_rewrite elem_of_cons.
  naive_solver.
Qed.

Lemma augment_conflict_conflict v s w x :
  x ∈ sget (conflict (augment_conflict v s)) w ↔
  x ∈ sget (conflict s) w ∨ (w = v ∧ lifted s v x).
Proof.
  unfold augment_conflict, lifted. cbv zeta. simpl.
  fold (lift_loop v (elements (sget (in_conflict s) v)) s).
  rewrite lift_loop_conflict. setoid_rewrite elem_of_elements. naive_solver.
Qed.

Lemma augment_conflict_in_conflict v s w x :
  x ∈ sget (in_conflict (augment_conflict v s)) w ↔
  w ≠ v ∧ (x ∈ sget (in_conflict s) w ∨ (x = v ∧ lifted s v w)).
Proof.
  unfold augment_conflict, lifted. cbv zeta. simpl.
  fold (lift_loop v (elements (sget (in_conflict s) v)) s).
  rewrite elem_of_sget_sclear, lift_loop_in_conflict.
  setoid_rewrite elem_of_elements. naive_solver.
Qed.

Lemma clear_conflicts_conflict v s w x :
  x ∈ sget (conflict (clear_conflicts v s)) w ↔
  w ≠ v ∧ x ∈ sget (conflict s) w.
Proof. simpl. rewrite elem_of_sget_sclear. naive_solver. Qed.

Lemma clear_conflicts_in_conflict v s w x :
  x ∈ sget (in_conflict (clear_conflicts v s)) w ↔
  w ≠ v ∧ x ∈ sget (in_conflict s) w.
Proof. simpl. rewrite elem_of_sget_sclear. naive_solver. Qed.
End membership.

Lemma in_conflict_set_true v s :
  in_conflict_set v s = true ↔ ∃ x, x ∈ sget (in_conflict s) v.
Proof.
  unfold in_conflict_set. rewrite negb_true_iff, bool_decide_eq_false.
  split.
  - intros H. apply set_choose_L in H. done.
  - intros [x Hx] H. rewrite H in Hx. by apply elem_of_empty in Hx.
Qed.

Lemma in_conflict_set_false v s :
  in_conflict_set v s = false ↔ sget (in_conflict s) v = ∅.
Proof. unfold in_conflict_set. by rewrite negb_false_iff, bool_decide_eq_true. Qed.

(** ** Irreflexivity is an invariant *)

Lemma add_edges_irreflexive v us s :
  irreflexive s → irreflexive (add_edges v us s).
Proof.
  intros H w. rewrite add_edges_conflict, add_edges_in_conflict.
  destruct (H w). naive_solver.
Qed.

Lemma augment_conflict_irreflexive v s :
  irreflexive s → irreflexive (augment_conflict v s).
Proof.
  intros H w. rewrite augment_conflict_conflict, augment_conflict_in_conflict.
  destruct (H w). unfold lifted. naive_solver.
Qed.

Lemma clear_conflicts_irreflexive v s :
  irreflexive s → irreflexive (clear_conflicts v s).
Proof.
  intros H w. rewrite clear_conflicts_conflict, clear_conflicts_in_conflict.
  destruct (H w). naive_solver.
Qed.

(** ** Symmetry *)

Lemma add_edge_symmetric v u s : symmetric s → symmetric (add_edge v u s).
Proof.
  intros H x w. rewrite add_edge_conflict, add_edge_in_conflict, (H x w).
  naive_solver.
Qed.

Lemma add_edges_symmetric v us s : symmetric s → symmetric (add_edges v us s).
Proof.
  intros H x w. rewrite add_edges_conflict, add_edges_in_conflict, (H x w).
  naive_solver.
Qed.

Lemma backprop_conflict_irreflexive F v c s :
  irreflexive s → irreflexive (backprop_conflict F v c s).
Proof. intros H. by apply augment_conflict_irreflexive, add_edges_irreflexive. Qed.

Lemma augment_conflict_in_conflict_empty v s :
  sget (in_conflict (augment_conflict v s)) v = ∅.
Proof.
  apply set_eq. intros x. rewrite augment_conflict_in_conflict, elem_of_empty.
  naive_solver.
Qed.

Lemma backprop_conflict_in_conflict_empty F v c s :
  sget (in_conflict (backprop_conflict F v c s)) v = ∅.
Proof. apply augment_conflict_in_conflict_empty. Qed.

(** ** Theorems of the component *)

(** C33: spec I6 is an invariant of the tracker: if no variable is in its
    own [conflict] or [in_conflict] set, then none is after
    [backprop_conflict], after [augment_conflict], or after the two
    [clear()] calls. *)
Theorem tracker_preserves_irreflexive F s :
  irreflexive s →
  (∀ v c, irreflexive (backprop_conflict F v c s))
  ∧ (∀ v, irreflexive (augment_conflict v s))
  ∧ (∀ v, irreflexive (clear_conflicts v s)).
Proof.
  intros H. split_and!; intros.
  - by apply backprop_conflict_irreflexive.
  - by apply augment_conflict_irreflexive.
  - by apply clear_conflicts_irreflexive.
Qed.

Lemma tracker_preserves_irreflexive_witness :
  irreflexive (add_edge 0 1 empty_state)
  ∧ irreflexive (augment_conflict 1 (add_edge 0 1 empty_state)).
Proof.
  assert (irreflexive (add_edge 0 1 empty_state)) as H.
  { intros v. rewrite add_edge_conflict, add_edge_in_conflict.
    simpl. rewrite !sget_empty, !elem_of_empty. lia. }
  split; [done |].
  exact (proj1 (proj2 (tracker_preserves_irreflexive (mkFormula 0 0 [] ∅) _ H)) 1).
Defined.

(** C32: what [augment_conflict(v)] computes: [conflict[v]] gains every
    member, other than [v], of [conflict[o]] for every [o] of
    [in_conflict[v]]; [in_conflict] of each variable so gained gains [v];
    [in_conflict[v]] ends empty; nothing else changes. *)
Theorem augment_conflict_spec v s w x :
  (x ∈ sget (conflict (augment_conflict v s)) w ↔
     x ∈ sget (conflict s) w ∨ (w = v ∧ lifted s v x))
  ∧ (x ∈ sget (in_conflict (augment_conflict v s)) w ↔
       w ≠ v ∧ (x ∈ sget (in_conflict s) w ∨ (x = v ∧ lifted s v w)))
  ∧ same_but_conflicts (augment_conflict v s) s.
Proof.
  split_and!; [apply augment_conflict_conflict | apply augment_conflict_in_conflict
              | apply augment_conflict_same].
Qed.

(** C31: what [backprop_conflict(v, c)] records: every variable of clause
    [c] other than [v] is in [conflict[v]] afterwards, and [in_conflict[v]]
    is empty afterwards, so that [in_conflict_set(v)] answers false. *)
Theorem backprop_conflict_spec F v c s :
  (∀ l, l ∈ clause F c → var_of l ≠ v →
        var_of l ∈ sget (conflict (backprop_conflict F v c s)) v)
  ∧ in_conflict_set v (backprop_conflict F v c s) = false.
Proof.
  split.
  - intros l Hl Hne. unfold backprop_conflict.
    rewrite augment_conflict_conflict, add_edges_conflict. left. right.
    split_and!; [done.. |]. apply list_elem_of_fmap. eauto.
  - apply in_conflict_set_false, backprop_conflict_in_conflict_empty.
Qed.

(** C34: spec I5 is not an invariant: the [clear()] calls with which [dfs]
    starts a decision empty [conflict[v]] and leave [v] in the
    [in_conflict] sets of the variables it named. *)
Theorem clear_conflicts_breaks_symmetry :
  symmetric (add_edge 0 1 empty_state)
  ∧ ¬ symmetric (clear_conflicts 0 (add_edge 0 1 empty_state)).
Proof.
  split.
  - apply add_edge_symmetric. intros u v. simpl.
    by rewrite !sget_empty, !elem_of_empty.
  - intros H. specialize (H 1 0).
    rewrite clear_conflicts_conflict, clear_conflicts_in_conflict in H.
    rewrite add_edge_in_conflict in H. apply proj2 in H.
    destruct H as [? _]; [split; [lia | by right] | lia].
Qed.
