(* ===== verification/Assign.v ===== *)
(** * assign and unassign

    [modify_signed_appearances], [mark_signed_appearances],
    [unmark_signed_appearances], [enqueue_unit_propagation], [assign],
    [unassign_upto] and [unassign] of [src/sat.cpp], statement by
    statement.  The [for] loop of [assign] is [assign_loop], a recursion
    over the occurrence list that carries the loop index [i] for the call
    [unassign_upto(v, sign, i+1)] of the conflict branch.

    Theorems:
    - refinement: projected on the core, [assign], [unassign_upto] and
      [unassign] are [cassign], [cunassign_upto] and [cunassign] of [Core];
    - hence the invariant [inv] is preserved by [assign] on both of its
      exits and by [unassign] with the assigned sign, a failed [assign]
      restores the core, and [unassign] undoes [assign] on the core;
    - the satisfiers after [unassign]: a clause that the variable
      satisfied is left without satisfier although another of its
      literals may be true (spec I2 holds from left to right only);
    - the tallies: [modify_signed_appearances] writes cell [lit] of
      [npos_app] for a positive literal and cell [lit] of [nneg_app] for a
      negative one, so it stays inside the arrays only for clauses of
      positive literals below [V]; [mark] and [unmark] cancel; the tally
      written by the contradicting branch is restored by [unassign] for
      [sign = -1] and is two too high for [sign = 1];
    - the queue: [assign] only appends; what it appends are unset literals
      of the formula. *)

From S2P Require Import Prelude Formula Core Restore State Conflict.

(** ** Operations *)

(** One iteration of the loop of [modify_signed_appearances]: the tally is
    indexed by the literal [v] itself ([varid] is computed and not used). *)
Definition modify_step (inc : Z) (s : state) (v : Z) : state :=
  if v <? 0
  then set_nneg_app ((nneg_app s).[v <- (nneg_app s).[v] + inc]) s
  else set_npos_app ((npos_app s).[v <- (npos_app s).[v] + inc]) s.

Definition modify_signed_appearances (F : formula) (c inc : Z) (s : state)
  : state :=
  foldl (modify_step inc) s (clause F c).

Definition mark_signed_appearances (F : formula) (c : Z) (s : state) : state :=
  modify_signed_appearances F c 1 s.

Definition unmark_signed_appearances (F : formula) (c : Z) (s : state) : state :=
  modify_signed_appearances F c (-1) s.

(** The loop of [enqueue_unit_propagation]: the first literal of the clause
    whose variable is unset is queued, and the function returns. *)
Fixpoint enqueue_scan (c : Z) (lits : list Z) (s : state) : state :=
  match lits with
  | [] => s
  | v :: lits =>
      let varid := var_of v in
      if (assn s).[varid] =? 0 then
        set_propping_clause ((propping_clause s).[varid <- c])
          (set_npropped (npropped s + 1)
             (set_propagation_queue
                ((propagation_queue s).[npropped s <- v]) s))
      else enqueue_scan c lits s
  end.

Definition enqueue_unit_propagation (F : formula) (c : Z) (s : state) : state :=
  enqueue_scan c (clause F c) s.

(** [if(sign < 0) nneg_app[v]--; else npos_app[v]++;] of [assign]. *)
Definition contradict_tally (v sign : Z) (s : state) : state :=
  if sign <? 0
  then set_nneg_app ((nneg_app s).[v <- (nneg_app s).[v] - 1]) s
  else set_npos_app ((npos_app s).[v <- (npos_app s).[v] + 1]) s.

(** [if(sign < 0) nneg_app[v]++; else npos_app[v]++;] of [unassign_upto]. *)
Definition restore_tally (v sign : Z) (s : state) : state :=
  if sign <? 0
  then set_nneg_app ((nneg_app s).[v <- (nneg_app s).[v] + 1]) s
  else set_npos_app ((npos_app s).[v <- (npos_app s).[v] + 1]) s.

(** One iteration of the loop of [unassign_upto]. *)
Definition unassign_step (F : formula) (v sign : Z) (s : state) (app : Z)
  : state :=
  let c := var_of app in
  let s := set_rem ((rem s).[c <- (rem s).[c] + 1]) s in
  if app * sign >? 0 then
    if (satisfier s).[c] =? v + 1 then
      unmark_signed_appearances F c
        (set_nunsat (nunsat s + 1)
           (set_satisfier ((satisfier s).[c <- 0]) s))
    else s
  else restore_tally v sign s.

Definition unassign_upto (F : formula) (v sign upto : Z) (s : state) : state :=
  if (assn s).[v] =? 0 then s
  else
    foldl (unassign_step F v sign) (set_assn ((assn s).[v <- 0]) s)
      (take (Z.to_nat upto) (apps F v)).

Definition unassign (F : formula) (v sign : Z) (s : state) : state :=
  unassign_upto F v sign (napps F v) s.

(** The loop of [assign] from index [i] on, over the occurrences [l] still
    to visit. *)
Fixpoint assign_loop (F : formula) (v sign i : Z) (l : list Z) (s : state)
  : bool * state :=
  match l with
  | [] => (true, s)
  | app :: l =>
      let c := var_of app in
      let s := set_rem ((rem s).[c <- (rem s).[c] - 1]) s in
      if app * sign >? 0 then
        let s :=
          if (satisfier s).[c] =? 0 then
            mark_signed_appearances F c
              (set_nunsat (nunsat s - 1)
                 (set_satisfier ((satisfier s).[c <- v + 1]) s))
          else s in
        assign_loop F v sign (i + 1) l s
      else
        let s := contradict_tally v sign s in
        if (satisfier s).[c] =? 0 then
          if (rem s).[c] =? 0 then
            (false, unassign_upto F v sign (i + 1) (backprop_conflict F v c s))
          else
            let s :=
              if (rem s).[c] =? 1 then enqueue_unit_propagation F c s else s in
            assign_loop F v sign (i + 1) l s
        else assign_loop F v sign (i + 1) l s
  end.

Definition assign (F : formula) (v sign : Z) (s : state) : bool * state :=
  if (assn s).[v] =? 0
  then assign_loop F v sign 0 (apps F v) (set_assn ((assn s).[v <- sign]) s)
  else (true, s).

(** ** The tallies and the queue, as specifications *)

(** The cells of [npos_app] and [nneg_app] that [modify_signed_appearances]
    touches for clause [c] lie inside the arrays. *)
Definition modify_in_bounds (F : formula) (c : Z) : bool :=
  forallb (λ v, (0 <=? v) && (v <? V F)) (clause F c).

(** The literal [l] has polarity [neg] and is the index [i]. *)
Definition at_index (neg : bool) (i l : Z) : bool :=
  bool_decide ((l <? 0) = neg) && (l =? i).

(** Spec I4: the number of unsatisfied clauses that hold the literal of
    variable [v] with polarity [neg]. *)
Definition tally_ref (F : formula) (s : state) (neg : bool) (v : Z) : Z :=
  countb (λ c, ((satisfier s).[c] =? 0)
               && bool_decide ((if neg then - (v + 1) else v + 1) ∈ clause F c))
    (range 0 (C F)).

(** Spec I4, decided: both tallies of every variable are accurate. *)
Definition tally_accurate (F : formula) (s : state) : bool :=
  forallb (λ v, ((npos_app s).[v] =? tally_ref F s false v)
                && ((nneg_app s).[v] =? tally_ref F s true v))
    (range 0 (V F)).

(** The queue of [t] extends the queue of [s]. *)
Definition queue_extends (s t : state) : Prop :=
  npropped s ≤ npropped t
  ∧ ∀ i, i < npropped s → (propagation_queue t).[i] = (propagation_queue s).[i].

(** [t] is [s] with entries appended to the queue: no cell of the queue
    array is written but those from [npropped s] up to [npropped t]. *)
Definition queue_appends (s t : state) : Prop :=
  npropped s ≤ npropped t
  ∧ ∀ i, ¬ (npropped s ≤ i < npropped t) →
         (propagation_queue t).[i] = (propagation_queue s).[i].

(** A result of the program and a result of the machine agree. *)
Definition agree_core (r : bool * state) (r' : bool * cstate) : Prop :=
  r.1 = r'.1 ∧ core r.2 = r'.2.

(** ** Frame: which part each operation writes *)

#[global] Instance modify_step_touches inc v :
  Touches same_but_tallies (λ s, modify_step inc s v).
Proof. intros s. unfold modify_step. by case_ztest. Qed.

#[global] Instance modify_signed_appearances_touches F c inc :
  Touches same_but_tallies (modify_signed_appearances F c inc).
Proof. apply foldl_touches; apply _. Qed.

#[global] Instance mark_signed_appearances_touches F c :
  Touches same_but_tallies (mark_signed_appearances F c).
Proof. apply modify_signed_appearances_touches. Qed.

#[global] Instance unmark_signed_appearances_touches F c :
  Touches same_but_tallies (unmark_signed_appearances F c).
Proof. apply modify_signed_appearances_touches. Qed.

#[global] Instance contradict_tally_touches v sign :
  Touches same_but_tallies (contradict_tally v sign).
Proof. intros s. unfold contradict_tally. by case_ztest. Qed.

#[global] Instance restore_tally_touches v sign :
  Touches same_but_tallies (restore_tally v sign).
Proof. intros s. unfold restore_tally. by case_ztest. Qed.

#[global] Instance enqueue_unit_propagation_touches F c :
  Touches same_but_queue (enqueue_unit_propagation F c).
Proof.
  intros s. unfold enqueue_unit_propagation.
  induction (clause F c) as [|v l IH]; simpl; [done |]. by case_ztest.
Qed.

#[global] Instance unassign_step_touches F v sign app :
  Touches same_but_core_tallies (λ s, unassign_step F v sign s app).
Proof.
  intros s. unfold unassign_step. cbv zeta.
  repeat match goal with |- context [if ?b then _ else _] => destruct b end;
    (etrans; [apply same_but_tallies_core_tallies, touches |]) || idtac; done.
Qed.

#[global] Instance unassign_upto_touches F v sign upto :
  Touches same_but_core_tallies (unassign_upto F v sign upto).
Proof.
  intros s. unfold unassign_upto. destruct (_ =? 0); [done |].
  etrans; [apply (foldl_touches _ _ _ (unassign_step_touches F v sign)) | done].
Qed.

#[global] Instance unassign_touches F v sign :
  Touches same_but_core_tallies (unassign F v sign).
Proof. apply unassign_upto_touches. Qed.

(** The frame facts as rewrite rules. *)
Lemma core_mark F c s : core (mark_signed_appearances F c s) = core s.
Proof. apply core_frame; apply _. Qed.
Lemma core_unmark F c s : core (unmark_signed_appearances F c s) = core s.
Proof. apply core_frame; apply _. Qed.
Lemma core_contradict_tally v sign s : core (contradict_tally v sign s) = core s.
Proof. apply core_frame; apply _. Qed.
Lemma core_restore_tally v sign s : core (restore_tally v sign s) = core s.
Proof. apply core_frame; apply _. Qed.
Lemma core_enqueue F c s : core (enqueue_unit_propagation F c s) = core s.
Proof. apply core_frame; apply _. Qed.
Lemma core_backprop F v c s : core (backprop_conflict F v c s) = core s.
Proof. apply core_frame; apply _. Qed.

Lemma satisfier_contradict_tally v sign s :
  satisfier (contradict_tally v sign s) = satisfier s.
Proof. unfold contradict_tally. by case_ztest. Qed.
Lemma rem_contradict_tally v sign s : rem (contradict_tally v sign s) = rem s.
Proof. unfold contradict_tally. by case_ztest. Qed.

Create Rewrite HintDb core.
#[export] Hint Rewrite core_mark core_unmark core_contradict_tally
  core_restore_tally core_enqueue core_backprop : core.

(** Fields of a state whose core is known. *)
Lemma core_fields s t :
  core s = core t →
  assn s = assn t ∧ satisfier s = satisfier t ∧ rem s = rem t ∧ nunsat s = nunsat t.
Proof. by intros [= ? ? ? ?]. Qed.

(** ** Refinement: the program's functions are the counter machine *)

Section refinement.
Context (F : formula) (v sign : Z).
Implicit Types (s : state) (app i : Z) (l : list Z).

Lemma unassign_step_core s app :
  core (unassign_step F v sign s app) = cuntouch v sign (core s) app.
Proof.
  unfold unassign_step, cuntouch, agrees. cbv zeta. simpl.
  destruct (app * sign >? 0); simpl.
  - destruct (_ =? v + 1); simpl; [| done]. by rewrite core_unmark.
  - by rewrite core_restore_tally.
Qed.

Lemma foldl_unassign_step_core l s :
  core (foldl (unassign_step F v sign) s l)
  = foldl (cuntouch v sign) (core s) l.
Proof.
  revert s. induction l as [|app l IH]; intros s; simpl; [done |].
  by rewrite IH, unassign_step_core.
Qed.

Lemma unassign_upto_core upto s :
  core (unassign_upto F v sign upto s) = cunassign_upto F v sign upto (core s).
Proof.
  unfold unassign_upto, cunassign_upto. simpl.
  destruct (_ =? 0); [done |]. by rewrite foldl_unassign_step_core.
Qed.

Lemma unassign_core s :
  core (unassign F v sign s) = cunassign F v sign (core s).
Proof. apply unassign_upto_core. Qed.

Lemma assign_loop_core l i s :
  agree_core (assign_loop F v sign i l s) (cassign_loop F v sign i l (core s)).
Proof.
  revert i s. induction l as [|app l IH]; intros i s; [done |].
  cbn [assign_loop cassign_loop]. cbv zeta.
  unfold cconflict, ctouch, agrees.
  rewrite satisfier_contradict_tally, rem_contradict_tally. simpl.
  rewrite !get_upd_eq.
  destruct (app * sign >? 0) eqn:Ea,
    ((satisfier s).[var_of app] =? 0) eqn:E; simpl;
    rewrite ?get_upd_eq, ?E; simpl.
  - match goal with |- agree_core (assign_loop _ _ _ _ _ ?t) _ =>
      specialize (IH (i + 1) t); by rewrite core_mark in IH end.
  - apply IH.
  - destruct ((rem s).[var_of app] - 1 =? 0) eqn:E0; simpl.
    { split; [done |]. simpl.
      by rewrite unassign_upto_core, core_backprop, core_contradict_tally. }
    match goal with |- agree_core (assign_loop _ _ _ _ _ ?t) _ =>
      specialize (IH (i + 1) t) end.
    destruct (_ =? 1); by rewrite ?core_enqueue, core_contradict_tally in IH.
  - match goal with |- agree_core (assign_loop _ _ _ _ _ ?t) _ =>
      specialize (IH (i + 1) t) end.
    by rewrite core_contradict_tally in IH.
Qed.

(** [assign], projected on the core, is [cassign]. *)
Lemma assign_core s :
  agree_core (assign F v sign s) (cassign F v sign (core s)).
Proof.
  unfold assign, cassign. simpl. destruct (_ =? 0); [| done].
  apply assign_loop_core.
Qed.
End refinement.

(** ** The tallies *)

Section tallies.
Context (F : formula).
Implicit Types (s : state) (c inc i v : Z) (l : list Z).

Lemma modify_fold inc l s i :
  (npos_app (foldl (modify_step inc) s l)).[i]
  = (npos_app s).[i] + inc * countb (at_index false i) l
  ∧ (nneg_app (foldl (modify_step inc) s l)).[i]
    = (nneg_app s).[i] + inc * countb (at_index true i) l.
Proof.
  revert s. induction l as [|x l IH]; intros s; simpl; [rewrite !countb_nil; lia |].
  destruct (IH (modify_step inc s x)) as [-> ->]. rewrite !countb_cons.
  unfold modify_step, at_index.
  destruct (Z.ltb_spec x 0); simpl; rewrite get_upd;
    case_decide; destruct (Z.eqb_spec x i); simpl; subst; (lia || congruence).
Qed.

(** The closed form of [modify_signed_appearances]: the cell of index [i]
    moves by [inc] for every literal of the clause that is [i] itself. *)
Lemma modify_signed_appearances_tallies c inc s i :
  (npos_app (modify_signed_appearances F c inc s)).[i]
  = (npos_app s).[i] + inc * countb (at_index false i) (clause F c)
  ∧ (nneg_app (modify_signed_appearances F c inc s)).[i]
    = (nneg_app s).[i] + inc * countb (at_index true i) (clause F c).
Proof. apply modify_fold. Qed.

Lemma unmark_mark_tallies c s :
  npos_app (unmark_signed_appearances F c (mark_signed_appearances F c s))
    ≡ₐ npos_app s
  ∧ nneg_app (unmark_signed_appearances F c (mark_signed_appearances F c s))
    ≡ₐ nneg_app s.
Proof.
  unfold unmark_signed_appearances, mark_signed_appearances.
  split; intros i;
    destruct (modify_signed_appearances_tallies c (-1)
                (modify_signed_appearances F c 1 s) i) as [H1 H2];
    destruct (modify_signed_appearances_tallies c 1 s i) as [H3 H4]; lia.
Qed.

Lemma modify_in_bounds_false c :
  modify_in_bounds F c = false →
  ∃ x, x ∈ clause F c ∧ ¬ (0 ≤ x < V F).
Proof.
  unfold modify_in_bounds. induction (clause F c) as [|x l IH]; simpl; [done |].
  destruct (Z.leb_spec 0 x), (Z.ltb_spec x (V F)); simpl;
    try (intros _; exists x; split; [left | lia]).
  intros (y & Hy & ?)%IH. exists y. split; [by right | done].
Qed.
End tallies.

(** ** What [assign] does to the rest of the state *)

#[global] Instance queue_extends_preorder : PreOrder queue_extends.
Proof.
  unfold queue_extends. split; [by intros s |].
  intros s t u [H1 H2] [H3 H4]. split; [lia |].
  intros i Hi. rewrite H4, H2; [done | lia..].
Qed.

Lemma frame_queue_extends f s : Frame queue f → queue_extends s (f s).
Proof.
  intros Hf. pose proof (Hf s) as [= H1 H2 _]. unfold queue_extends.
  rewrite H1, H2. split; [lia | done].
Qed.

Lemma enqueue_unit_propagation_extends F c s :
  queue_extends s (enqueue_unit_propagation F c s)
  ∧ npropped (enqueue_unit_propagation F c s) ≤ npropped s + 1.
Proof.
  unfold enqueue_unit_propagation, queue_extends.
  induction (clause F c) as [|l p IH]; simpl; [split; [split |]; (done || lia) |].
  case_ztest; [simpl | done]. split; [split |]; [lia | | lia].
  intros i Hi. by rewrite get_upd_ne by lia.
Qed.

#[global] Instance queue_appends_preorder : PreOrder queue_appends.
Proof.
  unfold queue_appends. split; [by intros s |].
  intros s t u [H1 H2] [H3 H4]. split; [lia |].
  intros i Hi. rewrite H4, H2; [done | lia..].
Qed.

Lemma frame_queue_appends f s : Frame queue f → queue_appends s (f s).
Proof.
  intros Hf. pose proof (Hf s) as [= H1 H2 _]. unfold queue_appends.
  rewrite H1, H2. split; [lia | done].
Qed.

Lemma enqueue_unit_propagation_appends F c s :
  queue_appends s (enqueue_unit_propagation F c s).
Proof.
  unfold enqueue_unit_propagation, queue_appends.
  induction (clause F c) as [|l p IH]; simpl; [split; (done || lia) |].
  case_ztest; [simpl | done]. split; [lia |].
  intros i Hi. by rewrite get_upd_ne by lia.
Qed.

Section assign_frame.
Context (F : formula) (v sign : Z).
Implicit Types (s : state) (i : Z) (l : list Z).

(** A relation that every statement of the loop of [assign] establishes
    between the state it leaves and the state it finds, and that is
    transitive, holds across the loop. *)
Lemma assign_loop_touches (R : relation state) `{!PreOrder R} :
  (∀ x, Touches R (set_rem x)) → (∀ x, Touches R (set_satisfier x)) →
  (∀ x, Touches R (set_nunsat x)) →
  (∀ c, Touches R (mark_signed_appearances F c)) →
  Touches R (contradict_tally v sign) →
  (∀ c, Touches R (enqueue_unit_propagation F c)) →
  (∀ c j s, R (unassign_upto F v sign j (backprop_conflict F v c s)) s) →
  ∀ l i s, R (assign_loop F v sign i l s).2 s.
Proof.
  intros Hrem Hsat Hnun Hmark Hcon Henq Hfail.
  induction l as [|app l IH]; intros i s; [done |].
  cbn [assign_loop]. cbv zeta.
  repeat match goal with
         | |- context [if ?b then _ else _] => destruct b
         | |- R (assign_loop _ _ _ _ _ ?t).2 _ => etrans; [apply IH |]
         | |- R (_, unassign_upto _ _ _ _ (backprop_conflict _ _ _ ?t)).2 _ =>
             etrans; [apply Hfail |]
         | |- R (?f ?t) _ => etrans; [apply (touches (R:=R) (f:=f)) |]
         end; reflexivity.
Qed.

(** The same for a run of the loop that ends with [true]: the statements
    of the failure exit are not run. *)
Lemma assign_loop_true_touches (R : relation state) `{!PreOrder R} :
  (∀ x, Touches R (set_rem x)) → (∀ x, Touches R (set_satisfier x)) →
  (∀ x, Touches R (set_nunsat x)) →
  (∀ c, Touches R (mark_signed_appearances F c)) →
  Touches R (contradict_tally v sign) →
  (∀ c, Touches R (enqueue_unit_propagation F c)) →
  ∀ l i s s', assign_loop F v sign i l s = (true, s') → R s' s.
Proof.
  intros Hrem Hsat Hnun Hmark Hcon Henq.
  induction l as [|app l IH]; intros i s s'; [by intros [= <-] |].
  cbn [assign_loop]. cbv zeta.
  repeat match goal with
         | |- context [if ?b then _ else _] => destruct b
         end; try done; intros E%IH; (etrans; [apply E |]);
  repeat match goal with
         | |- R (?f ?t) _ => etrans; [apply (touches (R:=R) (f:=f)) |]
         end; reflexivity.
Qed.

(** The failure exit: the state is what [unassign_upto] leaves after
    [backprop_conflict]. *)
Lemma assign_loop_false l i s s' :
  assign_loop F v sign i l s = (false, s') →
  ∃ j c t, s' = unassign_upto F v sign j (backprop_conflict F v c t).
Proof.
  revert i s. induction l as [|app l IH]; intros i s; [done |].
  cbn [assign_loop]. cbv zeta.
  repeat match goal with
         | |- context [if ?b then _ else _] => destruct b
         end; try apply IH.
  intros [= <-]. eauto.
Qed.

(** [assign] never writes [npropped_at]. *)
#[global] Instance assign_npropped_at_frame :
  Frame npropped_at (λ s, (assign F v sign s).2).
Proof.
  intros s. unfold assign. destruct (_ =? 0); [| done].
  etrans; [| apply (frame npropped_at (set_assn ((assn s).[v <- sign])) s)].
  apply (assign_loop_touches (same_on npropped_at));
    try (intros; apply frame_touches; apply _).
  intros c j t. unfold same_on. by rewrite !(frame npropped_at _).
Qed.

(** [assign] only appends to the queue, whether it succeeds or not. *)
Lemma assign_queue_extends s : queue_extends s (assign F v sign s).2.
Proof.
  unfold assign. destruct (_ =? 0); [| done].
  etrans; [apply (frame_queue_extends (set_assn ((assn s).[v <- sign]))); apply _ |].
  apply (assign_loop_touches (flip queue_extends));
    try (intros; intros t; apply frame_queue_extends; apply _).
  - intros c t. apply enqueue_unit_propagation_extends.
  - intros c j t. simpl.
    etrans; [| apply frame_queue_extends; apply _].
    apply (frame_queue_extends (backprop_conflict F v c)). apply _.
Qed.

(** [assign] writes the queue array nowhere else, whether it succeeds or
    not. *)
Lemma assign_queue_appends s : queue_appends s (assign F v sign s).2.
Proof.
  unfold assign. destruct (_ =? 0); [| done].
  etrans; [apply (frame_queue_appends (set_assn ((assn s).[v <- sign]))); apply _ |].
  apply (assign_loop_touches (flip queue_appends));
    try (intros; intros t; apply frame_queue_appends; apply _).
  - intros c t. apply enqueue_unit_propagation_appends.
  - intros c j t. simpl.
    etrans; [| apply frame_queue_appends; apply _].
    apply (frame_queue_appends (backprop_conflict F v c)). apply _.
Qed.

(** A successful [assign] leaves the conflict sets alone. *)
Lemma assign_true_conflicts s s' :
  assign F v sign s = (true, s') → conflicts s' = conflicts s.
Proof.
  unfold assign. destruct (_ =? 0); [| by intros [= <-]].
  intros E. apply (assign_loop_true_touches (same_on conflicts)) in E;
    try (intros; apply frame_touches; apply _).
  by rewrite E.
Qed.

(** Every iteration of the loop queues one literal at most. *)
Lemma assign_loop_npropped l i s :
  npropped (assign_loop F v sign i l s).2 ≤ npropped s + Z.of_nat (length l).
Proof.
  revert i s. induction l as [|app l IH]; intros i s; [simpl; lia |].
  cbn [assign_loop]. cbv zeta.
  assert (∀ c t, npropped (enqueue_unit_propagation F c t) ≤ npropped t + 1)
    as Henq by (intros; apply enqueue_unit_propagation_extends).
  assert (∀ j c t, npropped (unassign_upto F v sign j (backprop_conflict F v c t))
                   = npropped t) as Hfail.
  { intros. by rewrite !(frame npropped _). }
  repeat match goal with |- context [if ?b then _ else _] => destruct b end;
    cbn [snd length];
    try (etrans; [apply IH |]); rewrite ?Hfail;
    try (etrans; [apply Zplus_le_compat_r, Henq |]);
    rewrite ?(frame npropped _); simpl; lia.
Qed.

Lemma assign_npropped s :
  npropped (assign F v sign s).2 ≤ npropped s + napps F v.
Proof.
  unfold assign, napps. destruct (_ =? 0); [| simpl; lia].
  etrans; [apply assign_loop_npropped | done].
Qed.

(** A failed [assign] leaves [in_conflict[v]] empty. *)
Lemma assign_false_in_conflict s s' :
  assign F v sign s = (false, s') → in_conflict_set v s' = false.
Proof.
  unfold assign. destruct (_ =? 0); [| done].
  intros (j & c & t & ->)%assign_loop_false. apply in_conflict_set_false.
  pose proof (frame conflicts (unassign_upto F v sign j)
                (backprop_conflict F v c t)) as [= _ ->].
  apply backprop_conflict_in_conflict_empty.
Qed.
End assign_frame.

(** ** The invariant and the round trips, for the program *)

(** C20: projected on [assn], [satisfier], [rem] and [nunsat], [assign]
    returns what the counter machine [cassign] returns and leaves the state
    it leaves: the tallies, the queue and the conflict sets never feed back
    into the four fields. *)
Theorem assign_refines_cassign F v sign s :
  agree_core (assign F v sign s) (cassign F v sign (core s)).
Proof. apply assign_core. Qed.

(** C21: projected on the same four fields, [unassign_upto] is
    [cunassign_upto] for every bound [upto]. *)
Theorem unassign_upto_refines F v sign upto s :
  core (unassign_upto F v sign upto s) = cunassign_upto F v sign upto (core s).
Proof. apply unassign_upto_core. Qed.

(** [assign] on a variable that already has a value, whatever the
    value, returns true and changes nothing (the early return of the
    function). *)
Theorem assign_already_set F v sign s :
  (assn s).[v] ≠ 0 → assign F v sign s = (true, s).
Proof. intros H. unfold assign. by case_ztest. Qed.

Lemma assign_already_set_witness :
  let s := (assign example_formula 0 (-1) (init_state example_formula)).2 in
  (assn s).[0] ≠ 0 ∧ assign example_formula 0 1 s = (true, s).
Proof.
  intros s. assert ((assn s).[0] ≠ 0) as H by (vm_compute; lia).
  split; [done |]. by apply (assign_already_set example_formula 0 1 s).
Defined.

(** [unassign_upto] on an unset variable changes nothing (the early
    return of the function). *)
Theorem unassign_upto_unset F v sign upto s :
  (assn s).[v] = 0 → unassign_upto F v sign upto s = s.
Proof. intros H. unfold unassign_upto. by rewrite H. Qed.

Lemma unassign_upto_unset_witness :
  (assn (init_state example_formula)).[1] = 0
  ∧ unassign_upto example_formula 1 1 2 (init_state example_formula)
    = init_state example_formula.
Proof.
  split; [reflexivity |].
  by apply (unassign_upto_unset example_formula 1 1 2).
Defined.

Section assign_correct.
Context (F : formula) (HF : wf_formula F) (v sign : Z).
Context (Hv : 0 ≤ v < V F) (Hs : sign_ok sign).
Implicit Types (s : state).

Lemma assign_result s b s' :
  assign F v sign s = (b, s') →
  ∃ k', cassign F v sign (core s) = (b, k') ∧ core s' = k'.
Proof.
  intros E. destruct (assign_core F v sign s) as [H1 H2].
  rewrite E in H1, H2. simpl in *.
  destruct (cassign F v sign (core s)) as [b' k']. simpl in *. subst. eauto.
Qed.

Lemma assign_set s : (assn s).[v] ≠ 0 → assign F v sign s = (true, s).
Proof. intros Ha. unfold assign. by case_ztest. Qed.

(** A successful [assign] of an unset variable writes [assn[v]] only. *)
Lemma assign_true_assn s s' :
  (assn s).[v] = 0 → assign F v sign s = (true, s') →
  assn s' = (assn s).[v <- sign].
Proof.
  intros Ha (k' & Hc & Hk)%assign_result.
  apply cassign_true in Hc; [| done].
  apply (f_equal c_assn) in Hk. rewrite Hc, foldl_ctouch_assn in Hk. done.
Qed.

Lemma assign_inv s : inv F s → inv F (assign F v sign s).2.
Proof.
  intros H. unfold inv. rewrite (proj2 (assign_core F v sign s)).
  by apply cassign_cinv.
Qed.

Lemma assign_false_core s s' :
  inv F s → assign F v sign s = (false, s') → s' ≡c s.
Proof.
  intros H (k' & Hc & Hk)%assign_result. unfold core_eq. rewrite Hk.
  by eapply cassign_false.
Qed.

Lemma unassign_inv s :
  inv F s → (assn s).[v] = sign ∨ (assn s).[v] = 0 →
  inv F (unassign F v sign s).
Proof.
  intros H Ha. unfold inv. rewrite unassign_core. by apply cunassign_cinv.
Qed.

Lemma assign_unassign s s' :
  inv F s → (assn s).[v] = 0 → assign F v sign s = (true, s') →
  unassign F v sign s' ≡c s.
Proof.
  intros H Ha (k' & Hc & Hk)%assign_result. unfold core_eq.
  rewrite unassign_core, Hk. by eapply cassign_cunassign.
Qed.

(** [unassign] clears [assn[v]] and nothing else of [assn]. *)
Lemma unassign_assn s u :
  (assn (unassign F v sign s)).[u] = if decide (u = v) then 0 else (assn s).[u].
Proof.
  change ((c_assn (core (unassign F v sign s))).[u] = if decide (u = v) then 0 else (c_assn (core s)).[u]).
  rewrite unassign_core. apply cunassign_assn.
Qed.

(** The satisfiers after [unassign]: the clauses that [v] satisfied have
    none, the others have theirs. *)
Lemma unassign_satisfier s c :
  inv F s → (assn s).[v] = sign → 0 ≤ c < C F →
  (satisfier (unassign F v sign s)).[c]
  = if (satisfier s).[c] =? v + 1 then 0 else (satisfier s).[c].
Proof.
  intros Hi Ha Hc.
  change ((c_satisfier (core (unassign F v sign s))).[c]
          = if (c_satisfier (core s)).[c] =? v + 1 then 0 else (c_satisfier (core s)).[c]).
  rewrite unassign_core. by apply cunassign_satisfier.
Qed.

(** [unassign] counts every clause that [v] satisfied as unsatisfied. *)
Lemma unassign_nunsat s :
  inv F s → (assn s).[v] = sign →
  nunsat (unassign F v sign s)
  = nunsat s + countb (λ c, (satisfier s).[c] =? v + 1) (range 0 (C F)).
Proof.
  intros Hi Ha. pose proof (unassign_inv s Hi (or_introl Ha)) as Hi'.
  rewrite (cinv_nunsat F _ Hi' : nunsat _ = _), (cinv_nunsat F _ Hi : nunsat s = _).
  unfold count_unsat. rewrite <- countb_orb.
  - apply countb_ext. intros c Hc%elem_of_range. simpl.
    rewrite unassign_satisfier by (done || lia).
    repeat case_ztest; simpl; (done || lia).
  - intros c _. simpl. repeat case_ztest; (done || lia).
Qed.

(** C3: spec I1, I2 (left to right) and I3 hold after every [assign]:
    if [rem] counts the unset literals of every clause, every clause with a
    satisfier holds a true literal of that variable, and [nunsat] counts
    the clauses without satisfier, then the same holds of the state
    [assign] leaves, whether it returns true or false. *)
Theorem assign_preserves_inv s : inv F s → inv F (assign F v sign s).2.
Proof. apply assign_inv. Qed.

(** C4: an [assign] that returns false has undone itself: [assn],
    [satisfier], [rem] and [nunsat] read as before the call. *)
Theorem assign_failure_restores_core s s' :
  inv F s → assign F v sign s = (false, s') → s' ≡c s.
Proof. apply assign_false_core. Qed.

(** C17: spec I1, I2 (left to right) and I3 hold after every [unassign]
    that passes the sign the variable was assigned with (or finds the
    variable unset). *)
Theorem unassign_preserves_inv s :
  inv F s → (assn s).[v] = sign ∨ (assn s).[v] = 0 →
  inv F (unassign F v sign s).
Proof. apply unassign_inv. Qed.

(** C8: spec I7 on the core: [unassign(v, sign)] after a successful
    [assign(v, sign)] of an unset variable gives back [assn], [satisfier],
    [rem] and [nunsat]. *)
Theorem assign_unassign_core s s' :
  inv F s → (assn s).[v] = 0 → assign F v sign s = (true, s') →
  unassign F v sign s' ≡c s.
Proof. apply assign_unassign. Qed.

(** C25: [unassign] elects no satisfier: spec I2 from right to left (a
    clause that holds a true literal has a satisfier) is not kept by the
    program.  In a state of the invariant, when [unassign(v, sign)] unsets
    the satisfier [v] of a clause [c] that holds another true literal [l],
    the invariant still holds, but [c] is left with [satisfier[c] = 0]
    while [l] is still true, and [nunsat] goes up by the number of clauses
    that [v] satisfied, [c] among them.  The undo loop of
    [undo_unit_propagations] meets this case when a variable was queued
    twice. *)
Theorem unassign_elects_no_satisfier s c l :
  inv F s → (assn s).[v] = sign → 0 ≤ c < C F → (satisfier s).[c] = v + 1 →
  l ∈ clause F c → var_of l ≠ v → (assn s).[var_of l] = sign_of l →
  inv F (unassign F v sign s)
  ∧ (satisfier (unassign F v sign s)).[c] = 0
  ∧ (assn (unassign F v sign s)).[var_of l] = sign_of l
  ∧ nunsat (unassign F v sign s)
    = nunsat s + countb (λ c, (satisfier s).[c] =? v + 1) (range 0 (C F))
  ∧ 0 < countb (λ c, (satisfier s).[c] =? v + 1) (range 0 (C F)).
Proof.
  intros Hi Ha Hc Hsat Hl Hne Ht. split_and!.
  - apply unassign_inv; auto.
  - rewrite unassign_satisfier, Hsat, Z.eqb_refl; done.
  - rewrite unassign_assn. by case_decide.
  - by apply unassign_nunsat.
  - apply countb_pos. exists c. rewrite elem_of_range, Hsat, Z.eqb_refl. done.
Qed.
End assign_correct.

Lemma unassign_elects_no_satisfier_witness :
  let F := twice_queued_formula in
  let s := (assign F 2 1 (assign F 1 1 (assign F 0 (-1) (init_state F)).2).2).2 in
  (satisfier (unassign F 1 1 s)).[3] = 0
  ∧ clause F 3 = [2; 3] ∧ (assn (unassign F 1 1 s)).[2] = 1.
Proof.
  intros F s. pose proof twice_queued_formula_wf as HF.
  assert (inv F s) as Hi.
  { repeat (apply (assign_inv F HF); [simpl; lia | (by left) || (by right) |]).
    by apply init_state_inv. }
  destruct (unassign_elects_no_satisfier F HF 1 1 ltac:(simpl; lia)
              ltac:(by left) s 3 3 Hi ltac:(by vm_compute) ltac:(by vm_compute)
              ltac:(by vm_compute) ltac:(apply (bool_decide_unpack _); by vm_compute)
              ltac:(by vm_compute) ltac:(by vm_compute)) as (_ & H1 & H2 & _).
  split; [exact H1 | split; [by vm_compute | exact H2]].
Defined.

Lemma assign_preserves_inv_witness :
  wf_formula example_formula
  ∧ inv example_formula (init_state example_formula)
  ∧ inv example_formula
      (assign example_formula 1 1 (init_state example_formula)).2.
Proof.
  pose proof example_formula_wf as HF.
  pose proof (init_state_inv _ HF) as Hi.
  split_and!; [done.. |].
  apply (assign_preserves_inv example_formula HF 1 1); [done | by left | done].
Defined.

Lemma assign_failure_restores_core_witness :
  (assign example_formula 0 1 (init_state example_formula)).1 = false
  ∧ (assign example_formula 0 1 (init_state example_formula)).2
    ≡c init_state example_formula.
Proof.
  pose proof example_formula_wf as HF.
  assert ((assign example_formula 0 1 (init_state example_formula)).1 = false)
    as Hf by (vm_compute; reflexivity).
  split; [done |].
  apply (assign_failure_restores_core example_formula HF 0 1);
    [done | by left | by apply init_state_inv |].
  rewrite <- Hf. apply surjective_pairing.
Defined.

Lemma unassign_preserves_inv_witness :
  let s := (assign example_formula 1 1 (init_state example_formula)).2 in
  (assn s).[1] = 1 ∧ inv example_formula (unassign example_formula 1 1 s).
Proof.
  intros s. pose proof example_formula_wf as HF.
  assert ((assn s).[1] = 1) as Ha by (vm_compute; reflexivity).
  split; [done |].
  apply (unassign_preserves_inv example_formula HF 1 1); [done | by left | | by left].
  apply (assign_inv example_formula HF 1 1); [done | by left |].
  by apply init_state_inv.
Defined.

Lemma assign_unassign_core_witness :
  let r := assign example_formula 1 1 (init_state example_formula) in
  r.1 = true ∧ unassign example_formula 1 1 r.2 ≡c init_state example_formula.
Proof.
  intros r. pose proof example_formula_wf as HF.
  assert (r.1 = true) as Ht by (vm_compute; reflexivity).
  split; [done |].
  apply (assign_unassign_core example_formula HF 1 1);
    [done | by left | by apply init_state_inv | reflexivity |].
  rewrite <- Ht. apply surjective_pairing.
Defined.

(** C37: [modify_signed_appearances(c, inc)] moves, for every literal [x]
    of clause [c], the cell of index [x] (the literal, not the variable
    [abs(x)-1] that line 141 computes): [nneg_app[x]] when [x < 0],
    [npos_app[x]] otherwise. *)
Theorem modify_signed_appearances_spec F c inc s i :
  (npos_app (modify_signed_appearances F c inc s)).[i]
  = (npos_app s).[i] + inc * countb (at_index false i) (clause F c)
  ∧ (nneg_app (modify_signed_appearances F c inc s)).[i]
    = (nneg_app s).[i] + inc * countb (at_index true i) (clause F c).
Proof. apply modify_signed_appearances_tallies. Qed.

(** C36: [modify_signed_appearances] writes outside the blocks
    [npos_app[0..V)] and [nneg_app[0..V)] exactly when the clause has a
    literal that is not an index of the block, which every negative
    literal and the positive literal of the last variable are. *)
Theorem modify_signed_appearances_out_of_bounds F c inc s :
  inc ≠ 0 →
  modify_in_bounds F c = false ↔
  ∃ i, ¬ (0 ≤ i < V F)
       ∧ ((npos_app (modify_signed_appearances F c inc s)).[i] ≠ (npos_app s).[i]
          ∨ (nneg_app (modify_signed_appearances F c inc s)).[i] ≠ (nneg_app s).[i]).
Proof.
  intros Hinc. split.
  - intros (x & Hx & Hout)%modify_in_bounds_false. exists x. split; [done |].
    destruct (modify_signed_appearances_tallies F c inc s x) as [-> ->].
    assert (∀ neg, (x <? 0) = neg → 0 < countb (at_index neg x) (clause F c)) as H.
    { intros neg Hneg. apply countb_pos. exists x. split; [done |].
      unfold at_index. rewrite bool_decide_eq_true_2 by done. by rewrite Z.eqb_refl. }
    destruct (x <? 0) eqn:E; [right | left]; specialize (H _ eq_refl); nia.
  - intros (i & Hi & Hne). destruct (modify_in_bounds F c) eqn:E; [| done].
    destruct (modify_signed_appearances_tallies F c inc s i) as [Hp Hn].
    unfold modify_in_bounds in E. rewrite forallb_forall in E.
    rewrite !countb_false in Hp, Hn; [lia |..]; intros x Hx%list_elem_of_In%E;
      unfold at_index; destruct (Z.eqb_spec x i) as [->|];
      rewrite ?andb_false_r; (done || lia).
Qed.

Lemma modify_signed_appearances_out_of_bounds_witness :
  modify_in_bounds example_formula 2 = false.
Proof.
  apply (modify_signed_appearances_out_of_bounds example_formula 2 1
           (init_state example_formula)); [lia |].
  exists (-1). split; [simpl; lia |]. right. by vm_compute.
Defined.

(** C38: the tally of a contradicted occurrence: [assign] runs
    [nneg_app[v]--] or [npos_app[v]++] (lines 177-180) and [unassign_upto]
    runs [nneg_app[v]++] or [npos_app[v]++] (lines 219-222).  For
    [sign < 0] the two cancel; otherwise [npos_app[v]] is up by 2 and not
    restored. *)
Theorem contradict_restore_tally v sign s :
  nneg_app (restore_tally v sign (contradict_tally v sign s)) ≡ₐ nneg_app s
  ∧ ∀ i, (npos_app (restore_tally v sign (contradict_tally v sign s))).[i]
         = (npos_app s).[i] + (if decide (i = v ∧ 0 ≤ sign) then 2 else 0).
Proof.
  unfold restore_tally, contradict_tally.
  destruct (Z.ltb_spec sign 0); simpl; (split; [intros i | intros i]); simpl;
    rewrite ?get_upd; repeat case_decide; try lia; naive_solver lia.
Qed.
