(* ===== verification/Propagate.v ===== *)
(** * The propagation engine

    [undo_unit_propagations] and [do_unit_propagations] of [src/sat.cpp].
    The loop of [do_unit_propagations] runs to a bound, [npropped], that
    [assign] moves while the loop runs; it is [do_unit_loop], on fuel.  The
    fuel [prop_fuel] that [do_unit_propagations] passes is computed from
    the state: the entries still queued plus the number of occurrences of
    the unset variables, each of which can add one entry at most.

    Theorems: the fuel is enough on every state of a well-formed formula
    (the loop terminates); [undo_unit_propagations] cuts the queue back
    and leaves its entries and [npropped_at] alone; with [room] in the
    queue [assign] writes below its capacity [total], which is at most
    [V * C] when no clause repeats a variable.  What the two functions do
    to the counters is the subject of [Trail]. *)

From S2P Require Import Prelude Formula Core State Conflict Assign.

(** ** Operations *)

(** The loop of [undo_unit_propagations]: [n] iterations, for
    [i = low+n-1] down to [low]. *)
Fixpoint undo_loop (F : formula) (n : nat) (low : Z) (s : state) : state :=
  match n with
  | O => s
  | S n =>
      let app := (propagation_queue s).[low + Z.of_nat n] in
      let varid := var_of app in
      let s := backprop_conflict F varid ((propping_clause s).[varid]) s in
      let sign := sign_of app in
      undo_loop F n low (unassign F varid sign s)
  end.

Definition undo_unit_propagations (F : formula) (low high : Z) (s : state)
  : state :=
  set_npropped low (undo_loop F (Z.to_nat (high - low)) low s).

(** The loop of [do_unit_propagations] at index [i]. *)
Fixpoint do_unit_loop (F : formula) (fuel : nat) (from i : Z) (s : state)
  : option (bool * state) :=
  match fuel with
  | O => None
  | S fuel =>
      if i <? npropped s then
        let app := (propagation_queue s).[i] in
        let varid := var_of app in
        let s := clear_conflicts varid s in
        let sign := sign_of app in
        match assign F varid sign s with
        | (false, s) => Some (false, undo_unit_propagations F from i s)
        | (true, s) => do_unit_loop F fuel from (i + 1) s
        end
      else Some (true, s)
  end.

(** The occurrences of the unset variables: a bound on what the queue can
    still grow by. *)
Definition slack (F : formula) (s : state) : Z :=
  foldr (λ v acc, (if unset s v then napps F v else 0) + acc) 0
    (range 0 (V F)).

Definition prop_fuel (F : formula) (from : Z) (s : state) : nat :=
  S (Z.to_nat (npropped s - from + slack F s)).

Definition do_unit_propagations (F : formula) (from : Z) (s : state)
  : option (bool * state) :=
  do_unit_loop F (prop_fuel F from s) from from s.

(** The number of occurrence entries of the formula, a capacity that the
    queue does not exceed. *)
Definition total (F : formula) : Z :=
  foldr (λ v acc, napps F v + acc) 0 (range 0 (V F)).

(** The queue has room for what the unset variables can still add. *)
Definition room (F : formula) (s : state) : Prop :=
  npropped s + slack F s ≤ total F.

(** The cells of the queue array from the capacity on are those of [s]:
    nothing was written there. *)
Definition above (F : formula) (s t : state) : Prop :=
  ∀ k, total F ≤ k → (propagation_queue t).[k] = (propagation_queue s).[k].

(** ** Frame *)

Section frame.
Context (F : formula).
Implicit Types (s : state) (low high from i : Z) (n fuel : nat).

(** [undo_unit_propagations] leaves the queue array and [npropped_at]
    alone, and sets [npropped] to [low]. *)
Lemma undo_loop_frame n low s :
  queue (undo_loop F n low s) = queue s
  ∧ npropped_at (undo_loop F n low s) = npropped_at s.
Proof.
  revert s. induction n as [|n IH]; intros s; [done |]. cbn [undo_loop]. cbv zeta.
  match goal with |- context [undo_loop F n low ?t] =>
    destruct (IH t) as [-> ->] end.
  by rewrite !(frame queue _), !(frame npropped_at _).
Qed.

Lemma undo_unit_propagations_frame low high s :
  npropped (undo_unit_propagations F low high s) = low
  ∧ propagation_queue (undo_unit_propagations F low high s) = propagation_queue s
  ∧ npropped_at (undo_unit_propagations F low high s) = npropped_at s.
Proof.
  unfold undo_unit_propagations. simpl.
  by destruct (undo_loop_frame (Z.to_nat (high - low)) low s) as [[= -> _ _] ->].
Qed.
End frame.

(** ** Termination *)

Section termination.
Context (F : formula) (HF : wf_formula F).
Implicit Types (s : state) (from i v : Z) (fuel : nat) (l : list Z).

Lemma slack_nonneg s : 0 ≤ slack F s.
Proof.
  unfold slack. induction (range 0 (V F)) as [|v l IH]; simpl; [done |].
  assert (0 ≤ napps F v) by (unfold napps; lia). destruct (unset s v); lia.
Qed.

(** Setting an unset variable takes its occurrences out of the slack. *)
Lemma slack_set s s' v x l :
  NoDup l → (assn s).[v] = 0 → x ≠ 0 → assn s' = (assn s).[v <- x] →
  foldr (λ v acc, (if unset s' v then napps F v else 0) + acc) 0 l
  = foldr (λ v acc, (if unset s v then napps F v else 0) + acc) 0 l
    - (if decide (v ∈ l) then napps F v else 0).
Proof.
  intros Hl Ha Hx Hs'. induction Hl as [|u l Hu Hl IH]; simpl; [done |].
  rewrite IH. unfold unset. rewrite Hs', get_upd.
  destruct (decide (u = v)) as [->|Hne].
  - rewrite decide_True by done. rewrite Ha.
    rewrite (decide_True (P := v ∈ v :: l)) by left.
    rewrite (decide_False (P := v ∈ l)) by done.
    destruct (Z.eqb_spec x 0); [done | simpl; lia].
  - rewrite (decide_False (P := v = u)) by congruence.
    destruct (decide (v ∈ l)).
    + rewrite decide_True by (by right). lia.
    + rewrite decide_False by (rewrite elem_of_cons; naive_solver). lia.
Qed.

(** A successful [assign] does not raise the number of entries still to
    come: what it queues it takes out of the slack. *)
Lemma assign_true_measure v sign s s' :
  sign ≠ 0 → assign F v sign s = (true, s') →
  npropped s' + slack F s' ≤ npropped s + slack F s.
Proof.
  intros Hs E. destruct (decide ((assn s).[v] = 0)) as [Ha|Ha].
  2:{ rewrite assign_set in E by done. by injection E as <-. }
  pose proof (assign_npropped F v sign s) as Hn. rewrite E in Hn. simpl in Hn.
  pose proof (assign_true_assn F v sign s s' Ha E) as Hs'.
  unfold slack. rewrite (slack_set s s' v sign) by (done || apply NoDup_seqZ).
  case_decide as Hin; [lia |].
  rewrite elem_of_range in Hin. unfold napps in Hn.
  rewrite (wf_apps_out F HF v) in Hn by done. simpl in Hn. lia.
Qed.

Lemma do_unit_loop_terminates fuel from i s :
  (Z.to_nat (npropped s - i + slack F s) < fuel)%nat →
  ∃ r, do_unit_loop F fuel from i s = Some r.
Proof.
  revert i s. induction fuel as [|fuel IH]; intros i s Hf; [lia |]. simpl.
  destruct (Z.ltb_spec i (npropped s)) as [Hi|Hi]; [| eauto].
  destruct (assign _ _ _ _) as [[] s'] eqn:E; [| eauto].
  apply IH. apply assign_true_measure in E.
  2:{ destruct (sign_of_cases (propagation_queue s).[i]); lia. }
  pose proof (slack_nonneg s). pose proof (slack_nonneg s').
  assert (slack F (clear_conflicts (var_of (propagation_queue s).[i]) s)
          = slack F s) as Hsl by done.
  assert (npropped (clear_conflicts (var_of (propagation_queue s).[i]) s)
          = npropped s) as Hnp by done.
  lia.
Qed.

(** ** The capacity of the queue *)

Lemma slack_le_total s : slack F s ≤ total F.
Proof.
  unfold slack, total. induction (range 0 (V F)) as [|v l IH]; simpl; [done |].
  assert (0 ≤ napps F v) by (unfold napps; lia). destruct (unset s v); lia.
Qed.

(** The occurrences of an unset variable are part of the slack. *)
Lemma slack_unset s v :
  0 ≤ v < V F → (assn s).[v] = 0 → napps F v ≤ slack F s.
Proof.
  intros Hv%elem_of_range Ha. unfold slack.
  induction (range 0 (V F)) as [|u l IH]; [by apply elem_of_nil in Hv |].
  simpl. pose proof (slack_nonneg s) as Hn.
  assert (0 ≤ foldr (λ v acc, (if unset s v then napps F v else 0) + acc) 0 l).
  { clear. induction l as [|w l IH]; simpl; [done |].
    assert (0 ≤ napps F w) by (unfold napps; lia). destruct (unset s w); lia. }
  assert (0 ≤ napps F u) by (unfold napps; lia).
  apply elem_of_cons in Hv as [->|Hv].
  - rewrite (proj2 (unset_true s u) Ha). lia.
  - specialize (IH Hv). destruct (unset s u); lia.
Qed.

Lemma slack_ext s t : (∀ u, (assn s).[u] = (assn t).[u]) → slack F s = slack F t.
Proof.
  intros H. unfold slack, unset.
  induction (range 0 (V F)) as [|u l IH]; simpl; [done |]. by rewrite IH, H.
Qed.

(** An empty queue has room. *)
Lemma room_empty s : npropped s = 0 → room F s.
Proof. intros H. unfold room. rewrite H. pose proof (slack_le_total s). lia. Qed.

(** Without repeated variables in a clause, the capacity is at most the
    [V * C] cells that [main] allocates. *)
Lemma total_le_VC : distinct_vars F → total F ≤ V F * C F.
Proof.
  intros Hd. unfold total.
  assert (∀ l : list Z,
            foldr (λ v acc, napps F v + acc) 0 l ≤ Z.of_nat (length l) * C F)
    as H.
  { induction l as [|v l IH]; simpl; [lia |].
    pose proof (napps_le_C F HF v Hd). lia. }
  etrans; [apply H |]. rewrite length_range. pose proof (wf_V F HF).
  pose proof (wf_C F HF). nia.
Qed.

Lemma room_npropped s : room F s → npropped s ≤ total F.
Proof. unfold room. pose proof (slack_nonneg s). lia. Qed.

#[global] Instance above_preorder : PreOrder (above F).
Proof.
  unfold above. split; [by intros s k _ |].
  intros s t u H1 H2 k Hk. by rewrite H2, H1.
Qed.

(** With room in the queue, [assign] writes below the capacity, and a
    successful [assign] leaves room. *)
Lemma assign_room v sign s :
  0 ≤ v < V F → sign ≠ 0 → room F s →
  npropped (assign F v sign s).2 ≤ total F ∧ above F s (assign F v sign s).2
  ∧ ((assign F v sign s).1 = true → room F (assign F v sign s).2).
Proof.
  intros Hv Hs Hr. destruct (decide ((assn s).[v] = 0)) as [Ha|Ha].
  2:{ rewrite assign_set by done. simpl.
      split_and!; [by apply room_npropped | done | done]. }
  pose proof (assign_npropped F v sign s) as Hn.
  pose proof (slack_unset s v Hv Ha) as Hsl. unfold room in Hr.
  destruct (assign_queue_appends F v sign s) as [_ Hq].
  split_and!; [lia | intros k Hk; apply Hq; lia |].
  destruct (assign F v sign s) as [[] s'] eqn:E; [intros _ | done].
  pose proof (assign_true_measure v sign s s' Hs E). unfold room. simpl. lia.
Qed.

(** [do_unit_propagations] passes fuel enough. *)
Lemma do_unit_propagations_total from s :
  ∃ r, do_unit_propagations F from s = Some r.
Proof. apply do_unit_loop_terminates. unfold prop_fuel. lia. Qed.
End termination.

(** ** Theorems of the component *)

(** C9: [do_unit_propagations] terminates: on every state of a
    well-formed formula the loop ends within the fuel [prop_fuel], the
    entries still queued plus the occurrences of the unset variables.  Each
    iteration passes one entry, and [assign] queues at most one literal per
    occurrence of a variable that it sets. *)
Theorem do_unit_propagations_terminates F from s :
  wf_formula F → ∃ r, do_unit_propagations F from s = Some r.
Proof.
  intros HF. by apply do_unit_propagations_total.
Qed.

Lemma do_unit_propagations_terminates_witness :
  ∃ r, do_unit_propagations example_formula 0
         (assign example_formula 1 (-1) (init_state example_formula)).2 = Some r.
Proof. apply do_unit_propagations_terminates, example_formula_wf. Defined.

(** [undo_unit_propagations(low, high)] leaves [npropped = low], and
    neither the entries of the queue nor [npropped_at] change. *)
Theorem undo_unit_propagations_queue F low high s :
  npropped (undo_unit_propagations F low high s) = low
  ∧ propagation_queue (undo_unit_propagations F low high s) = propagation_queue s
  ∧ npropped_at (undo_unit_propagations F low high s) = npropped_at s.
Proof. apply undo_unit_propagations_frame. Qed.
