(* ===== verification/Trail.v ===== *)
(** * The discipline of the propagation queue

    [assign] appends to the queue, [do_unit_propagations] runs through it
    and [undo_unit_propagations] walks back over it.  This file states
    what the three rely on and proves that they respect it:

    - an entry of the queue is [waiting] until the loop reaches it: its
      variable has the value the entry asks for ([holds]), or the entry
      is the only unset literal of an unsatisfied clause ([forced]);
    - a successful [assign] queues forced literals and keeps the entries
      that wait waiting (an [assign] that contradicts a forced literal
      fails); a failed [assign] gives back the core and leaves entries
      whose variables are unset ([idle]);
    - [trail]: the invariant of the loop of [do_unit_propagations] for
      the level that [dfs] opened in a state [s0]; the loop ends with
      every entry of the level passed, or with the level [unwound];
    - the undo loop unsets the variables of the entries it passes and
      nothing else, and keeps [inv], whatever the order in which the
      variables were set; after it, [unassign] of the decision gives back
      the core of [s0].

    [assign_iter] is one iteration of the loop of [assign]; the facts
    about the loop are proved iteration by iteration. *)

From S2P Require Import Prelude Formula Core Restore State Conflict Assign Propagate.

(** ** Definitions *)

(** One iteration of the loop of [assign] (lines 167-195): the flag is
    false on the conflict exit, where the state is the one
    [backprop_conflict] leaves. *)
Definition assign_iter (F : formula) (v sign : Z) (s : state) (app : Z)
  : bool * state :=
  let c := var_of app in
  let s := set_rem ((rem s).[c <- (rem s).[c] - 1]) s in
  if app * sign >? 0 then
    (true,
     if (satisfier s).[c] =? 0 then
       mark_signed_appearances F c
         (set_nunsat (nunsat s - 1)
            (set_satisfier ((satisfier s).[c <- v + 1]) s))
     else s)
  else
    let s := contradict_tally v sign s in
    if (satisfier s).[c] =? 0 then
      if (rem s).[c] =? 0 then (false, backprop_conflict F v c s)
      else (true, if (rem s).[c] =? 1 then enqueue_unit_propagation F c s else s)
    else (true, s).

(** The entry of index [k] of the queue. *)
Definition entry (s : state) (k : Z) : Z := (propagation_queue s).[k].

(** The literal is the only unset literal of an unsatisfied clause. *)
Definition forced (F : formula) (s : state) (l : Z) : Prop :=
  ∃ c, cunit F (core s) c l.

(** The literal is of a variable of the formula that is unset. *)
Definition idle (F : formula) (s : state) (l : Z) : Prop :=
  0 ≤ var_of l < V F ∧ (assn s).[var_of l] = 0.

(** The literal is of a variable of the formula that has its value. *)
Definition holds (F : formula) (s : state) (l : Z) : Prop :=
  0 ≤ var_of l < V F ∧ (assn s).[var_of l] = sign_of l.

(** What holds of an entry of the queue between the [assign] that queues
    it and the iteration of [do_unit_propagations] that reaches it. *)
Definition waiting (F : formula) (s : state) (l : Z) : Prop :=
  holds F s l ∨ forced F s l.

(** The entries of [t] from [npropped s] on satisfy [P]. *)
Definition appended (P : Z → Prop) (s t : state) : Prop :=
  queue_extends s t ∧ ∀ k, npropped s ≤ k < npropped t → P (entry t k).

(** The invariant of the loop of [do_unit_propagations] at index [i], for
    the level that [dfs] opened in state [s0] by deciding [v = sign]: the
    entries of the level are those from [npropped s0] on; their variables
    are unset in [s0]; those before [i] have their value, those from [i]
    on are waiting; a variable set since [s0] is [v] or the variable of
    an entry before [i]; and if the queue had room in [s0] it has room,
    and nothing was written at or above its capacity. *)
Record trail (F : formula) (s0 : state) (v sign i : Z) (s : state) : Prop := {
  trail_inv : inv F s;
  trail_bounds : npropped s0 ≤ i ≤ npropped s;
  trail_extends : cextends F (core s0) (core s);
  trail_queue : queue_extends s0 s;
  trail_npropped_at : npropped_at s = npropped_at s0;
  trail_decision : (assn s).[v] = sign;
  trail_done : ∀ k, npropped s0 ≤ k < i → holds F s (entry s k);
  trail_pending : ∀ k, i ≤ k < npropped s → waiting F s (entry s k);
  trail_fresh : ∀ k, npropped s0 ≤ k < npropped s →
    (assn s0).[var_of (entry s k)] = 0;
  trail_new : ∀ u, (assn s).[u] ≠ 0 →
    (assn s0).[u] ≠ 0 ∨ u = v
    ∨ ∃ k, npropped s0 ≤ k < i ∧ var_of (entry s k) = u;
  trail_room : room F s0 → room F s ∧ above F s0 s;
}.

(** What the undo loop needs of an entry: a variable of the formula,
    unset in [s0], and unset or of the value of the entry. *)
Definition undoable (F : formula) (s0 s : state) (l : Z) : Prop :=
  0 ≤ var_of l < V F ∧ (assn s0).[var_of l] = 0
  ∧ ((assn s).[var_of l] = sign_of l ∨ (assn s).[var_of l] = 0).

(** The state [undo_unit_propagations] leaves at the level of [s0]: only
    the decision may still be set, the queue is cut back to its length in
    [s0]. *)
Record unwound (F : formula) (s0 : state) (v sign : Z) (t : state) : Prop := {
  unw_inv : inv F t;
  unw_extends : cextends F (core s0) (core t);
  unw_decision : (assn t).[v] = sign ∨ (assn t).[v] = 0;
  unw_new : ∀ u, (assn t).[u] ≠ 0 → (assn s0).[u] ≠ 0 ∨ u = v;
  unw_npropped : npropped t = npropped s0;
  unw_queue : ∀ k, k < npropped s0 → entry t k = entry s0 k;
  unw_npropped_at : ∀ u, (assn s0).[u] ≠ 0 ∨ u = v →
    (npropped_at t).[u] = (npropped_at s0).[u];
  unw_above : room F s0 → above F s0 t;
}.

(** ** One iteration of [assign] *)

Section iter.
Context (F : formula) (v sign : Z).
Implicit Types (s t : state) (app i k l c : Z) (p : list Z).

Lemma assign_loop_cons i app p s :
  assign_loop F v sign i (app :: p) s
  = match assign_iter F v sign s app with
    | (true, s1) => assign_loop F v sign (i + 1) p s1
    | (false, s1) => (false, unassign_upto F v sign (i + 1) s1)
    end.
Proof.
  cbn [assign_loop]. unfold assign_iter. cbv zeta.
  repeat match goal with |- context [if ?b then _ else _] => destruct b end;
    reflexivity.
Qed.

Lemma assign_iter_core s app :
  core (assign_iter F v sign s app).2 = ctouch v sign (core s) app.
Proof.
  unfold assign_iter, ctouch, agrees. cbv zeta.
  rewrite satisfier_contradict_tally, rem_contradict_tally. simpl.
  rewrite !get_upd_eq.
  destruct (app * sign >? 0), ((satisfier s).[var_of app] =? 0) eqn:E; simpl;
    rewrite ?E; simpl;
    repeat match goal with |- context [if ?b then _ else _] => destruct b end;
    simpl;
    by rewrite ?core_mark, ?core_backprop, ?core_enqueue, ?core_contradict_tally.
Qed.

Lemma assign_iter_conflict s app :
  (assign_iter F v sign s app).1 = negb (cconflict sign (ctouch v sign (core s) app) app).
Proof.
  unfold assign_iter, cconflict, ctouch, agrees. cbv zeta.
  rewrite satisfier_contradict_tally, rem_contradict_tally. simpl.
  rewrite !get_upd_eq.
  destruct (app * sign >? 0), ((satisfier s).[var_of app] =? 0) eqn:E; simpl;
    rewrite ?get_upd_eq, ?E; simpl; try done.
  by destruct ((rem s).[var_of app] - 1 =? 0).
Qed.
End iter.

(** ** Appending to the queue *)

Lemma appended_refl (P : Z → Prop) s : appended P s s.
Proof. split; [done | intros k Hk; lia]. Qed.

Lemma appended_trans (P Q R : Z → Prop) s t u :
  appended P s t → appended Q t u →
  (∀ l, P l → R l) → (∀ l, Q l → R l) → appended R s u.
Proof.
  intros [Hst HP] [Htu HQ] HPR HQR. split; [by etrans |].
  intros k Hk. destruct (decide (k < npropped t)) as [Hlt|Hge].
  - destruct Htu as [_ Htu]. unfold entry. rewrite Htu by done.
    apply HPR, HP. lia.
  - apply HQR, HQ. lia.
Qed.

Lemma appended_impl (P Q : Z → Prop) s t :
  appended P s t → (∀ l, P l → Q l) → appended Q s t.
Proof. intros [? HP] HPQ. split; [done |]. intros k Hk. by apply HPQ, HP. Qed.

(** A state with the same queue has nothing appended. *)
Lemma appended_same (P : Z → Prop) s t : queue t = queue s → appended P s t.
Proof.
  intros [= Hq Hn _]. split; [split; [lia | by rewrite Hq] |].
  intros k Hk. lia.
Qed.

Lemma enqueue_scan_appended c lits s :
  appended (λ l, l ∈ lits ∧ (assn s).[var_of l] = 0) s (enqueue_scan c lits s).
Proof.
  induction lits as [|l lits IH]; simpl; [apply appended_refl |].
  destruct (Z.eqb_spec ((assn s).[var_of l]) 0) as [Ha|Ha].
  - split; [split; simpl; [lia | intros i Hi; by rewrite get_upd_ne by lia] |].
    simpl. intros k Hk. assert (k = npropped s) as -> by lia.
    unfold entry. simpl. rewrite get_upd_eq. split; [left | done].
  - eapply appended_impl; [apply IH |]. intros x [Hx ?]. split; [by right | done].
Qed.

(** A literal of a clause names a clause of the formula. *)
Lemma clause_in_range F c l : wf_formula F → l ∈ clause F c → 0 ≤ c < C F.
Proof.
  intros HF Hl. destruct (decide (0 ≤ c < C F)) as [|Hc]; [done |].
  rewrite (wf_C F HF) in Hc. rewrite clause_out in Hl by done.
  by apply elem_of_nil in Hl.
Qed.

Section appending.
Context (F : formula) (HF : wf_formula F) (v sign : Z).
Context (Hv : 0 ≤ v < V F) (Hs : sign_ok sign).
Implicit Types (s t : state) (app i k l c : Z) (p : list Z).

(** What an iteration queues is the literal of a unit clause. *)
Lemma assign_iter_appended s app :
  appended (λ l, cunit F (core (assign_iter F v sign s app).2) (var_of app) l)
    s (assign_iter F v sign s app).2.
Proof.
  unfold assign_iter. cbv zeta.
  repeat match goal with |- context [if ?b then _ else _] => destruct b eqn:? end;
    simpl; try (apply appended_same; frame_solve).
  match goal with |- appended _ _ (enqueue_unit_propagation _ _ ?t) =>
    set (s2 := t) in * end.
  eapply (appended_trans (λ _, False));
    [apply (appended_same _ s s2); unfold s2; frame_solve
    | apply enqueue_scan_appended | done |].
  intros l [Hl Ha]. rewrite core_enqueue.
  split; [by eapply clause_in_range | done | done | by apply Z.eqb_eq
         | by apply Z.eqb_eq].
Qed.
End appending.

(** ** [assign] and the queue *)

Lemma sign_of_ok l : sign_ok (sign_of l).
Proof. unfold sign_ok. destruct (sign_of_cases l); lia. Qed.

Lemma forced_idle F s l : wf_formula F → forced F s l → idle F s l.
Proof.
  intros HF [c Hu]. split; [| apply (cunit_unset F _ c l Hu)].
  eapply wf_clause_var; [done | apply (cunit_lit F _ c l Hu)].
Qed.

Lemma idle_assn F s t l : assn s = assn t → idle F s l → idle F t l.
Proof. unfold idle. by intros ->. Qed.

Section assigning.
Context (F : formula) (HF : wf_formula F) (v sign : Z).
Context (Hv : 0 ≤ v < V F) (Hs : sign_ok sign).
Implicit Types (s t : state) (app i k l c : Z) (p : list Z).

Lemma assign_iter_assn s app : assn (assign_iter F v sign s app).2 = assn s.
Proof.
  change (c_assn (core (assign_iter F v sign s app).2) = assn s).
  by rewrite assign_iter_core, ctouch_assn.
Qed.

Lemma assign_loop_true_core p i s s' :
  assign_loop F v sign i p s = (true, s') →
  core s' = foldl (ctouch v sign) (core s) p.
Proof.
  intros E. destruct (assign_loop_core F v sign p i s) as [H1 H2].
  rewrite E in H1, H2. simpl in H1, H2. rewrite H2.
  destruct (cassign_loop F v sign i p (core s)) as [b k'] eqn:Ec.
  simpl in H1. subst b. by apply cassign_loop_true in Ec.
Qed.

(** What a successful run of the loop queues is forced in the state the
    loop leaves. *)
Lemma assign_loop_appended p i s s' :
  inv F s' → assign_loop F v sign i p s = (true, s') →
  appended (forced F s') s s'.
Proof.
  intros Hk'. revert i s. induction p as [|app p IH]; intros i s.
  { intros [= <-]. apply appended_refl. }
  rewrite assign_loop_cons.
  pose proof (assign_iter_appended F HF v sign s app) as Hit.
  destruct (assign_iter F v sign s app) as [[] s1]; [| done]. intros Hrun.
  eapply appended_trans; [exact Hit | by eapply IH | | done].
  intros l Hu. exists (var_of app).
  eapply cunit_persist; [done.. | exact Hk' | | exact Hu].
  by eapply assign_loop_true_core.
Qed.

(** What a run of the loop queues, on either exit, are literals of the
    formula that the loop found unset. *)
Lemma assign_loop_junk p i s :
  appended (idle F s) s (assign_loop F v sign i p s).2.
Proof.
  revert i s. induction p as [|app p IH]; intros i s; [apply appended_refl |].
  rewrite assign_loop_cons.
  pose proof (assign_iter_appended F HF v sign s app) as Hit.
  pose proof (assign_iter_assn s app) as Ha.
  destruct (assign_iter F v sign s app) as [[] s1]; simpl in *.
  - eapply appended_trans; [exact Hit | apply IH | | intros l; by apply idle_assn].
    intros l Hu. apply (idle_assn F s1); [done |]. apply forced_idle; [done |].
    by eexists.
  - eapply appended_trans;
      [exact Hit | apply (appended_same (λ _, False)); frame_solve | | done].
    intros l Hu. apply (idle_assn F s1); [done |]. apply forced_idle; [done |].
    by eexists.
Qed.

(** A successful [assign] queues forced literals. *)
Lemma assign_true_appended s s' :
  inv F s → assign F v sign s = (true, s') → appended (forced F s') s s'.
Proof.
  intros Hi E. pose proof (assign_inv F HF v sign Hv Hs s Hi) as Hi'.
  rewrite E in Hi'. simpl in Hi'. unfold assign in E.
  destruct (_ =? 0); [| injection E as <-; apply appended_refl].
  eapply appended_trans;
    [apply (appended_same (λ _, False) s (set_assn ((assn s).[v <- sign]) s))
    | by eapply assign_loop_appended | done | done].
  done.
Qed.

(** A failed [assign] leaves in the queue literals of unset variables. *)
Lemma assign_false_junk s s' :
  inv F s → assign F v sign s = (false, s') → appended (idle F s') s s'.
Proof.
  intros Hi E. pose proof (assign_false_core F HF v sign Hv Hs s s' Hi E) as Hc.
  unfold assign in E. destruct (_ =? 0); [| done].
  pose proof (assign_loop_junk (apps F v) 0 (set_assn ((assn s).[v <- sign]) s))
    as Hj.
  rewrite E in Hj. simpl in Hj.
  eapply appended_trans;
    [apply (appended_same (λ _, False) s (set_assn ((assn s).[v <- sign]) s))
    | exact Hj | done |]; [done |].
  intros l [Hr Hl]. split; [done |]. simpl in Hl.
  change ((c_assn (core s')).[var_of l] = 0).
  rewrite (ceq_assn _ _ Hc (var_of l)). simpl.
  rewrite get_upd in Hl. case_decide; [| done].
  subst. by apply sign_ok_nonzero in Hs.
Qed.

(** An entry that waits is not disturbed by a successful [assign]. *)
Lemma assign_true_waiting s s' l :
  inv F s → assign F v sign s = (true, s') → waiting F s l → waiting F s' l.
Proof.
  intros Hi E Hw. destruct (decide ((assn s).[v] = 0)) as [Ha|Ha].
  2:{ rewrite assign_set in E by done. by injection E as <-. }
  pose proof (assign_true_assn F v sign s s' Ha E) as Has.
  destruct (assign_result F v sign s _ _ E) as (k' & Hc & Hk).
  destruct Hw as [[Hr Hset] | [c Hu]].
  - left. split; [done |]. rewrite Has, get_upd_ne; [done |].
    intros Heq. rewrite <- Heq in Hset. destruct (sign_of_cases l); lia.
  - destruct (decide (var_of l = v)) as [Hlv|Hlv].
    + left. split; [by rewrite Hlv |]. rewrite Has, Hlv, get_upd_eq.
      destruct (decide (l * sign < 0)) as [Hneg|Hpos].
      * pose proof (cassign_unit_fails F HF v sign Hv Hs (core s) c l Hi Hu
                      Hlv Hneg) as Hf.
        by rewrite Hc in Hf.
      * destruct (wf_clause_lit F c l HF (cunit_lit F _ c l Hu)) as [Hl0 _].
        destruct Hs, (sign_of_cases l); lia.
    + right. exists c. rewrite Hk.
      eapply cassign_keeps_unit; eauto.
Qed.
End assigning.

(** ** What [assign] sets *)

Lemma entry_queue s t k : queue s = queue t → entry s k = entry t k.
Proof. unfold entry. by intros [= -> _ _]. Qed.

Lemma entry_extends s t k : queue_extends s t → k < npropped s → entry t k = entry s k.
Proof. intros [_ H] Hk. by apply H. Qed.

Lemma waiting_range F s l : wf_formula F → waiting F s l → 0 ≤ var_of l < V F.
Proof. intros HF [[? _]|[? _]%forced_idle]; done. Qed.

(** A literal that holds keeps holding while variables are only set. *)
Lemma holds_extends F s s' l :
  cextends F (core s) (core s') → holds F s l → holds F s' l.
Proof.
  intros He [Hr Hl]. split; [done |].
  rewrite <- Hl. apply (cext_assn F _ _ He). simpl. rewrite Hl.
  destruct (sign_of_cases l); lia.
Qed.

Section setting.
Context (F : formula) (HF : wf_formula F) (v sign : Z).
Context (Hv : 0 ≤ v < V F) (Hs : sign_ok sign).
Implicit Types (s t : state) (k l u : Z).

Lemma assign_true_extends s s' :
  assign F v sign s = (true, s') → cextends F (core s) (core s').
Proof.
  intros (k' & Hc & <-)%assign_result. by eapply cassign_extends.
Qed.

(** A successful [assign] sets no variable but its own. *)
Lemma assign_true_only s s' u :
  assign F v sign s = (true, s') → (assn s').[u] ≠ 0 → (assn s).[u] ≠ 0 ∨ u = v.
Proof.
  intros E Hu. destruct (decide ((assn s).[v] = 0)) as [Ha|Ha].
  - rewrite (assign_true_assn F v sign s s' Ha E), get_upd in Hu.
    case_decide; [by right | by left].
  - rewrite assign_set in E by done. injection E as <-. by left.
Qed.

(** What a successful [assign] hands to the loop of
    [do_unit_propagations]. *)
Lemma assign_true_facts s s' :
  inv F s → assign F v sign s = (true, s') →
  inv F s' ∧ queue_extends s s' ∧ npropped_at s' = npropped_at s
  ∧ (∀ k, npropped s ≤ k < npropped s' → forced F s' (entry s' k))
  ∧ cextends F (core s) (core s').
Proof.
  intros Hi E. pose proof (assign_inv F HF v sign Hv Hs s Hi) as Hi'.
  pose proof (assign_queue_extends F v sign s) as Hq.
  pose proof (frame npropped_at (λ s, (assign F v sign s).2) s) as Hat.
  cbv beta in Hat. rewrite E in Hi', Hq, Hat.
  destruct (assign_true_appended F HF v sign Hv Hs s s' Hi E) as [_ Hf].
  by pose proof (assign_true_extends s s' E).
Qed.
End setting.

(** The entry that [do_unit_propagations] has passed holds. *)
Lemma assign_true_holds F s s' l :
  wf_formula F → waiting F s l →
  assign F (var_of l) (sign_of l) s = (true, s') → holds F s' l.
Proof.
  intros HF Hw E. pose proof (waiting_range F s l HF Hw) as Hr.
  split; [done |]. destruct (decide ((assn s).[var_of l] = 0)) as [Ha|Ha].
  - by rewrite (assign_true_assn F _ _ s s' Ha E), get_upd_eq.
  - rewrite assign_set in E by done. injection E as <-.
    destruct Hw as [[_ ?]|[_ ?]%forced_idle]; done.
Qed.

(** ** The undo loop *)

Section undoing.
Context (F : formula) (HF : wf_formula F) (s0 : state) (H0 : inv F s0).
Implicit Types (s t : state) (i j k l u c low high : Z) (n : nat).

(** One iteration: the variable of the entry is unset, the invariant and
    the extension of the machine of [s0] stay. *)
Lemma undo_step s l c :
  inv F s → cextends F (core s0) (core s) → undoable F s0 s l →
  inv F (unassign F (var_of l) (sign_of l) (backprop_conflict F (var_of l) c s))
  ∧ cextends F (core s0)
      (core (unassign F (var_of l) (sign_of l)
               (backprop_conflict F (var_of l) c s)))
  ∧ ∀ u, (assn (unassign F (var_of l) (sign_of l)
                  (backprop_conflict F (var_of l) c s))).[u]
         = if decide (u = var_of l) then 0 else (assn s).[u].
Proof.
  intros Hi He (Hr & Hl0 & Ha). pose proof (sign_of_ok l) as Hs.
  assert (core (unassign F (var_of l) (sign_of l)
                  (backprop_conflict F (var_of l) c s))
          = cunassign F (var_of l) (sign_of l) (core s)) as Hc
    by (by rewrite unassign_core, core_backprop).
  unfold inv. rewrite Hc. split_and!.
  - by apply cunassign_cinv.
  - by apply cunassign_extends.
  - intros u. pose proof (cunassign_assn F (var_of l) (sign_of l) (core s) u) as H.
    by rewrite <- Hc in H.
Qed.

Lemma undo_loop_spec n low s :
  inv F s → cextends F (core s0) (core s) →
  (∀ j, low ≤ j < low + Z.of_nat n → undoable F s0 s (entry s j)) →
  inv F (undo_loop F n low s) ∧ cextends F (core s0) (core (undo_loop F n low s))
  ∧ (∀ u, (assn (undo_loop F n low s)).[u] = 0
          ∨ (assn (undo_loop F n low s)).[u] = (assn s).[u])
  ∧ (∀ j, low ≤ j < low + Z.of_nat n →
          (assn (undo_loop F n low s)).[var_of (entry s j)] = 0).
Proof.
  revert s. induction n as [|n IH]; intros s Hi He Hu.
  { simpl. split_and!; [done | done | by right | intros; lia]. }
  cbn [undo_loop]. cbv zeta. fold (entry s (low + Z.of_nat n)).
  set (l := entry s (low + Z.of_nat n)).
  destruct (undo_step s l ((propping_clause s).[var_of l]) Hi He)
    as (Hi1 & He1 & Ha1); [apply Hu; lia |].
  set (s1 := unassign F (var_of l) (sign_of l) _) in *.
  assert (queue s1 = queue s) as Hq.
  { unfold s1. frame_solve. }
  destruct (IH s1 Hi1 He1) as (Hi2 & He2 & Hz & Hd).
  { intros j Hj. rewrite (entry_queue s1 s j Hq).
    destruct (Hu j) as (? & ? & ?); [lia |]. unfold undoable.
    rewrite Ha1. case_decide; auto. }
  split_and!; [done | done | |].
  - intros u. destruct (Hz u) as [|E]; [by left |]. rewrite E, Ha1.
    case_decide; [by left | by right].
  - intros j Hj. destruct (decide (j = low + Z.of_nat n)) as [->|].
    + fold l. destruct (Hz (var_of l)) as [|E]; [done |].
      by rewrite E, Ha1, decide_True.
    + rewrite <- (entry_queue s1 s j Hq). apply Hd. lia.
Qed.

(** [undo_unit_propagations] on the entries of a level unwinds it. *)
Lemma undo_unwinds v sign high s :
  inv F s → cextends F (core s0) (core s) → queue_extends s0 s →
  npropped s0 ≤ high → (assn s).[v] = sign →
  (∀ u, (assn s0).[u] ≠ 0 ∨ u = v → (npropped_at s).[u] = (npropped_at s0).[u]) →
  (∀ k, npropped s0 ≤ k < high → undoable F s0 s (entry s k)) →
  (∀ u, (assn s).[u] ≠ 0 →
        (assn s0).[u] ≠ 0 ∨ u = v
        ∨ ∃ k, npropped s0 ≤ k < high ∧ var_of (entry s k) = u) →
  (room F s0 → above F s0 s) →
  unwound F s0 v sign (undo_unit_propagations F (npropped s0) high s).
Proof.
  intros Hi He Hq Hh Hd Hat Hu Hnew Hab.
  destruct (undo_loop_spec (Z.to_nat (high - npropped s0)) (npropped s0) s Hi He)
    as (Hi1 & He1 & Hz & Hzero); [intros j Hj; apply Hu; lia |].
  destruct (undo_unit_propagations_frame F (npropped s0) high s)
    as (Hnp & Hpq & Hnat).
  split; [done | done | | | done | | |].
  - destruct (Hz v) as [|E]; [by right | left; by rewrite <- Hd].
  - intros u Hne. simpl in Hne. destruct (Hz u) as [|E]; [done |].
    rewrite E in Hne. destruct (Hnew u Hne) as [|[|(k & Hk & <-)]]; [by left | by right |].
    rewrite Hzero in E by lia. congruence.
  - intros k Hk. unfold entry. rewrite Hpq. by apply Hq.
  - intros u Hu'. rewrite Hnat. by apply Hat.
  - intros Hr k Hk. rewrite Hpq. by apply Hab.
Qed.

(** [unassign] of the decision, after the undo, gives back the core of
    [s0]. *)
Lemma unassign_unwound v sign t :
  0 ≤ v < V F → sign_ok sign → (assn s0).[v] = 0 → unwound F s0 v sign t →
  unassign F v sign t ≡c s0.
Proof.
  intros Hv Hs Ha [Hi He Hd Hn _ _ _ _]. unfold core_eq. rewrite unassign_core.
  apply (crestore F); [done | by apply cunassign_cinv | by apply cunassign_extends |].
  intros u Hu. rewrite (cunassign_assn F v sign (core t) u).
  case_decide; [done |]. simpl.
  destruct (decide ((assn t).[u] = 0)) as [|Hne]; [done |].
  destruct (Hn u Hne); done.
Qed.

End undoing.

(** ** The loop of [do_unit_propagations] *)

Section propagating.
Context (F : formula) (HF : wf_formula F) (s0 : state) (H0 : inv F s0).
Context (v sign : Z) (Hv : 0 ≤ v < V F) (Hs : sign_ok sign).
Context (Ha0 : (assn s0).[v] = 0).
Implicit Types (s t : state) (i j k l u c : Z) (fuel : nat).

(** The decision opens the trail. *)
Lemma trail_init s' :
  assign F v sign s0 = (true, s') → trail F s0 v sign (npropped s0) s'.
Proof.
  intros E.
  destruct (assign_true_facts F HF v sign Hv Hs s0 s' H0 E)
    as (Hi & Hq & Hat & Hf & He).
  pose proof (assign_true_assn F v sign s0 s' Ha0 E) as Has.
  split; [done | destruct Hq; lia | done | done | done | | | | | |].
  - by rewrite Has, get_upd_eq.
  - intros k Hk. lia.
  - intros k Hk. right. by apply Hf.
  - intros k Hk. apply (cextends_unset F _ _ _ He).
    by apply (forced_idle F s' _ HF), Hf.
  - intros u Hu. rewrite Has, get_upd in Hu. case_decide; auto.
  - intros Hr.
    destruct (assign_room F HF v sign s0 Hv (sign_ok_nonzero _ Hs) Hr)
      as (_ & Hab & Hrm).
    rewrite E in Hab, Hrm. split; [by apply Hrm | done].
Qed.

(** An iteration that succeeds moves the trail on by one entry. *)
Lemma trail_step i s s' :
  trail F s0 v sign i s → i < npropped s →
  assign F (var_of (entry s i)) (sign_of (entry s i))
    (clear_conflicts (var_of (entry s i)) s) = (true, s') →
  trail F s0 v sign (i + 1) s'.
Proof.
  intros [Hi Hb He Hq Hat Hd Hdone Hpend Hfresh Hnew Hrm] Hlt E.
  set (l := entry s i) in *. pose proof (sign_of_ok l) as Hsl.
  pose proof (waiting_range F s l HF (Hpend i ltac:(lia))) as Hr.
  set (sc := clear_conflicts (var_of l) s) in *.
  assert (inv F sc) as Hic by done.
  destruct (assign_true_facts F HF _ _ Hr Hsl sc s' Hic E)
    as (Hi' & Hq' & Hat' & Hf & He').
  assert (∀ k, k < npropped s → entry s' k = entry s k) as Hent
    by (intros k Hk; by apply (entry_extends sc s')).
  split.
  - done.
  - destruct Hq'. simpl in *. lia.
  - by etrans.
  - etrans; [exact Hq | exact Hq'].
  - by rewrite Hat'.
  - rewrite <- Hd. apply (cext_assn F _ _ He'). simpl. rewrite Hd.
    by apply sign_ok_nonzero.
  - intros k Hk. destruct (decide (k = i)) as [->|Hne].
    + rewrite Hent by done. apply (assign_true_holds F sc s' l HF); [| done].
      apply Hpend. lia.
    + rewrite Hent by lia. apply (holds_extends F sc s'); [done |].
      apply Hdone. lia.
  - intros k Hk. destruct (decide (k < npropped s)) as [Hk'|Hk'].
    + rewrite Hent by done.
      apply (assign_true_waiting F HF _ _ Hr Hsl sc s'); [done.. |].
      apply Hpend. lia.
    + right. apply Hf. simpl. lia.
  - intros k Hk. destruct (decide (k < npropped s)) as [Hk'|Hk'].
    + rewrite Hent by done. apply Hfresh. lia.
    + apply (cextends_unset F (core s0) (core s')); [by etrans |].
      apply (forced_idle F s' _ HF), Hf. simpl. lia.
  - intros u Hu.
    destruct (assign_true_only F (var_of l) (sign_of l) sc s' u E Hu) as [Hu'| ->].
    + destruct (Hnew u Hu') as [|[|(k & Hk & <-)]]; [by left | by right; left |].
      right. right. exists k. split; [lia |]. f_equal. apply Hent. lia.
    + right. right. exists i. split; [lia |]. f_equal. by apply Hent.
  - intros Hr0. destruct (Hrm Hr0) as [Hro Hab].
    destruct (assign_room F HF _ _ sc Hr (sign_ok_nonzero _ Hsl) Hro)
      as (_ & Hab' & Hrm').
    rewrite E in Hab', Hrm'. split; [by apply Hrm' | by etrans].
Qed.

(** An iteration that fails unwinds the level. *)
Lemma trail_fail i s s' :
  trail F s0 v sign i s → i < npropped s →
  assign F (var_of (entry s i)) (sign_of (entry s i))
    (clear_conflicts (var_of (entry s i)) s) = (false, s') →
  unwound F s0 v sign (undo_unit_propagations F (npropped s0) i s').
Proof.
  intros [Hi Hb He Hq Hat Hd Hdone Hpend Hfresh Hnew Hrm] Hlt E.
  set (l := entry s i) in *. pose proof (sign_of_ok l) as Hsl.
  pose proof (waiting_range F s l HF (Hpend i ltac:(lia))) as Hr.
  set (sc := clear_conflicts (var_of l) s) in *.
  assert (inv F sc) as Hic by done.
  pose proof (assign_false_core F HF _ _ Hr Hsl sc s' Hic E) as Hc.
  pose proof (assign_queue_extends F (var_of l) (sign_of l) sc) as Hq'.
  pose proof (frame npropped_at (λ s, (assign F (var_of l) (sign_of l) s).2) sc)
    as Hat'.
  cbv beta in Hat'. rewrite E in Hq', Hat'. simpl in Hq', Hat'.
  assert (∀ u, (assn s').[u] = (assn s).[u]) as Has
    by (intros u; apply (ceq_assn _ _ Hc u)).
  assert (∀ k, k < npropped s → entry s' k = entry s k) as Hent
    by (intros k Hk; by apply (entry_extends sc s')).
  apply (undo_unwinds F HF s0 H0).
  - by rewrite Hc.
  - unfold core_eq in Hc. by rewrite Hc.
  - etrans; [exact Hq | exact Hq'].
  - lia.
  - by rewrite Has.
  - intros u _. by rewrite Hat', <- Hat.
  - intros k Hk. rewrite Hent by lia. destruct (Hdone k Hk) as [? Hh].
    unfold undoable. rewrite Has.
    split; [done | split; [apply Hfresh; lia | by left]].
  - intros u Hu. rewrite Has in Hu.
    destruct (Hnew u Hu) as [|[|(k & Hk & <-)]]; [by left | by right; left |].
    right. right. exists k. split; [done |]. f_equal. apply Hent. lia.
  - intros Hr0. destruct (Hrm Hr0) as [Hro Hab]. etrans; [exact Hab |].
    destruct (assign_room F HF _ _ sc Hr (sign_ok_nonzero _ Hsl) Hro)
      as (_ & Hab' & _).
    by rewrite E in Hab'.
Qed.

(** The loop: a true answer leaves every entry of the level passed, a
    false answer leaves the level unwound. *)
Lemma do_unit_loop_spec fuel i s b t :
  trail F s0 v sign i s →
  do_unit_loop F fuel (npropped s0) i s = Some (b, t) →
  if b then trail F s0 v sign (npropped t) t else unwound F s0 v sign t.
Proof.
  revert i s. induction fuel as [|fuel IH]; intros i s Ht; [done |]. simpl.
  destruct (Z.ltb_spec i (npropped s)) as [Hlt|Hge].
  - destruct (assign _ _ _ _) as [[] s'] eqn:E.
    + apply IH. by apply (trail_step i s).
    + intros [= <- <-]. by apply (trail_fail i s).
  - intros [= <- <-]. assert (i = npropped s) as -> by (destruct Ht; lia). done.
Qed.

(** [do_unit_propagations] from the entry of the level. *)
Lemma do_unit_propagations_spec s b t :
  trail F s0 v sign (npropped s0) s →
  do_unit_propagations F (npropped s0) s = Some (b, t) →
  if b then trail F s0 v sign (npropped t) t else unwound F s0 v sign t.
Proof. apply do_unit_loop_spec. Qed.
End propagating.

(** ** Theorems of the component *)

(** C6: unit propagation at a decision level.  When [assign] has
    accepted the decision [v = sign] in a state of the invariant and
    [do_unit_propagations] runs from the length the queue had before, the
    invariant holds in the state it leaves, and
    - on [true] every entry queued at the level has been passed: its
      variable has the value of the literal;
    - on [false] the queue is cut back to that length and the level is
      unwound: after [unassign(v, sign)], [assn], [satisfier], [rem] and
      [nunsat] read as before the decision. *)
Theorem do_unit_propagations_level F s0 v sign s1 b t :
  wf_formula F → inv F s0 → 0 ≤ v < V F → sign_ok sign → (assn s0).[v] = 0 →
  assign F v sign s0 = (true, s1) →
  do_unit_propagations F (npropped s0) s1 = Some (b, t) →
  inv F t
  ∧ if b then ∀ k, npropped s0 ≤ k < npropped t → holds F t (entry t k)
    else npropped t = npropped s0 ∧ unassign F v sign t ≡c s0.
Proof.
  intros HF H0 Hv Hs Ha E Ep.
  pose proof (trail_init F HF s0 H0 v sign Hv Hs Ha s1 E) as Ht.
  pose proof (do_unit_propagations_spec F HF s0 H0 v sign Hs s1 b t Ht Ep) as Hr.
  destruct b; [split; [apply Hr | apply (trail_done _ _ _ _ _ _ Hr)] |].
  split; [apply Hr | split; [apply Hr | by apply unassign_unwound]].
Qed.

Lemma do_unit_propagations_level_witness :
  ∃ s1 t,
    assign chain_formula 0 (-1) (init_state chain_formula) = (true, s1)
    ∧ do_unit_propagations chain_formula 0 s1 = Some (true, t)
    ∧ npropped t = 2
    ∧ ∀ k, 0 ≤ k < npropped t → holds chain_formula t (entry t k).
Proof.
  pose proof chain_formula_wf as HF.
  destruct (assign chain_formula 0 (-1) (init_state chain_formula))
    as [[] s1] eqn:E; [| by vm_compute in E].
  pose proof (f_equal snd E) as E2. simpl in E2.
  destruct (do_unit_propagations chain_formula 0 s1) as [[[] t]|] eqn:Ep;
    [| exfalso; rewrite <- E2 in Ep; by vm_compute in Ep..].
  exists s1, t. split_and!; [done | done | |].
  - pose proof Ep as Ep'. rewrite <- E2 in Ep'. vm_compute in Ep'.
    by injection Ep' as <-.
  - exact (proj2 (do_unit_propagations_level chain_formula _ 0 (-1) s1 true t HF
                    (init_state_inv _ HF) ltac:(simpl; lia) ltac:(by right)
                    eq_refl E Ep)).
Defined.

(** C14: [assign] queues forced literals only.  After a successful
    [assign] in a state of the invariant, every entry that the call has
    added to the queue is a literal of a clause without satisfier whose
    [rem] is 1, and its variable is unset: the only unset literal of an
    unsatisfied clause. *)
Theorem assign_queues_forced F v sign s s' :
  wf_formula F → 0 ≤ v < V F → sign_ok sign → inv F s →
  assign F v sign s = (true, s') →
  ∀ k, npropped s ≤ k < npropped s' →
    ∃ c, 0 ≤ c < C F ∧ entry s' k ∈ clause F c
         ∧ (assn s').[var_of (entry s' k)] = 0
         ∧ (satisfier s').[c] = 0 ∧ (rem s').[c] = 1.
Proof.
  intros HF Hv Hs Hi E k Hk.
  destruct (assign_true_appended F HF v sign Hv Hs s s' Hi E) as [_ Hf].
  destruct (Hf k Hk) as [c [? ? ? ? ?]]. by exists c.
Qed.

Lemma assign_queues_forced_witness :
  ∃ s', assign chain_formula 0 (-1) (init_state chain_formula) = (true, s')
        ∧ entry s' 0 = 2
        ∧ ∃ c, 0 ≤ c < C chain_formula ∧ entry s' 0 ∈ clause chain_formula c
               ∧ (assn s').[var_of (entry s' 0)] = 0
               ∧ (satisfier s').[c] = 0 ∧ (rem s').[c] = 1.
Proof.
  pose proof chain_formula_wf as HF.
  destruct (assign chain_formula 0 (-1) (init_state chain_formula))
    as [[] s'] eqn:E; [| by vm_compute in E].
  exists s'. split; [done |]. pose proof (f_equal snd E) as E2. simpl in E2.
  split; [by rewrite <- E2 |].
  apply (assign_queues_forced chain_formula 0 (-1) _ s' HF ltac:(simpl; lia)
           ltac:(by right) (init_state_inv _ HF) E 0).
  rewrite <- E2. by vm_compute.
Defined.
