(* ===== verification/Tallies.v ===== *)
(** * The tallies through [assign] and [unassign]

    [npos_app] and [nneg_app] steer the two heuristics.  The program
    writes them in [mark_signed_appearances], in
    [unmark_signed_appearances] and in the two statements of a
    contradicted occurrence (lines 177-180 and 219-222 of [src/sat.cpp]).
    This file gives the closed form of the two arrays after a successful
    [assign] and after the round trip [assign], [unassign]: what the
    clauses satisfied by the variable have added ([marked]), and what the
    occurrences of the other sign have added ([contradicted]). *)

From S2P Require Import Prelude Formula Core State Conflict Assign Propagate Trail.

(** ** Definitions *)

(** The cell of index [i] of [nneg_app] or of [npos_app]. *)
Definition tally (neg : bool) (s : state) (i : Z) : Z :=
  if neg then (nneg_app s).[i] else (npos_app s).[i].

(** What [mark_signed_appearances] has added to the cell [i] for the
    clauses that have [v] for satisfier: their literals of polarity [neg]
    that are the index [i]. *)
Definition marked (F : formula) (v : Z) (neg : bool) (i : Z) (s : state) : Z :=
  sumz (λ c, if (satisfier s).[c] =? v + 1
             then countb (at_index neg i) (clause F c) else 0)
    (range 0 (C F)).

(** The occurrences of [v] that do not have the sign assigned. *)
Definition contradicted (F : formula) (v sign : Z) : Z :=
  countb (λ app, negb (agrees app sign)) (apps F v).

(** The statement of [assign] for a contradicted occurrence, on the cell
    [i]: [nneg_app[v]--] when [sign < 0], [npos_app[v]++] otherwise. *)
Definition contradict_delta (v sign : Z) (neg : bool) (i : Z) : Z :=
  if decide (i = v)
  then if sign <? 0 then (if neg then -1 else 0) else (if neg then 0 else 1)
  else 0.

(** The statement of [unassign_upto] for the same occurrence:
    [nneg_app[v]++] when [sign < 0], [npos_app[v]++] otherwise. *)
Definition restore_delta (v sign : Z) (neg : bool) (i : Z) : Z :=
  if decide (i = v)
  then if sign <? 0 then (if neg then 1 else 0) else (if neg then 0 else 1)
  else 0.

(** The cell without what was marked for [v]. *)
Definition unmarked (F : formula) (v : Z) (neg : bool) (i : Z) (s : state) : Z :=
  tally neg s i - marked F v neg i s.

(** ** One statement at a time *)

Section steps.
Context (F : formula) (v sign : Z) (Hv1 : v + 1 ≠ 0).
Implicit Types (s : state) (app c i : Z) (neg : bool) (p : list Z).

Lemma tally_mark neg i c inc s :
  tally neg (modify_signed_appearances F c inc s) i
  = tally neg s i + inc * countb (at_index neg i) (clause F c).
Proof.
  destruct (modify_signed_appearances_tallies F c inc s i) as [Hp Hn].
  by destruct neg.
Qed.

Lemma tally_contradict neg i s :
  tally neg (contradict_tally v sign s) i = tally neg s i + contradict_delta v sign neg i.
Proof.
  unfold tally, contradict_tally, contradict_delta.
  destruct neg, (Z.ltb_spec sign 0); simpl; rewrite ?get_upd;
    repeat case_decide; try subst i; lia.
Qed.

Lemma tally_restore neg i s :
  tally neg (restore_tally v sign s) i = tally neg s i + restore_delta v sign neg i.
Proof.
  unfold tally, restore_tally, restore_delta.
  destruct neg, (Z.ltb_spec sign 0); simpl; rewrite ?get_upd;
    repeat case_decide; try subst i; lia.
Qed.

(** A write to [satisfier[c]] moves [marked] by the literals of [c]. *)
Lemma marked_set_satisfier neg i c x s t :
  0 ≤ c < C F → satisfier t = (satisfier s).[c <- x] →
  marked F v neg i t
  = marked F v neg i s
    - (if (satisfier s).[c] =? v + 1 then countb (at_index neg i) (clause F c) else 0)
    + (if x =? v + 1 then countb (at_index neg i) (clause F c) else 0).
Proof.
  intros Hc Ht. unfold marked. rewrite Ht.
  apply (sumz_upd (λ c y, if y =? v + 1
                          then countb (at_index neg i) (clause F c) else 0)
           (satisfier s) (C F) c x Hc).
Qed.

Lemma marked_same neg i s t :
  satisfier t = satisfier s → marked F v neg i t = marked F v neg i s.
Proof. intros Ht. unfold marked. by rewrite Ht. Qed.

Lemma tally_same neg i s t :
  tallies t = tallies s → tally neg t i = tally neg s i.
Proof. unfold tallies, tally. intros [= -> ->]. done. Qed.

Lemma unmarked_same neg i s t :
  tallies t = tallies s → satisfier t = satisfier s →
  unmarked F v neg i t = unmarked F v neg i s.
Proof.
  intros Ht Hs. unfold unmarked, marked. by rewrite (tally_same _ _ _ _ Ht), Hs.
Qed.

(** Marking the clause that gets [v] for satisfier leaves [unmarked]. *)
Lemma unmarked_satisfy neg i c s t :
  0 ≤ c < C F → (satisfier s).[c] = 0 →
  tallies t = tallies s → satisfier t = (satisfier s).[c <- v + 1] →
  unmarked F v neg i (mark_signed_appearances F c t) = unmarked F v neg i s.
Proof.
  intros Hc Hs Ht Hsat. unfold unmarked, mark_signed_appearances.
  rewrite tally_mark, (tally_same neg i s t Ht).
  rewrite (marked_set_satisfier neg i c (v + 1) s);
    [| done | by rewrite <- Hsat; frame_solve].
  rewrite Hs, Z.eqb_refl. case_ztest; lia.
Qed.

(** Unmarking the clause that loses its satisfier [v] leaves [unmarked]. *)
Lemma unmarked_unsatisfy neg i c s t :
  0 ≤ c < C F → (satisfier s).[c] = v + 1 →
  tallies t = tallies s → satisfier t = (satisfier s).[c <- 0] →
  unmarked F v neg i (unmark_signed_appearances F c t) = unmarked F v neg i s.
Proof.
  intros Hc Hs Ht Hsat. unfold unmarked, unmark_signed_appearances.
  rewrite tally_mark, (tally_same neg i s t Ht).
  rewrite (marked_set_satisfier neg i c 0 s);
    [| done | by rewrite <- Hsat; frame_solve].
  rewrite Hs, Z.eqb_refl. case_ztest; lia.
Qed.

(** One iteration of the loop of [assign]. *)
Lemma assign_iter_unmarked neg i s app :
  0 ≤ var_of app < C F →
  unmarked F v neg i (assign_iter F v sign s app).2
  = unmarked F v neg i s
    + (if agrees app sign then 0 else contradict_delta v sign neg i).
Proof.
  intros Hc. unfold assign_iter, agrees. cbv zeta.
  destruct (app * sign >? 0); cbn [snd].
  - rewrite Z.add_0_r. cbn [satisfier set_rem].
    destruct (Z.eqb_spec ((satisfier s).[var_of app]) 0) as [E|E].
    + apply unmarked_satisfy; [done | done | frame_solve | done].
    + apply unmarked_same; frame_solve.
  - set (s1 := contradict_tally v sign _).
    assert (unmarked F v neg i s1
            = unmarked F v neg i s + contradict_delta v sign neg i) as <-.
    { unfold unmarked, s1. rewrite tally_contradict.
      rewrite (tally_same neg i s) by frame_solve.
      rewrite (marked_same neg i s) by frame_solve. lia. }
    repeat match goal with |- context [if ?b then _ else _] => destruct b end;
      cbn [snd]; (done || (apply unmarked_same; frame_solve)).
Qed.

(** One iteration of the loop of [unassign_upto]. *)
Lemma unassign_step_unmarked neg i s app :
  0 ≤ var_of app < C F →
  unmarked F v neg i (unassign_step F v sign s app)
  = unmarked F v neg i s
    + (if agrees app sign then 0 else restore_delta v sign neg i).
Proof.
  intros Hc. unfold unassign_step, agrees. cbv zeta.
  destruct (app * sign >? 0).
  - rewrite Z.add_0_r. cbn [satisfier set_rem].
    destruct (Z.eqb_spec ((satisfier s).[var_of app]) (v + 1)) as [E|E].
    + apply unmarked_unsatisfy; [done | done | frame_solve | done].
    + apply unmarked_same; frame_solve.
  - unfold unmarked. rewrite tally_restore.
    rewrite (tally_same neg i s) by frame_solve.
    rewrite (marked_same neg i s) by frame_solve. lia.
Qed.
End steps.

(** ** The two loops *)

Section loops.
Context (F : formula) (v sign : Z) (Hv1 : v + 1 ≠ 0).
Implicit Types (s : state) (app c i k : Z) (neg : bool) (p : list Z).

Lemma assign_loop_unmarked neg i p k s s' :
  Forall (λ e, 0 ≤ var_of e < C F) p →
  assign_loop F v sign k p s = (true, s') →
  unmarked F v neg i s'
  = unmarked F v neg i s
    + countb (λ app, negb (agrees app sign)) p * contradict_delta v sign neg i.
Proof.
  intros Hp. revert k s. induction p as [|app p IH]; intros k s.
  { intros [= <-]. rewrite countb_nil. lia. }
  rewrite assign_loop_cons. apply Forall_cons in Hp as [Hc Hp].
  pose proof (assign_iter_unmarked F v sign Hv1 neg i s app Hc) as Hstep.
  destruct (assign_iter F v sign s app) as [[] s1]; [| done].
  intros E%(IH Hp). rewrite E, countb_cons. simpl in Hstep. rewrite Hstep.
  destruct (agrees app sign); simpl; lia.
Qed.

Lemma foldl_unassign_step_unmarked neg i p s :
  Forall (λ e, 0 ≤ var_of e < C F) p →
  unmarked F v neg i (foldl (unassign_step F v sign) s p)
  = unmarked F v neg i s
    + countb (λ app, negb (agrees app sign)) p * restore_delta v sign neg i.
Proof.
  intros Hp. revert s. induction p as [|app p IH]; intros s.
  { simpl. rewrite countb_nil. lia. }
  apply Forall_cons in Hp as [Hc Hp]. simpl.
  rewrite (IH Hp), (unassign_step_unmarked F v sign Hv1 neg i s app Hc), countb_cons.
  destruct (agrees app sign); simpl; lia.
Qed.
End loops.

(** ** [assign] and [unassign] *)

Section calls.
Context (F : formula) (HF : wf_formula F) (v sign : Z).
Context (Hv : 0 ≤ v < V F) (Hs : sign_ok sign).
Implicit Types (s : state) (c i : Z) (neg : bool).

(** Nothing is marked for a variable that is unset. *)
Lemma marked_unset neg i s :
  inv F s → (assn s).[v] = 0 → marked F v neg i s = 0.
Proof.
  intros Hi Ha. apply sumz_zero. intros c Hc%elem_of_range.
  pose proof (no_satisfier_unset F v Hv (core s) c Hi Hc Ha) as Hne.
  simpl in Hne. by case_ztest.
Qed.

Lemma assign_unmarked neg i s s' :
  (assn s).[v] = 0 → assign F v sign s = (true, s') →
  unmarked F v neg i s'
  = unmarked F v neg i s + contradicted F v sign * contradict_delta v sign neg i.
Proof.
  intros Ha E. unfold assign in E. rewrite Ha in E. simpl in E.
  rewrite (assign_loop_unmarked F v sign ltac:(lia) neg i _ _ _ _
             (apps_in_range F HF v Hv) E).
  by rewrite (unmarked_same F v neg i s) by frame_solve.
Qed.

Lemma unassign_unmarked neg i s :
  (assn s).[v] ≠ 0 →
  unmarked F v neg i (unassign F v sign s)
  = unmarked F v neg i s + contradicted F v sign * restore_delta v sign neg i.
Proof.
  intros Ha. unfold unassign, unassign_upto, napps. case_ztest; [done |].
  rewrite Nat2Z.id, firstn_all.
  rewrite (foldl_unassign_step_unmarked F v sign ltac:(lia) neg i _ _
             (apps_in_range F HF v Hv)).
  by rewrite (unmarked_same F v neg i s) by frame_solve.
Qed.

(** The tallies after a successful [assign] of an unset variable. *)
Lemma assign_tally neg i s s' :
  inv F s → (assn s).[v] = 0 → assign F v sign s = (true, s') →
  tally neg s' i
  = tally neg s i + marked F v neg i s'
    + contradicted F v sign * contradict_delta v sign neg i.
Proof.
  intros Hi Ha E. pose proof (assign_unmarked neg i s s' Ha E) as H.
  unfold unmarked in H. rewrite (marked_unset neg i s Hi Ha) in H. lia.
Qed.

(** The tallies after [assign] and [unassign]. *)
Lemma assign_unassign_tally neg i s s' :
  inv F s → (assn s).[v] = 0 → assign F v sign s = (true, s') →
  tally neg (unassign F v sign s') i
  = tally neg s i
    + contradicted F v sign
      * (contradict_delta v sign neg i + restore_delta v sign neg i).
Proof.
  intros Hi Ha E. pose proof (assign_unmarked neg i s s' Ha E) as H1.
  pose proof (assign_inv F HF v sign Hv Hs s Hi) as Hi'. rewrite E in Hi'.
  assert ((assn s').[v] = sign) as Ha'
    by (rewrite (assign_true_assn F v sign s s' Ha E); apply get_upd_eq).
  pose proof (unassign_unmarked neg i s' ltac:(rewrite Ha'; by apply sign_ok_nonzero))
    as H2.
  unfold unmarked in H1, H2.
  rewrite (marked_unset neg i s Hi Ha) in H1.
  rewrite (marked_unset neg i (unassign F v sign s')) in H2.
  - lia.
  - apply unassign_inv; auto.
  - rewrite unassign_assn. by rewrite decide_True.
Qed.
End calls.

(** ** Theorems of the component *)

(** C28: the tallies after [assign].  After a successful
    [assign(v, sign)] of an unset variable in a state of the invariant,
    the cell [i] of [npos_app] holds what it held, plus one for every
    positive literal that is the index [i] in a clause that has got [v]
    for satisfier, plus, for [i = v] and [sign = 1], one for every
    occurrence of [v] with the other sign; the cell [i] of [nneg_app]
    likewise, with one taken off per such occurrence for [sign = -1].
    Spec I4 has the tallies count the occurrences in unsatisfied clauses:
    for a clause that becomes satisfied the cells of the variables of its
    literals would go down; the program moves the cells at the index of
    the literals up. *)
Theorem assign_tallies F v sign s s' :
  wf_formula F → 0 ≤ v < V F → sign_ok sign → inv F s → (assn s).[v] = 0 →
  assign F v sign s = (true, s') →
  ∀ i, (npos_app s').[i]
       = (npos_app s).[i] + marked F v false i s'
         + (if decide (i = v ∧ sign = 1) then contradicted F v sign else 0)
     ∧ (nneg_app s').[i]
       = (nneg_app s).[i] + marked F v true i s'
         - (if decide (i = v ∧ sign = -1) then contradicted F v sign else 0).
Proof.
  intros HF Hv Hs Hi Ha E i.
  pose proof (assign_tally F HF v sign Hv false i s s' Hi Ha E) as Hp.
  pose proof (assign_tally F HF v sign Hv true i s s' Hi Ha E) as Hn.
  unfold tally, contradict_delta in Hp, Hn.
  destruct Hs as [-> | ->]; simpl in Hp, Hn;
    repeat case_decide; split; lia.
Qed.

Lemma assign_tallies_witness :
  ∃ s', assign example_formula 1 1 (init_state example_formula) = (true, s')
        ∧ marked example_formula 1 false 2 s' = 2
        ∧ (npos_app s').[2]
          = (npos_app (init_state example_formula)).[2] + 2.
Proof.
  pose proof example_formula_wf as HF.
  destruct (assign example_formula 1 1 (init_state example_formula))
    as [[] s'] eqn:E; [| by vm_compute in E].
  exists s'. split; [done |].
  pose proof (f_equal snd E) as E2. simpl in E2.
  assert (marked example_formula 1 false 2 s' = 2) as Hm
    by (rewrite <- E2; by vm_compute).
  split; [done |].
  destruct (assign_tallies example_formula 1 1 _ s' HF ltac:(by vm_compute)
              ltac:(by left) (init_state_inv _ HF) ltac:(by vm_compute) E 2)
    as [Hp _].
  rewrite Hp, Hm. rewrite decide_False by lia. lia.
Defined.

(** C27: spec I7 on the tallies.  After a successful [assign(v, sign)] of
    an unset variable and the [unassign(v, sign)] that undoes it, what was
    marked is unmarked and [nneg_app] is as before the two calls; the
    cells of [npos_app] are as before but for [npos_app[v]] when
    [sign = 1], which has gained 2 for every negative occurrence of [v]:
    line 180 and line 222 both run [npos_app[v]++]. *)
Theorem assign_unassign_tallies F v sign s s' :
  wf_formula F → 0 ≤ v < V F → sign_ok sign → inv F s → (assn s).[v] = 0 →
  assign F v sign s = (true, s') →
  nneg_app (unassign F v sign s') ≡ₐ nneg_app s
  ∧ ∀ i, (npos_app (unassign F v sign s')).[i]
         = (npos_app s).[i]
           + (if decide (i = v ∧ sign = 1) then 2 * contradicted F v sign else 0).
Proof.
  intros HF Hv Hs Hi Ha E. split; intros i.
  - pose proof (assign_unassign_tally F HF v sign Hv Hs true i s s' Hi Ha E) as H.
    unfold tally, contradict_delta, restore_delta in H.
    destruct Hs as [-> | ->]; simpl in H; repeat case_decide; lia.
  - pose proof (assign_unassign_tally F HF v sign Hv Hs false i s s' Hi Ha E) as H.
    unfold tally, contradict_delta, restore_delta in H.
    destruct Hs as [-> | ->]; simpl in H; repeat case_decide; lia.
Qed.

Lemma assign_unassign_tallies_witness :
  let F := formula_of 2 [[-1; 2]] in
  ∃ s', assign F 0 1 (init_state F) = (true, s')
        ∧ (npos_app (unassign F 0 1 s')).[0] = (npos_app (init_state F)).[0] + 2.
Proof.
  intros F. assert (wf_formula F) as HF by (apply wf_formulab_spec; by vm_compute).
  destruct (assign F 0 1 (init_state F)) as [[] s'] eqn:E; [| by vm_compute in E].
  exists s'. split; [done |].
  destruct (assign_unassign_tallies F 0 1 _ s' HF ltac:(by vm_compute)
              ltac:(by left) (init_state_inv _ HF) ltac:(by vm_compute) E)
    as [_ Hp].
  rewrite (Hp 0), decide_True by done. by vm_compute.
Defined.
