(* ===== verification/Search.v ===== *)
(** * The search driver

    [most_constrained_var], [random_next_var], [try_value] and [dfs] of
    [src/sat.cpp].  [dfs] and [try_value] call each other; [try_value]
    takes the recursive call as an argument and [dfs] recurses on fuel, one
    unit per decision level.  [rand()] is an argument of [random_next_var].

    Line 320 of the source picks the branching variable with
    [most_constrained_var]; line 321, commented out, with
    [random_next_var].  [dfs_with] is [dfs] over the picking function and
    [dfs] is its instance at [most_constrained_var].  What [dfs] needs of
    the function is the class [Heuristic]; both functions are instances.

    Theorems: the closed forms of the two picking functions; a true answer
    of [dfs] comes with [nunsat = 0]; more fuel does not change an answer;
    a failed [assign] of the first value ends the level without a try of
    the second value, and leaves in the queue what it had queued.
    Soundness and termination of [dfs] are in [Sound]. *)

From S2P Require Import Prelude Formula Core State Conflict Assign Propagate Trail.

(** ** Operations *)

(** One iteration of the loop of [most_constrained_var]; the pair is
    [(mapp, v)]. *)
Definition most_constrained_step (s : state) (acc : Z * Z) (i : Z) : Z * Z :=
  if negb ((assn s).[i] =? 0) then acc
  else if (npos_app s).[i] + (nneg_app s).[i] >? acc.1
       then ((npos_app s).[i] + (nneg_app s).[i], i)
       else acc.

Definition most_constrained_var (F : formula) (s : state) : Z :=
  (foldl (most_constrained_step s) (0, -1) (range 0 (V F))).2.

(** The second loop of [random_next_var]: the [nxt]-th unset variable. *)
Fixpoint random_scan (s : state) (nxt on : Z) (idx : list Z) : Z :=
  match idx with
  | [] => -1
  | i :: idx =>
      if negb ((assn s).[i] =? 0) then random_scan s nxt on idx
      else if on =? nxt then i
      else random_scan s nxt (on + 1) idx
  end.

(** [r] is the value [rand()] returns. *)
Definition random_next_var (F : formula) (r : Z) (s : state) : Z :=
  let nleft := countb (λ i, (assn s).[i] =? 0) (range 0 (V F)) in
  if nleft =? 0 then -1
  else random_scan s (Z.rem r nleft) 0 (range 0 (V F)).

Definition try_value (F : formula)
    (dfs : Z → state → option (bool * state))
    (v sign l : Z) (s : state) : option (bool * state) :=
  match assign F v sign s with
  | (true, s) =>
      match do_unit_propagations F ((npropped_at s).[v]) s with
      | None => None
      | Some (true, s) =>
          match dfs (l + 1) s with
          | None => None
          | Some (true, s) => Some (true, s)
          | Some (false, s) =>
              let s :=
                undo_unit_propagations F ((npropped_at s).[v]) (npropped s) s in
              Some (false, unassign F v sign s)
          end
      | Some (false, s) => Some (false, unassign F v sign s)
      end
  | (false, s) => Some (false, s)
  end.

(** The value [dfs] tries first for [v], and the other one. *)
Definition first_try (s : state) (v : Z) : Z :=
  if (npos_app s).[v] >? (nneg_app s).[v] then 1 else -1.

Definition second_try (s : state) (v : Z) : Z :=
  if (npos_app s).[v] >? (nneg_app s).[v] then -1 else 1.

(** The state in which [dfs] calls [try_value] for the first value:
    [npropped_at[v] = npropped] and the two conflict sets of [v] cleared. *)
Definition open_level (v : Z) (s : state) : state :=
  clear_conflicts v (set_npropped_at ((npropped_at s).[v <- npropped s]) s).

Fixpoint dfs_with (pick : formula → state → Z) (F : formula) (fuel : nat)
    (l : Z) (s : state) : option (bool * state) :=
  match fuel with
  | O => None
  | S fuel =>
      if nunsat s =? 0 then Some (true, s)
      else
        let v := pick F s in
        if v =? -1 then Some (false, s)
        else
          let first_try := first_try s v in
          let second_try := second_try s v in
          let s := open_level v s in
          match try_value F (dfs_with pick F fuel) v first_try l s with
          | None => None
          | Some (true, s) => Some (true, s)
          | Some (false, s) =>
              if in_conflict_set v s
              then try_value F (dfs_with pick F fuel) v second_try l
                     (augment_conflict v s)
              else Some (false, s)
          end
  end.

Definition dfs : formula → nat → Z → state → option (bool * state) :=
  dfs_with most_constrained_var.

(** ** What [dfs] needs of the picking function *)

Class Heuristic (pick : formula → state → Z) : Prop :=
  pick_unset : ∀ F s, pick F s ≠ -1 → 0 ≤ pick F s < V F ∧ (assn s).[pick F s] = 0.

(** The tally that [most_constrained_var] maximises. *)
Definition tally (s : state) (i : Z) : Z := (npos_app s).[i] + (nneg_app s).[i].

(** The unset variables, in increasing order. *)
Definition unset_vars (F : formula) (s : state) : list Z :=
  filter (λ i, (assn s).[i] = 0) (range 0 (V F)).

(** ** The picking functions *)

Section pickers.
Context (F : formula) (s : state).
Implicit Types (i v n : Z) (acc : Z * Z).

(** The invariant of the loop of [most_constrained_var] before index [n]. *)
Lemma most_constrained_loop n :
  0 ≤ n →
  let r := foldl (most_constrained_step s) (0, -1) (range 0 n) in
  (∀ i, 0 ≤ i < n → (assn s).[i] = 0 → tally s i ≤ r.1 ∧ (i < r.2 → tally s i < r.1))
  ∧ (r = (0, -1) ∨ 0 ≤ r.2 < n ∧ (assn s).[r.2] = 0 ∧ tally s r.2 = r.1 ∧ 0 < r.1).
Proof.
  intros Hn. apply (foldl_range_inv _ (λ n r,
    (∀ i, 0 ≤ i < n → (assn s).[i] = 0 → tally s i ≤ r.1 ∧ (i < r.2 → tally s i < r.1))
    ∧ (r = (0, -1) ∨ 0 ≤ r.2 < n ∧ (assn s).[r.2] = 0 ∧ tally s r.2 = r.1 ∧ 0 < r.1)));
    [done | split; [lia | by left] |].
  intros k [m v] Hk [Hmax Hr]. unfold most_constrained_step, tally in *.
  simpl in *. assert (0 ≤ m) by (destruct Hr as [[= -> ->]|]; lia).
  destruct (Z.eqb_spec ((assn s).[k]) 0) as [Ha|Ha]; simpl.
  - destruct (Z.gtb_spec ((npos_app s).[k] + (nneg_app s).[k]) m); simpl.
    + split; [| right; lia]. intros i Hi Hai.
      destruct (decide (i = k)) as [->|]; [lia |].
      destruct (Hmax i ltac:(lia) Hai). lia.
    + split; [| destruct Hr as [|]; [by left | right; lia]]. intros i Hi Hai.
      destruct (decide (i = k)) as [->|]; [| apply Hmax; [lia | done]].
      split; [lia |]. destruct Hr as [[= -> ->]|]; lia.
  - split; [| destruct Hr as [|]; [by left | right; lia]]. intros i Hi Hai.
    destruct (decide (i = k)) as [->|]; [done | apply Hmax; [lia | done]].
Qed.

Lemma random_scan_lookup nxt on idx :
  on ≤ nxt →
  random_scan s nxt on idx
  = default (-1) (filter (λ i, (assn s).[i] = 0) idx !! Z.to_nat (nxt - on)).
Proof.
  revert on. induction idx as [|i idx IH]; intros on Hon; simpl; [done |].
  rewrite filter_cons. destruct (Z.eqb_spec ((assn s).[i]) 0) as [Ha|Ha]; simpl.
  - rewrite decide_True by done. destruct (Z.eqb_spec on nxt) as [->|Hne].
    + by rewrite Z.sub_diag.
    + rewrite IH by lia.
      replace (Z.to_nat (nxt - on)) with (S (Z.to_nat (nxt - (on + 1)))) by lia.
      done.
  - rewrite decide_False by done. by apply IH.
Qed.

Lemma nleft_unset_vars :
  countb (λ i, (assn s).[i] =? 0) (range 0 (V F))
  = Z.of_nat (length (unset_vars F s)).
Proof.
  unfold countb, unset_vars. do 2 f_equal. apply list_filter_iff.
  intros i. by rewrite Z.eqb_eq.
Qed.
End pickers.

Lemma most_constrained_var_cases F s :
  let v := most_constrained_var F s in
  (v = -1 ∧ ∀ i, 0 ≤ i < V F → (assn s).[i] = 0 → tally s i ≤ 0)
  ∨ (0 ≤ v < V F ∧ (assn s).[v] = 0 ∧ 0 < tally s v
     ∧ ∀ i, 0 ≤ i < V F → (assn s).[i] = 0 →
            tally s i ≤ tally s v ∧ (i < v → tally s i < tally s v)).
Proof.
  unfold most_constrained_var. destruct (decide (0 ≤ V F)) as [HV|HV].
  - destruct (most_constrained_loop s (V F) HV) as [Hmax Hr]. cbv zeta in *.
    destruct Hr as [Hr|(? & ? & Ht & ?)].
    + left. rewrite Hr in *. split; [done |]. intros i Hi Ha.
      by destruct (Hmax i Hi Ha).
    + right. rewrite Ht. repeat split; (done || lia || by apply Hmax).
  - left. rewrite range_nil by lia. split; [done | lia].
Qed.

Lemma random_next_var_lookup F r s :
  0 ≤ r →
  random_next_var F r s
  = default (-1) (unset_vars F s
                    !! (Z.to_nat r `mod` length (unset_vars F s))%nat).
Proof.
  intros Hr. unfold random_next_var. rewrite nleft_unset_vars.
  destruct (Z.eqb_spec (Z.of_nat (length (unset_vars F s))) 0) as [H0|H0].
  - destruct (unset_vars F s); [done | simpl in H0; lia].
  - rewrite random_scan_lookup, Z.sub_0_r by (apply Z.rem_nonneg; lia).
    do 2 f_equal. rewrite Z.rem_mod_nonneg by lia.
    rewrite <- (Z2Nat.id r) at 1 by done. rewrite <- Nat2Z.inj_mod. lia.
Qed.

#[global] Instance most_constrained_heuristic : Heuristic most_constrained_var.
Proof.
  intros F s Hv. destruct (most_constrained_var_cases F s) as [[? _]|H];
    [done | tauto].
Qed.

Lemma random_heuristic r : 0 ≤ r → Heuristic (λ F s, random_next_var F r s).
Proof.
  intros Hr F s. rewrite random_next_var_lookup by done.
  destruct (_ !! _) as [v|] eqn:E; [intros _ | done]. simpl.
  by apply list_elem_of_lookup_2, list_elem_of_filter in E as [? ?%elem_of_range].
Qed.

(** ** The recursion *)

Section dfs.
Context (pick : formula → state → Z) (F : formula).
Implicit Types (d : Z → state → option (bool * state)) (s : state).

(** [try_value] answers [true] only with an answer [true] of the
    recursive call. *)
Lemma try_value_true (P : state → Prop) d v sign l s s' :
  (∀ l s s', d l s = Some (true, s') → P s') →
  try_value F d v sign l s = Some (true, s') → P s'.
Proof.
  intros Hd. unfold try_value. destruct (assign F v sign s) as [[] s1]; [| done].
  destruct (do_unit_propagations _ _ _) as [[[] s2]|]; try done.
  destruct (d (l + 1) s2) as [[[] s3]|] eqn:E; try done.
  intros [= <-]. eauto.
Qed.

Lemma dfs_with_true_nunsat fuel l s s' :
  dfs_with pick F fuel l s = Some (true, s') → nunsat s' = 0.
Proof.
  revert l s s'. induction fuel as [|fuel IH]; [done |]. intros l s s'. simpl.
  destruct (Z.eqb_spec (nunsat s) 0); [by intros [= <-] |].
  destruct (_ =? -1); [done |].
  destruct (try_value _ _ _ (first_try _ _) _ _) as [[[] s1]|] eqn:E1; try done.
  - intros [= <-]. exact (try_value_true (λ s, nunsat s = 0) _ _ _ _ _ _ IH E1).
  - destruct (in_conflict_set _ _); [| done]. intros E2.
    exact (try_value_true (λ s, nunsat s = 0) _ _ _ _ _ _ IH E2).
Qed.

(** More fuel does not change an answer. *)
Lemma try_value_mono d d' v sign l s r :
  (∀ l s r, d l s = Some r → d' l s = Some r) →
  try_value F d v sign l s = Some r → try_value F d' v sign l s = Some r.
Proof.
  intros Hd. unfold try_value. destruct (assign F v sign s) as [[] s1]; [| done].
  destruct (do_unit_propagations _ _ _) as [[[] s2]|]; try done.
  destruct (d (l + 1) s2) as [r2|] eqn:E; [| done].
  by rewrite (Hd _ _ _ E).
Qed.

Lemma dfs_with_fuel_mono fuel fuel' l s r :
  (fuel ≤ fuel')%nat →
  dfs_with pick F fuel l s = Some r → dfs_with pick F fuel' l s = Some r.
Proof.
  revert fuel' l s r. induction fuel as [|fuel IH]; [done |].
  intros [|fuel'] l s r Hle; [lia |]. simpl.
  destruct (nunsat s =? 0); [done |]. destruct (_ =? -1); [done |].
  assert (∀ l s r, dfs_with pick F fuel l s = Some r
                   → dfs_with pick F fuel' l s = Some r) as Hd
    by (intros; apply IH; [lia | done]).
  destruct (try_value _ (dfs_with pick F fuel) _ (first_try _ _) _ _)
    as [[b s1]|] eqn:E1; [| done].
  rewrite (try_value_mono _ _ _ _ _ _ _ Hd E1). destruct b; [done |].
  destruct (in_conflict_set _ _); [| done]. by apply try_value_mono.
Qed.

(** When [assign] refuses the first value, [try_value] has left
    [in_conflict[v]] empty and the level ends there. *)
Lemma dfs_with_first_assign_fails fuel l s s1 :
  nunsat s ≠ 0 → pick F s ≠ -1 →
  assign F (pick F s) (first_try s (pick F s)) (open_level (pick F s) s)
    = (false, s1) →
  dfs_with pick F (S fuel) l s = Some (false, s1).
Proof.
  intros Hn Hv E. simpl.
  destruct (Z.eqb_spec (nunsat s) 0); [done |].
  destruct (Z.eqb_spec (pick F s) (-1)); [done |].
  unfold try_value. rewrite E.
  by rewrite (assign_false_in_conflict _ _ _ _ _ E).
Qed.
End dfs.

(** ** Theorems of the component *)

(** C29: [most_constrained_var] returns [-1] exactly when no unset variable
    has a positive tally; otherwise it returns an unset variable of the
    formula whose tally [npos_app + nneg_app] is positive and maximal among
    the unset variables, the one of lowest index among those (spec 4.5). *)
Theorem most_constrained_var_spec F s :
  let v := most_constrained_var F s in
  (v = -1 ∧ ∀ i, 0 ≤ i < V F → (assn s).[i] = 0 → tally s i ≤ 0)
  ∨ (0 ≤ v < V F ∧ (assn s).[v] = 0 ∧ 0 < tally s v
     ∧ ∀ i, 0 ≤ i < V F → (assn s).[i] = 0 →
            tally s i ≤ tally s v ∧ (i < v → tally s i < tally s v)).
Proof. apply most_constrained_var_cases. Qed.

(** C30: for a value [r >= 0] of [rand()], [random_next_var] returns [-1]
    when every variable is set, and otherwise the unset variable number
    [r % nleft], counting the unset variables from 0 in increasing order;
    so its result is [-1] or an unset variable of the formula. *)
Theorem random_next_var_spec F r s :
  0 ≤ r →
  random_next_var F r s
  = default (-1) (unset_vars F s
                    !! (Z.to_nat r `mod` length (unset_vars F s))%nat)
  ∧ (random_next_var F r s ≠ -1 →
     0 ≤ random_next_var F r s < V F ∧ (assn s).[random_next_var F r s] = 0).
Proof.
  intros Hr. split; [by apply random_next_var_lookup |].
  apply (random_heuristic r Hr).
Qed.

Lemma random_next_var_spec_witness :
  random_next_var example_formula 5 (init_state example_formula) = 2.
Proof.
  rewrite (proj1 (random_next_var_spec example_formula 5
                    (init_state example_formula) ltac:(lia))).
  by vm_compute.
Defined.

(** An answer [true] of [dfs] comes from the test [nunsat == 0]: in
    the state it leaves, [nunsat] is 0. *)
Theorem dfs_true_nunsat F fuel l s s' :
  dfs F fuel l s = Some (true, s') → nunsat s' = 0.
Proof. apply dfs_with_true_nunsat. Qed.

Lemma dfs_true_nunsat_witness :
  ∃ s', dfs (formula_of 1 [[1]]) 3 0 (init_state (formula_of 1 [[1]]))
        = Some (true, s') ∧ nunsat s' = 0.
Proof.
  destruct (dfs (formula_of 1 [[1]]) 3 0 (init_state (formula_of 1 [[1]])))
    as [[[] s']|] eqn:E; [| by vm_compute in E..].
  exists s'. split; [done |]. exact (dfs_true_nunsat _ _ _ _ _ E).
Defined.

(** C11: when [assign] refuses the first value of the branching variable,
    [dfs] returns [false] without a try of the second value:
    [backprop_conflict] has emptied [in_conflict[v]], the set the test of
    line 344 reads. *)
Theorem dfs_first_assign_fails F fuel l s s1 :
  nunsat s ≠ 0 → most_constrained_var F s ≠ -1 →
  assign F (most_constrained_var F s)
    (first_try s (most_constrained_var F s))
    (open_level (most_constrained_var F s) s) = (false, s1) →
  dfs F (S fuel) l s = Some (false, s1).
Proof. apply dfs_with_first_assign_fails. Qed.

Lemma dfs_first_assign_fails_witness :
  ∃ s1, dfs example_formula 1 0 (init_state example_formula) = Some (false, s1).
Proof.
  destruct (assign example_formula
              (most_constrained_var example_formula (init_state example_formula))
              (first_try (init_state example_formula)
                 (most_constrained_var example_formula (init_state example_formula)))
              (open_level
                 (most_constrained_var example_formula (init_state example_formula))
                 (init_state example_formula))) as [[] s1] eqn:E;
    [by vm_compute in E |].
  exists s1.
  refine (dfs_first_assign_fails example_formula 0 0 _ s1 _ _ E); by vm_compute.
Defined.

(** C26: a refused value is not undone in the queue.  When
    [assign(v, sign)] fails, [try_value] returns false in the state that
    [assign] has left, without a call of [undo_unit_propagations]:
    [npropped] is not set back to [npropped_at[v]], the entries of the
    call are in place and the entries that [assign] had queued before the
    conflict follow them.  Each of these is a literal of a variable of
    the formula that is unset, so the undo loop of an outer level walks
    over it without effect. *)
Theorem try_value_refused F d v sign l s s1 :
  wf_formula F → inv F s → 0 ≤ v < V F → sign_ok sign →
  assign F v sign s = (false, s1) →
  try_value F d v sign l s = Some (false, s1)
  ∧ npropped s ≤ npropped s1
  ∧ (∀ k, k < npropped s → entry s1 k = entry s k)
  ∧ ∀ k, npropped s ≤ k < npropped s1 →
      0 ≤ var_of (entry s1 k) < V F ∧ (assn s1).[var_of (entry s1 k)] = 0.
Proof.
  intros HF Hi Hv Hs E. unfold try_value. rewrite E.
  destruct (assign_false_junk F HF v sign Hv Hs s s1 Hi E) as [[Hn Hq] Hj].
  split_and!; [done | done | exact Hq | exact Hj].
Qed.

Lemma try_value_refused_witness :
  ∃ s1, try_value refused_formula (λ _ _, None) 0 (-1) 0
          (init_state refused_formula) = Some (false, s1)
        ∧ npropped (init_state refused_formula) = 0 ∧ npropped s1 = 1
        ∧ entry s1 0 = 2 ∧ (assn s1).[1] = 0.
Proof.
  pose proof refused_formula_wf as HF.
  destruct (assign refused_formula 0 (-1) (init_state refused_formula))
    as [[] s1] eqn:E; [by vm_compute in E |].
  exists s1. pose proof (f_equal snd E) as E2. simpl in E2.
  split; [| rewrite <- E2; by vm_compute].
  exact (proj1 (try_value_refused refused_formula (λ _ _, None) 0 (-1) 0 _ s1 HF
                  (init_state_inv _ HF) ltac:(by vm_compute) ltac:(by right) E)).
Defined.

(** The answer of [dfs] does not depend on the fuel of the model: a
    run that ends within [fuel] levels ends with the same answer and the
    same state within any larger number. *)
Theorem dfs_fuel_mono F fuel fuel' l s r :
  (fuel ≤ fuel')%nat → dfs F fuel l s = Some r → dfs F fuel' l s = Some r.
Proof. apply dfs_with_fuel_mono. Qed.

Lemma dfs_fuel_mono_witness :
  ∃ r, dfs example_formula 7 0 (init_state example_formula) = Some r.
Proof.
  destruct (dfs example_formula 1 0 (init_state example_formula)) as [r|] eqn:E;
    [| by vm_compute in E].
  exists r. exact (dfs_fuel_mono example_formula 1 7 0 _ r ltac:(lia) E).
Defined.
