(* ===== verification/Loader.v ===== *)
(** * The loader and the driver

    The part of [main] of [src/sat.cpp] after the problem line: the loop
    that reads [C] clauses and counts the occurrences, the loop that
    allocates the occurrence lists, the loop that fills them, the
    initialisation of [assn], [satisfier], [rem] and [nunsat], the call of
    [dfs(0)] and the report.  The input is the sequence of integers that
    the calls [scanf("%d")] deliver.  Line 401 does not test the result
    of [scanf]: where the stream has ended the program goes on with an
    indeterminate [v] and has no error exit.  The model does not say what
    happens then: [read_clause] has no result ([None]) on a stream that
    ends inside a clause, and every theorem on [load] is about a body
    that holds its [C] clauses. *)

From S2P Require Import Prelude Formula Core State Conflict Assign Propagate Search.

(** ** Operations *)

(** What the first loop of [main] has built so far. *)
Record loaded := mkLoaded {
  l_clauses : list (list Z);
  l_napps : arr;
  l_npos : arr;
  l_nneg : arr;
}.

(** The inner [while(true)] of the first loop: literals up to the next [0].
    [acc] is the clause read so far, reversed.  [None] marks the end of
    what is modelled, not an exit of the program: on an ended stream
    [scanf] leaves [v] indeterminate and the loop goes on. *)
Fixpoint read_clause (toks : list Z) (acc : list Z) (ld : loaded)
  : option (list Z * list Z * loaded) :=
  match toks with
  | [] => None
  | v :: toks =>
      if v =? 0 then Some (rev acc, toks, ld)
      else
        let varid := var_of v in
        let ld :=
          mkLoaded (l_clauses ld)
            ((l_napps ld).[varid <- (l_napps ld).[varid] + 1])
            (if v <? 0 then l_npos ld
             else (l_npos ld).[varid <- (l_npos ld).[varid] + 1])
            (if v <? 0 then (l_nneg ld).[varid <- (l_nneg ld).[varid] + 1]
             else l_nneg ld) in
        read_clause toks (v :: acc) ld
  end.

(** The first loop: [n] clauses. *)
Fixpoint read_clauses (n : nat) (toks : list Z) (ld : loaded) : option loaded :=
  match n with
  | O => Some ld
  | S n =>
      match read_clause toks [] ld with
      | None => None
      | Some (cl, toks, ld) =>
          read_clauses n toks
            (mkLoaded (l_clauses ld ++ [cl]) (l_napps ld) (l_npos ld) (l_nneg ld))
      end
  end.

(** The third loop: clause [i] appends its entry to the list of the
    variable of each of its literals. *)
Definition fill_clause (i : Z) (apps : gmap Z (list Z)) (cl : list Z)
  : gmap Z (list Z) :=
  foldl (λ apps lit,
           let varid := var_of lit in
           let app_enc := if lit <? 0 then - (i + 1) else i + 1 in
           <[varid := default [] (apps !! varid) ++ [app_enc]]> apps)
    apps cl.

Fixpoint fill_appearances (i : Z) (cls : list (list Z)) (apps : gmap Z (list Z))
  : gmap Z (list Z) :=
  match cls with
  | [] => apps
  | cl :: cls => fill_appearances (i + 1) cls (fill_clause i apps cl)
  end.

(** The store once the occurrence lists are filled. *)
Definition loaded_formula (nv nc : Z) (ld : loaded) : formula :=
  mkFormula nv nc (l_clauses ld) (fill_appearances 0 (l_clauses ld) ∅).

(** The state with which [main] calls [dfs(0)]: [assn] and [satisfier]
    zero, [rem[i] = csizes[i]], [nunsat = C], the tallies as counted while
    reading. *)
Definition loaded_state (F : formula) (ld : loaded) : state :=
  mkState ∅ ∅
    (foldl (λ a i, a.[i <- csizes F i]) ∅ (range 0 (C F)))
    (C F) (l_npos ld) (l_nneg ld) ∅ 0 ∅ ∅ ∅ ∅.

Definition load (nv nc : Z) (toks : list Z) : option (formula * state) :=
  match read_clauses (Z.to_nat nc) toks (mkLoaded [] ∅ ∅ ∅) with
  | None => None
  | Some ld =>
      let F := loaded_formula nv nc ld in
      Some (F, loaded_state F ld)
  end.

(** ** Reference definitions *)

(** The integers of the body of a DIMACS file: every clause, then [0]. *)
Definition dimacs_of (cls : list (list Z)) : list Z :=
  concat ((λ cl, cl ++ [0]) <$> cls).

(** The literal [l] is a literal of variable [v] of polarity [neg]. *)
Definition is_lit (neg : bool) (v l : Z) : bool :=
  (var_of l =? v) && bool_decide ((l <? 0) = neg).

(** The clause list is the body of a DIMACS file over [nv] variables. *)
Definition dimacs_ok (nv : Z) (cls : list (list Z)) : Prop :=
  Forall (Forall (λ l, l ≠ 0 ∧ Z.abs l ≤ nv)) cls.

(** What the program prints. *)
Inductive output :=
  | SAT (lines : list (Z * Z))
  | UNSAT.

(** The report of [main]: [i+1] and [assn[i] > 0 ? 1 : 0] for every
    variable, or [UNSAT]. *)
Definition report (F : formula) (r : bool * state) : output :=
  if r.1
  then SAT ((λ i, (i + 1, if (assn r.2).[i] >? 0 then 1 else 0)) <$> range 0 (V F))
  else UNSAT.

(** [main] from the problem line on, with [fuel] for the depth of [dfs]. *)
Definition solve (fuel : nat) (nv nc : Z) (toks : list Z) : option output :=
  match load nv nc toks with
  | None => None
  | Some (F, s) =>
      match dfs F fuel 0 s with
      | None => None
      | Some r => Some (report F r)
      end
  end.

(** ** Reading *)

Section reading.
Implicit Types (cl acc toks rest : list Z) (cls : list (list Z)) (ld : loaded).

(** What a stretch of literals adds to the counts. *)
Definition counted (ld ld' : loaded) (lits : list Z) : Prop :=
  (∀ v, (l_npos ld').[v] = (l_npos ld).[v] + countb (is_lit false v) lits)
  ∧ (∀ v, (l_nneg ld').[v] = (l_nneg ld).[v] + countb (is_lit true v) lits).

Lemma counted_nil ld : counted ld ld [].
Proof. split; intros v; rewrite countb_nil; lia. Qed.

Lemma counted_app ld1 ld2 ld3 l1 l2 :
  counted ld1 ld2 l1 → counted ld2 ld3 l2 → counted ld1 ld3 (l1 ++ l2).
Proof.
  intros [H1 H2] [H3 H4]. split; intros v; rewrite countb_app.
  - rewrite H3, H1. lia.
  - rewrite H4, H2. lia.
Qed.

Lemma read_clause_spec cl rest acc ld :
  Forall (λ l, l ≠ 0) cl →
  ∃ ld', read_clause (cl ++ 0 :: rest) acc ld = Some (rev acc ++ cl, rest, ld')
         ∧ l_clauses ld' = l_clauses ld ∧ counted ld ld' cl.
Proof.
  revert acc ld. induction cl as [|l cl IH]; intros acc ld Hcl.
  { exists ld. simpl. rewrite app_nil_r. split_and!; [done.. | apply counted_nil]. }
  apply Forall_cons in Hcl as [Hl Hcl]. simpl.
  destruct (Z.eqb_spec l 0) as [|_]; [done |].
  match goal with |- context [read_clause _ _ ?ld1] =>
    destruct (IH (l :: acc) ld1 Hcl) as (ld' & -> & Hc & Hn) end.
  exists ld'. simpl in *. rewrite <- app_assoc. split_and!; [done.. |].
  refine (counted_app _ _ _ [l] cl _ Hn).
  split; intros v; simpl; rewrite countb_cons, countb_nil; unfold is_lit;
    destruct (Z.ltb_spec l 0); rewrite ?get_upd;
    repeat case_decide; repeat case_ztest; simpl; subst; lia.
Qed.

Lemma dimacs_of_cons cl cls : dimacs_of (cl :: cls) = cl ++ 0 :: dimacs_of cls.
Proof. unfold dimacs_of. simpl. by rewrite <- app_assoc. Qed.

Lemma read_clauses_spec cls rest ld :
  Forall (Forall (λ l, l ≠ 0)) cls →
  ∃ ld', read_clauses (length cls) (dimacs_of cls ++ rest) ld = Some ld'
         ∧ l_clauses ld' = l_clauses ld ++ cls ∧ counted ld ld' (concat cls).
Proof.
  revert ld. induction cls as [|cl cls IH]; intros ld Hcls.
  { exists ld. simpl. rewrite app_nil_r. split_and!; [done.. | apply counted_nil]. }
  apply Forall_cons in Hcls as [Hcl Hcls].
  rewrite dimacs_of_cons, <- app_assoc. cbn [read_clauses length app].
  destruct (read_clause_spec cl (dimacs_of cls ++ rest) [] ld Hcl)
    as (ld1 & -> & Hc1 & Hn1).
  simpl. match goal with |- context [read_clauses _ _ ?ld2] =>
    destruct (IH ld2 Hcls) as (ld' & -> & Hc & Hn) end.
  exists ld'. simpl in *. rewrite Hc, Hc1, <- app_assoc. split_and!; [done.. |].
  eapply counted_app; [apply Hn1 | apply Hn].
Qed.
End reading.

(** ** Filling the occurrence lists *)

Section filling.
Implicit Types (cl : list Z) (cls : list (list Z)) (apps : gmap Z (list Z)).

Lemma fill_clause_lookup i apps cl v :
  default [] (fill_clause i apps cl !! v)
  = default [] (apps !! v) ++ occ_in v i cl.
Proof.
  unfold fill_clause, occ_in. revert apps.
  induction cl as [|l cl IH]; intros apps; simpl; [by rewrite app_nil_r |].
  rewrite IH, filter_cons. destruct (decide (var_of l = v)) as [<-|Hne].
  - rewrite lookup_insert_eq. simpl. by rewrite <- app_assoc.
  - by rewrite lookup_insert_ne.
Qed.

Lemma fill_appearances_lookup i cls apps v :
  default [] (fill_appearances i cls apps !! v)
  = default [] (apps !! v) ++ occ_from v i cls.
Proof.
  revert i apps. induction cls as [|cl cls IH]; intros i apps; simpl;
    [by rewrite app_nil_r |].
  by rewrite IH, fill_clause_lookup, <- app_assoc.
Qed.
End filling.

(** ** Loading the body of a DIMACS file *)

Lemma occ_from_none v i cls :
  (∀ cl l, cl ∈ cls → l ∈ cl → var_of l ≠ v) → occ_from v i cls = [].
Proof.
  intros H. apply elem_of_nil_inv. intros e.
  rewrite elem_of_occ_from. intros (j & cl & l & Hj & Hl & Hv & _).
  eapply H; [by eapply list_elem_of_lookup_2 | done..].
Qed.

Section load.
Context (nv : Z) (cls : list (list Z)) (rest : list Z).
Context (Hcls : dimacs_ok nv cls).

Lemma dimacs_ok_lit cl l : cl ∈ cls → l ∈ cl → l ≠ 0 ∧ Z.abs l ≤ nv.
Proof.
  intros Hcl Hl. pose proof Hcls as H. unfold dimacs_ok in H.
  rewrite Forall_forall in H. specialize (H cl Hcl).
  rewrite Forall_forall in H. by apply H.
Qed.

Lemma dimacs_ok_nonzero : Forall (Forall (λ l, l ≠ 0)) cls.
Proof.
  eapply Forall_impl; [apply Hcls |]. intros cl Hcl. simpl in Hcl.
  eapply Forall_impl; [apply Hcl |]. by intros l [? _].
Qed.

Lemma load_dimacs :
  ∃ ld, load nv (Z.of_nat (length cls)) (dimacs_of cls ++ rest)
        = Some (loaded_formula nv (Z.of_nat (length cls)) ld,
                loaded_state (loaded_formula nv (Z.of_nat (length cls)) ld) ld)
        ∧ l_clauses ld = cls ∧ counted (mkLoaded [] ∅ ∅ ∅) ld (concat cls).
Proof.
  destruct (read_clauses_spec cls rest (mkLoaded [] ∅ ∅ ∅) dimacs_ok_nonzero)
    as (ld & E & Hc & Hn).
  exists ld. unfold load. by rewrite Nat2Z.id, E.
Qed.

Lemma loaded_apps ld v :
  l_clauses ld = cls →
  apps (loaded_formula nv (Z.of_nat (length cls)) ld) v = occurrences cls v.
Proof.
  intros Hc. unfold apps, loaded_formula. simpl.
  by rewrite fill_appearances_lookup, lookup_empty, Hc.
Qed.

Lemma loaded_wf ld :
  0 ≤ nv → l_clauses ld = cls →
  wf_formula (loaded_formula nv (Z.of_nat (length cls)) ld).
Proof.
  intros Hnv Hc. split; simpl; rewrite ?Hc; [done.. | | |].
  - intros cl l Hcl Hl. by apply (dimacs_ok_lit cl).
  - intros v _. by apply loaded_apps.
  - intros v Hv. rewrite loaded_apps by done. apply occ_from_none.
    intros cl l Hcl Hl Hvl. apply Hv.
    pose proof (dimacs_ok_lit cl l Hcl Hl). unfold var_of in Hvl. lia.
Qed.

Lemma loaded_tallies ld v :
  counted (mkLoaded [] ∅ ∅ ∅) ld (concat cls) →
  (l_npos ld).[v] = count_lits cls false v
  ∧ (l_nneg ld).[v] = count_lits cls true v.
Proof. intros [H1 H2]. by rewrite H1, H2, !get_empty. Qed.
End load.

(** The lines printed after a true answer denote a model. *)
Lemma report_sat F s :
  wf_formula F → inv F s → nunsat s = 0 →
  ∃ lines, report F (true, s) = SAT lines
           ∧ eval_formula (λ v, bool_decide ((v + 1, 1) ∈ lines)) F = true.
Proof.
  intros HF Hs Hn. eexists. split; [done |].
  rewrite <- (inv_model F s HF Hs Hn). apply eval_formula_ext.
  intros cl l Hcl Hl. unfold model_of. simpl.
  pose proof (wf_lits F HF cl l Hcl Hl) as [Hl0 HlV].
  destruct (Z.ltb_spec 0 ((assn s).[var_of l])) as [Hp|Hp].
  - apply bool_decide_eq_true, list_elem_of_fmap. exists (var_of l).
    rewrite elem_of_range. unfold var_of in *.
    destruct (Z.gtb_spec ((assn s).[Z.abs l - 1]) 0); [split; [done | lia] | lia].
  - apply bool_decide_eq_false. intros (i & [= Hi H1] & _)%list_elem_of_fmap.
    replace i with (var_of l) in H1 by lia.
    destruct (Z.gtb_spec ((assn s).[var_of l]) 0); [lia | done].
Qed.

(** The store and the state that [main] builds from a DIMACS body. *)
Lemma load_ready nv cls rest F s :
  0 ≤ nv → dimacs_ok nv cls →
  load nv (Z.of_nat (length cls)) (dimacs_of cls ++ rest) = Some (F, s) →
  wf_formula F ∧ inv F s ∧ V F = nv ∧ clauses F = cls.
Proof.
  intros Hnv Hcls E. destruct (load_dimacs nv cls rest Hcls) as (ld & E' & Hc & Hn).
  rewrite E in E'. injection E' as -> ->.
  pose proof (loaded_wf nv cls Hcls ld Hnv Hc) as HF.
  split_and!; [done | by apply cinit_cinv | done | done].
Qed.

(** ** Theorems of the component *)

(** C23: reading back the printed clauses: on the integers of a DIMACS body
    for the clause list [cls], whatever follows them, [main] builds a store
    with [V] as given, [C] the number of clauses and [clauses] the list
    [cls] itself. *)
Theorem load_roundtrip nv cls rest :
  dimacs_ok nv cls →
  ∃ F s, load nv (Z.of_nat (length cls)) (dimacs_of cls ++ rest) = Some (F, s)
         ∧ V F = nv ∧ C F = Z.of_nat (length cls) ∧ clauses F = cls.
Proof.
  intros Hcls. destruct (load_dimacs nv cls rest Hcls) as (ld & E & Hc & _).
  eexists _, _. split; [apply E |]. done.
Qed.

Lemma load_roundtrip_witness :
  ∃ F s, load 3 (Z.of_nat (length [[1; 2]; [1; 2]; [-1]]))
              (dimacs_of [[1; 2]; [1; 2]; [-1]] ++ []) = Some (F, s)
         ∧ V F = 3 ∧ C F = Z.of_nat (length [[1; 2]; [1; 2]; [-1]])
         ∧ clauses F = [[1; 2]; [1; 2]; [-1]].
Proof.
  apply (load_roundtrip 3 [[1; 2]; [1; 2]; [-1]] []).
  unfold dimacs_ok. repeat constructor; lia.
Defined.

(** C22: the occurrence lists that the second and third loops of [main]
    build by appending are the reference lists [occurrences]: for every
    variable, the entries [±(c+1)] of its literals, clause by clause and
    within a clause in the order of the literals. *)
Theorem load_apps_occurrences nv cls rest F s :
  dimacs_ok nv cls →
  load nv (Z.of_nat (length cls)) (dimacs_of cls ++ rest) = Some (F, s) →
  ∀ v, apps F v = occurrences cls v.
Proof.
  intros Hcls E v. destruct (load_dimacs nv cls rest Hcls) as (ld & E' & Hc & _).
  rewrite E in E'. injection E' as -> _. by apply loaded_apps.
Qed.

Lemma load_apps_occurrences_witness :
  match load 3 (Z.of_nat (length [[1; 2]; [1; 2]; [-1]]))
             (dimacs_of [[1; 2]; [1; 2]; [-1]] ++ []) with
  | Some (F, _) => apps F 0 = [1; 2; -3]
  | None => False
  end.
Proof.
  destruct (load _ _ _) as [[F s]|] eqn:E; [| by vm_compute in E].
  assert (dimacs_ok 3 [[1; 2]; [1; 2]; [-1]]) as Hok
    by (unfold dimacs_ok; repeat constructor; lia).
  exact (load_apps_occurrences 3 [[1; 2]; [1; 2]; [-1]] [] F s Hok E 0).
Defined.

(** C19: the state with which [main] calls [dfs(0)] satisfies the invariant
    of the counters for the store it built, the store is well formed, the
    queue is empty, and the tallies count the literals of each variable by
    polarity. *)
Theorem load_establishes_inv nv cls rest F s :
  0 ≤ nv → dimacs_ok nv cls →
  load nv (Z.of_nat (length cls)) (dimacs_of cls ++ rest) = Some (F, s) →
  wf_formula F ∧ inv F s ∧ npropped s = 0
  ∧ ∀ v, (npos_app s).[v] = count_lits cls false v
         ∧ (nneg_app s).[v] = count_lits cls true v.
Proof.
  intros Hnv Hcls E. destruct (load_dimacs nv cls rest Hcls) as (ld & E' & Hc & Hn).
  rewrite E in E'. injection E' as -> ->.
  pose proof (loaded_wf nv cls Hcls ld Hnv Hc) as HF.
  split_and!; [done | by apply cinit_cinv | done |].
  intros v. by apply loaded_tallies.
Qed.

Lemma load_establishes_inv_witness :
  match load 3 (Z.of_nat (length [[1; 2]; [1; 2]; [-1]]))
             (dimacs_of [[1; 2]; [1; 2]; [-1]] ++ []) with
  | Some (F, s) => wf_formula F ∧ inv F s
  | None => False
  end.
Proof.
  destruct (load _ _ _) as [[F s]|] eqn:E; [| by vm_compute in E].
  assert (dimacs_ok 3 [[1; 2]; [1; 2]; [-1]]) as Hok
    by (unfold dimacs_ok; repeat constructor; lia).
  destruct (load_establishes_inv 3 [[1; 2]; [1; 2]; [-1]] [] F s
              ltac:(lia) Hok E) as (HF & Hi & _).
  exact (conj HF Hi).
Defined.

(** C18: when [dfs] has answered [true] in a state that satisfies the
    invariant with [nunsat = 0], the lines that [main] prints, read as a
    valuation (variable [i] true when the line [i 1] is printed), satisfy
    every clause of the formula. *)
Theorem report_model F s :
  wf_formula F → inv F s → nunsat s = 0 →
  ∃ lines, report F (true, s) = SAT lines
           ∧ eval_formula (λ v, bool_decide ((v + 1, 1) ∈ lines)) F = true.
Proof. apply report_sat. Qed.

Lemma report_model_witness :
  ∃ lines, report (formula_of 1 [[1]]) (true, (assign (formula_of 1 [[1]]) 0 1
                      (init_state (formula_of 1 [[1]]))).2) = SAT lines
           ∧ eval_formula (λ v, bool_decide ((v + 1, 1) ∈ lines))
               (formula_of 1 [[1]]) = true.
Proof.
  assert (wf_formula (formula_of 1 [[1]])) as HF
    by (apply wf_formulab_spec; by vm_compute).
  apply (report_model (formula_of 1 [[1]]) _ HF); [| by vm_compute].
  apply assign_inv; [done | simpl; lia | by left | by apply init_state_inv].
Defined.
