(* ===== verification/Sound.v ===== *)
(** * Soundness and termination of the search

    What [dfs] of [src/sat.cpp] promises, proved from the discipline of
    the queue of [Trail]:

    - [dfs_post]: the state [dfs] leaves satisfies the invariant [inv];
      with the answer [true], [nunsat] is 0, so the assignment satisfies
      every clause; with the answer [false] the level is [backtracked]:
      [assn], [satisfier], [rem] and [nunsat] read as at the call, and
      what the queue has gained are literals of unset variables;
    - [dfs] returns: the depth of the recursion is bounded by the number
      of unset variables, so fuel above [V] is enough on every state of
      the invariant;
    - the queue stays inside the [V * C] cells allocated for it;
    - for the driver: what [main] prints after a true answer is a model
      of the clauses it read, and [main] ends on every DIMACS body.

    The answer [false] is not claimed to mean that the formula is
    unsatisfiable: [Scenarios] shows that it does not. *)

From S2P Require Import Prelude Formula Core Restore State Conflict Assign Propagate Trail Search Loader.

(** ** Definitions *)

(** A false answer, of [try_value] or of [dfs], from state [s0]: the core
    is that of [s0]; the queue may have grown by entries of unset
    variables; [npropped_at] is as it was for the variables set in [s0];
    if the queue had room in [s0], it is within its capacity and nothing
    was written above it. *)
Record backtracked (F : formula) (s0 t : state) : Prop := {
  bt_core : t ≡c s0;
  bt_queue : appended (idle F t) s0 t;
  bt_npropped_at : ∀ u, (assn s0).[u] ≠ 0 →
    (npropped_at t).[u] = (npropped_at s0).[u];
  bt_room : room F s0 → above F s0 t ∧ npropped t ≤ total F;
}.

(** The assignment of the state satisfies the formula, read as the
    reporter reads it: [assn[v] > 0] is true. *)
Definition satisfied (F : formula) (s : state) : Prop :=
  eval_formula (model_of s) F = true.

(** What [dfs], called in state [s], promises of its answer. *)
Definition dfs_post (F : formula) (s : state) (r : bool * state) : Prop :=
  inv F r.2
  ∧ if r.1 then nunsat r.2 = 0 ∧ (room F s → room F r.2 ∧ above F s r.2)
    else backtracked F s r.2.

(** What [try_value] for [v] promises on top: after a false answer
    [npropped_at[v]] is as before, and the queue is back at it unless
    [in_conflict[v]] is empty. *)
Definition try_post (F : formula) (v : Z) (s : state) (r : bool * state) : Prop :=
  dfs_post F s r
  ∧ (r.1 = false →
     (npropped_at r.2).[v] = (npropped_at s).[v]
     ∧ (npropped r.2 = npropped s ∨ in_conflict_set v r.2 = false)).

(** The number of cells that [main] allocates for the queue (line 380). *)
Definition capacity (F : formula) : Z := V F * C F.

(** The fuel that is enough for [dfs]: one level per variable, and one
    for the call that finds [nunsat = 0] or no variable left. *)
Definition dfs_fuel (F : formula) : nat := S (Z.to_nat (V F)).

(** The same for [main], which knows [V] from the problem line. *)
Definition solve_fuel (nv : Z) : nat := S (Z.to_nat nv).

(** The valuation that the printed lines denote. *)
Definition printed (lines : list (Z * Z)) : valuation :=
  λ v, bool_decide ((v + 1, 1) ∈ lines).

(** ** Backtracked states *)

Lemma backtracked_frame F s t :
  core t = core s → queue t = queue s → npropped_at t = npropped_at s →
  backtracked F s t.
Proof.
  intros Hc Hq Hn.
  split; [by apply core_eq_of_core | by apply appended_same | |].
  - intros u _. by rewrite Hn.
  - injection Hq as Hpq Hnp _. intros Hr%room_npropped. rewrite Hnp.
    split; [intros k _; by rewrite Hpq | done].
Qed.

(** Room is read off the core and the length of the queue. *)
Lemma room_core_eq F s t :
  t ≡c s → npropped t = npropped s → room F s → room F t.
Proof.
  intros Hc Hn. unfold room. rewrite Hn.
  by rewrite (slack_ext F t s (λ u, core_eq_assn _ _ u Hc)).
Qed.

Lemma backtracked_refl F s : backtracked F s s.
Proof. by apply backtracked_frame. Qed.

(** Two backtracked runs in a row, the second from a queue of the length
    of the first. *)
Lemma backtracked_trans F s t u :
  backtracked F s t → npropped t = npropped s → backtracked F t u →
  backtracked F s u.
Proof.
  intros [Hc1 Hq1 Hn1 Hr1] Hnp [Hc2 Hq2 Hn2 Hr2]. split.
  - by etrans.
  - eapply appended_trans; [exact Hq1 | exact Hq2 | | done].
    intros l [Hr Hl]. split; [done |].
    by rewrite (core_eq_assn _ _ _ Hc2).
  - intros w Hw. rewrite Hn2, Hn1; [done.. |].
    by rewrite (core_eq_assn _ _ _ Hc1).
  - intros Hr. destruct (Hr1 Hr) as [Hab1 _].
    destruct (Hr2 (room_core_eq F s t Hc1 Hnp Hr)) as [Hab2 Hn].
    split; [by etrans | done].
Qed.

Lemma backtracked_inv F s t : inv F s → backtracked F s t → inv F t.
Proof. intros Hi [Hc _ _ _]. by rewrite Hc. Qed.

(** ** From an unwound level to a backtracked one *)

Section unwinding.
Context (F : formula) (HF : wf_formula F) (s0 : state) (H0 : inv F s0).
Context (v sign : Z) (Hv : 0 ≤ v < V F) (Hs : sign_ok sign).
Context (Ha0 : (assn s0).[v] = 0).
Implicit Types (s t : state) (k u : Z).

(** The level is backtracked. *)
Lemma unwound_backtracked t :
  unwound F s0 v sign t →
  backtracked F s0 (unassign F v sign t)
  ∧ npropped (unassign F v sign t) = npropped s0
  ∧ (npropped_at (unassign F v sign t)).[v] = (npropped_at s0).[v].
Proof.
  intros Hw.
  pose proof (unassign_unwound F HF s0 H0 v sign t Hv Hs Ha0 Hw) as Hc.
  destruct Hw as [_ _ _ _ Hn Hq Hat Hab].
  assert (queue (unassign F v sign t) = queue t) as [= Hpq Hnp _] by frame_solve.
  assert (npropped_at (unassign F v sign t) = npropped_at t) as Hnat
    by frame_solve.
  split_and!; [split | lia | rewrite Hnat; apply Hat; by right].
  - done.
  - split; [split; [lia |] | intros k Hk; lia].
    intros i Hi. rewrite Hpq. by apply Hq.
  - intros u Hu. rewrite Hnat. apply Hat. by left.
  - intros Hr. rewrite Hnp, Hn. split; [| by apply room_npropped].
    intros k Hk. rewrite Hpq. by apply Hab.
Qed.
(** The undo of [try_value] after a false answer of the level below. *)
Lemma trail_unwinds s t :
  trail F s0 v sign (npropped s) s → backtracked F s t →
  unwound F s0 v sign (undo_unit_propagations F (npropped s0) (npropped t) t).
Proof.
  intros [Hi Hb He Hq Hat Hd Hdone _ Hfresh Hnew Hrm] [Hc [Hqt Hj] Hnat Hbr].
  assert (∀ u, (assn t).[u] = (assn s).[u]) as Has
    by (intros u; apply (ceq_assn _ _ Hc u)).
  assert (∀ k, k < npropped s → entry t k = entry s k) as Hent
    by (intros k Hk; by apply (entry_extends s t)).
  assert (cextends F (core s0) (core t)) as Het
    by (unfold core_eq in Hc; by rewrite Hc).
  destruct Hqt as [Hn Hqt]. apply (undo_unwinds F HF s0 H0).
  - by rewrite Hc.
  - done.
  - etrans; [exact Hq | done].
  - lia.
  - by rewrite Has.
  - intros u Hu. rewrite Hnat, Hat; [done |].
    destruct Hu as [Hu| ->]; [| rewrite Hd; by apply sign_ok_nonzero].
    pose proof (cext_assn F _ _ He u Hu) as Hx. simpl in Hx. by rewrite Hx.
  - intros k Hk. destruct (decide (k < npropped s)) as [Hk'|Hk'].
    + rewrite Hent by done. destruct (Hdone k) as [? Hh]; [lia |].
      unfold undoable. rewrite Has.
      split; [done | split; [apply Hfresh; lia | by left]].
    + destruct (Hj k) as [? Hz]; [lia |].
      split; [done | split; [by apply (cextends_unset F _ _ _ Het) | by right]].
  - intros u Hu. rewrite Has in Hu.
    destruct (Hnew u Hu) as [|[|(k & Hk & <-)]]; [by left | by right; left |].
    right. right. exists k. split; [lia |]. f_equal. apply Hent. lia.
  - intros Hr0. destruct (Hrm Hr0) as [Hro Hab].
    destruct (Hbr Hro) as [Hab' _]. by etrans.
Qed.
End unwinding.

(** ** The measure of the recursion: the unset variables *)

Section measure.
Context (F : formula) (s t : state).
Context (Hst : ∀ u, (assn s).[u] ≠ 0 → (assn t).[u] ≠ 0).

Lemma filter_unset_le (l : list Z) :
  (length (filter (λ i, (assn t).[i] = 0%Z) l)
   ≤ length (filter (λ i, (assn s).[i] = 0%Z) l))%nat.
Proof.
  induction l as [|u l IH]; [done |]. rewrite !filter_cons.
  repeat case_decide; simpl; try lia. by destruct (Hst u).
Qed.

Lemma filter_unset_lt (l : list Z) v :
  v ∈ l → (assn s).[v] = 0 → (assn t).[v] ≠ 0 →
  (length (filter (λ i, (assn t).[i] = 0%Z) l)
   < length (filter (λ i, (assn s).[i] = 0%Z) l))%nat.
Proof.
  intros Hv Hs Ht. induction l as [|u l IH]; [by apply elem_of_nil in Hv |].
  rewrite !filter_cons. pose proof (filter_unset_le l).
  apply elem_of_cons in Hv as [<-|Hv].
  - rewrite decide_False, decide_True by done. simpl. lia.
  - specialize (IH Hv). repeat case_decide; simpl; try lia. by destruct (Hst u).
Qed.

Lemma unset_vars_le : (length (unset_vars F t) ≤ length (unset_vars F s))%nat.
Proof. apply filter_unset_le. Qed.

Lemma unset_vars_lt v :
  0 ≤ v < V F → (assn s).[v] = 0 → (assn t).[v] ≠ 0 →
  (length (unset_vars F t) < length (unset_vars F s))%nat.
Proof. intros Hv. apply filter_unset_lt. by apply elem_of_range. Qed.
End measure.

Lemma unset_vars_bound F s : (length (unset_vars F s) ≤ Z.to_nat (V F))%nat.
Proof.
  unfold unset_vars. etrans; [apply length_filter |].
  rewrite length_range. lia.
Qed.

(** ** One value of one level *)

Section level.
Context (F : formula) (HF : wf_formula F).
Context (d : Z → state → option (bool * state)).
Context (Hd : ∀ l s r, inv F s → d l s = Some r → dfs_post F s r).
Context (v sign : Z) (Hv : 0 ≤ v < V F) (Hs : sign_ok sign).
Context (s0 : state) (H0 : inv F s0) (Ha0 : (assn s0).[v] = 0).
Context (Hat0 : (npropped_at s0).[v] = npropped s0).
Implicit Types (s t : state) (l : Z) (r : bool * state).

(** The undo and the [unassign] with which [try_value] gives up. *)
Lemma unwound_try_post t :
  unwound F s0 v sign t → try_post F v s0 (false, unassign F v sign t).
Proof.
  intros Hw.
  destruct (unwound_backtracked F HF s0 H0 v sign Hv Hs Ha0 t Hw)
    as (Hb & Hn & Hat).
  split; [split; [by eapply backtracked_inv | done] |].
  intros _. split; [done | by left].
Qed.

(** A refused value: [assign] has undone itself. *)
Lemma assign_false_try_post s1 :
  assign F v sign s0 = (false, s1) → try_post F v s0 (false, s1).
Proof.
  intros E. pose proof (assign_inv F HF v sign Hv Hs s0 H0) as Hi.
  pose proof (frame npropped_at (λ s, (assign F v sign s).2) s0) as Hat.
  cbv beta in Hat. rewrite E in Hi, Hat. simpl in Hi, Hat.
  split; [split; [done | split] |].
  - by apply (assign_false_core F HF v sign Hv Hs).
  - by apply (assign_false_junk F HF v sign Hv Hs).
  - intros u _. simpl. by rewrite Hat.
  - intros Hr.
    destruct (assign_room F HF v sign s0 Hv (sign_ok_nonzero _ Hs) Hr)
      as (Hn & Hab & _).
    by rewrite E in Hn, Hab.
  - intros _. simpl. split; [by rewrite Hat | right].
    by apply (assign_false_in_conflict F v sign s0).
Qed.

Lemma try_value_spec l r :
  try_value F d v sign l s0 = Some r → try_post F v s0 r.
Proof.
  unfold try_value. destruct (assign F v sign s0) as [[] s1] eqn:E;
    [| intros [= <-]; by apply assign_false_try_post].
  pose proof (trail_init F HF s0 H0 v sign Hv Hs Ha0 s1 E) as Ht.
  rewrite (trail_npropped_at _ _ _ _ _ _ Ht), Hat0.
  destruct (do_unit_propagations F (npropped s0) s1) as [[[] s2]|] eqn:Ep;
    [| | done];
    pose proof (do_unit_propagations_spec F HF s0 H0 v sign Hs s1 _ s2 Ht Ep)
      as Ht2; simpl in Ht2;
    [| intros [= <-]; by apply unwound_try_post].
  pose proof (trail_inv _ _ _ _ _ _ Ht2) as Hi2.
  destruct (d (l + 1) s2) as [[[] s3]|] eqn:Ed; [| | done];
    destruct (Hd _ _ _ Hi2 Ed) as [Hi Hb]; simpl in Hi, Hb; intros [= <-].
  { destruct Hb as [Hn Hb]. split; [split; [done | split; [done |]] | done].
    intros Hr0. destruct (trail_room _ _ _ _ _ _ Ht2 Hr0) as [Hro Hab].
    destruct (Hb Hro) as [? ?]. split; [done | by etrans]. }
  assert ((npropped_at s3).[v] = npropped s0) as ->.
  { rewrite (bt_npropped_at _ _ _ Hb), (trail_npropped_at _ _ _ _ _ _ Ht2);
      [done |].
    rewrite (trail_decision _ _ _ _ _ _ Ht2). by apply sign_ok_nonzero. }
  apply unwound_try_post. by apply (trail_unwinds F HF s0 H0 v sign Hs s2 s3).
Qed.

(** [try_value] returns when the propagation and the level below do. *)
Lemma try_value_returns l (n : nat) :
  (∀ l s, inv F s → (length (unset_vars F s) < n)%nat → ∃ r, d l s = Some r) →
  (length (unset_vars F s0) ≤ n)%nat →
  ∃ r, try_value F d v sign l s0 = Some r.
Proof.
  intros Hdn Hn. unfold try_value.
  destruct (assign F v sign s0) as [[] s1] eqn:E; [| eauto].
  pose proof (trail_init F HF s0 H0 v sign Hv Hs Ha0 s1 E) as Ht.
  rewrite (trail_npropped_at _ _ _ _ _ _ Ht), Hat0.
  destruct (do_unit_propagations_total F HF (npropped s0) s1) as [[[] s2] Ep];
    rewrite Ep; [| eauto].
  pose proof (do_unit_propagations_spec F HF s0 H0 v sign Hs s1 _ s2 Ht Ep)
    as [Hi2 _ He2 _ _ Hd2 _ _ _ _].
  destruct (Hdn (l + 1) s2 Hi2) as [[[] s3] ->]; [| eauto..].
  eapply Nat.lt_le_trans; [| exact Hn].
  apply (unset_vars_lt F s0 s2) with v; [| done | done |].
  - intros u Hu. pose proof (cext_assn F _ _ He2 u Hu) as Hx. simpl in Hx.
    by rewrite Hx.
  - rewrite Hd2. by apply sign_ok_nonzero.
Qed.
End level.

(** ** The recursion *)

Section search.
Context (pick : formula → state → Z) `{!Heuristic pick}.
Context (F : formula) (HF : wf_formula F).
Implicit Types (s t : state) (l v : Z) (r : bool * state) (fuel : nat).

(** [dfs] opens a level in a state that is, for what [try_value] looks
    at, the state it was called in. *)
Lemma open_level_backtracked v s :
  (assn s).[v] = 0 → backtracked F s (open_level v s).
Proof.
  intros Ha. split; [done | by apply appended_same | |].
  - intros u Hu. simpl. rewrite get_upd_ne; [done | congruence].
  - intros Hr%room_npropped. by split.
Qed.

Lemma first_try_ok s v : sign_ok (first_try s v).
Proof. unfold first_try, sign_ok. destruct (_ >? _); auto. Qed.

Lemma second_try_ok s v : sign_ok (second_try s v).
Proof. unfold second_try, sign_ok. destruct (_ >? _); auto. Qed.

(** The answer of a level, from the answer of its last [try_value]. *)
Lemma dfs_post_trans s t r :
  backtracked F s t → npropped t = npropped s → dfs_post F t r →
  dfs_post F s r.
Proof.
  intros Hb Hn [Hi Hr]. split; [done |].
  destruct r.1; [| by eapply backtracked_trans].
  destruct Hr as [Hu Hr]. split; [done |]. intros Hrs.
  destruct (bt_room _ _ _ Hb Hrs) as [Hab _].
  destruct (Hr (room_core_eq F s t (bt_core _ _ _ Hb) Hn Hrs)) as [? ?].
  split; [done | by etrans].
Qed.

(** The first value has failed and [in_conflict[v]] is not empty: the
    state in which the second value is tried is a state for [try_value]. *)
Lemma second_try_ready v s0 s1 :
  inv F s0 → (assn s0).[v] = 0 → (npropped_at s0).[v] = npropped s0 →
  try_post F v s0 (false, s1) → in_conflict_set v s1 = true →
  backtracked F s0 (augment_conflict v s1)
  ∧ (assn (augment_conflict v s1)).[v] = 0
  ∧ (npropped_at (augment_conflict v s1)).[v] = npropped (augment_conflict v s1)
  ∧ npropped (augment_conflict v s1) = npropped s0.
Proof.
  intros H0 Ha0 Hat0 [[Hi Hb] Hx] Hin. simpl in Hi, Hb.
  destruct (Hx eq_refl) as [Hat [Hn|Hn]]; simpl in Hat, Hn; [| congruence].
  assert (backtracked F s1 (augment_conflict v s1)) as Hb'
    by (apply backtracked_frame; frame_solve).
  assert (npropped (augment_conflict v s1) = npropped s1) as Hq by frame_solve.
  assert (npropped_at (augment_conflict v s1) = npropped_at s1) as Hnat
    by frame_solve.
  pose proof (backtracked_trans F _ _ _ Hb Hn Hb') as Hb2.
  split_and!; [done | | congruence | congruence].
  by rewrite (core_eq_assn _ _ _ (bt_core _ _ _ Hb2)).
Qed.

(** What [dfs] promises. *)
Lemma dfs_with_spec fuel l s r :
  inv F s → dfs_with pick F fuel l s = Some r → dfs_post F s r.
Proof.
  revert l s r. induction fuel as [|fuel IH]; intros l s r Hi; [done |]. simpl.
  destruct (Z.eqb_spec (nunsat s) 0);
    [intros [= <-]; split; [done | split; [done | by intros ?]] |].
  destruct (Z.eqb_spec (pick F s) (-1)) as [|Hp];
    [intros [= <-]; split; [done | apply backtracked_refl] |].
  destruct (pick_unset F s Hp) as [Hv Ha]. set (v := pick F s) in *.
  pose proof (open_level_backtracked v s Ha) as Hb0.
  assert ((npropped_at (open_level v s)).[v] = npropped (open_level v s)) as Hat0
    by (simpl; by rewrite get_upd_eq).
  destruct (try_value F _ v (first_try s v) l _) as [[[] s1]|] eqn:E1; [| | done];
    apply (try_value_spec F HF _ IH v _ Hv (first_try_ok s v) (open_level v s)
             Hi Ha Hat0) in E1.
  { intros [= <-]. eapply dfs_post_trans; [exact Hb0 | done | apply E1]. }
  destruct (in_conflict_set v s1) eqn:Hin;
    [| intros [= <-]; eapply dfs_post_trans; [exact Hb0 | done | apply E1]].
  destruct (second_try_ready v (open_level v s) s1 Hi Ha Hat0 E1 Hin)
    as (Hb1 & Ha1 & Hat1 & Hn1).
  intros E2.
  apply (try_value_spec F HF _ IH v _ Hv (second_try_ok s v) _
           (backtracked_inv F (open_level v s) _ Hi Hb1) Ha1 Hat1) in E2.
  eapply dfs_post_trans; [| exact Hn1 | apply E2].
  by apply (backtracked_trans F s (open_level v s)).
Qed.

(** [dfs] returns within one level per unset variable. *)
Lemma dfs_with_returns fuel l s :
  inv F s → (length (unset_vars F s) < fuel)%nat →
  ∃ r, dfs_with pick F fuel l s = Some r.
Proof.
  revert l s. induction fuel as [|fuel IH]; intros l s Hi Hf; [lia |]. simpl.
  destruct (Z.eqb_spec (nunsat s) 0); [eauto |].
  destruct (Z.eqb_spec (pick F s) (-1)) as [|Hp]; [eauto |].
  destruct (pick_unset F s Hp) as [Hv Ha]. set (v := pick F s) in *.
  assert ((npropped_at (open_level v s)).[v] = npropped (open_level v s)) as Hat0
    by (simpl; by rewrite get_upd_eq).
  assert (∀ l s r, inv F s → dfs_with pick F fuel l s = Some r → dfs_post F s r)
    as Hd by (intros; by eapply dfs_with_spec).
  destruct (try_value_returns F HF _ v (first_try s v) Hv (first_try_ok s v)
              (open_level v s) Hi Ha Hat0 l fuel IH) as [[[] s1] E1];
    [change (unset_vars F (open_level v s)) with (unset_vars F s); lia | | ];
    rewrite E1; [eauto |].
  apply (try_value_spec F HF _ Hd v _ Hv (first_try_ok s v) (open_level v s)
           Hi Ha Hat0) in E1.
  destruct (in_conflict_set v s1) eqn:Hin; [| eauto].
  destruct (second_try_ready v (open_level v s) s1 Hi Ha Hat0 E1 Hin)
    as (Hb1 & Ha1 & Hat1 & _).
  apply (try_value_returns F HF _ v _ Hv (second_try_ok s v) _
           (backtracked_inv F (open_level v s) _ Hi Hb1) Ha1 Hat1 l fuel IH).
  assert (length (unset_vars F (augment_conflict v s1))
          ≤ length (unset_vars F s))%nat; [| lia].
  apply (unset_vars_le F (open_level v s)).
  intros u. by rewrite (core_eq_assn _ _ _ (bt_core _ _ _ Hb1)).
Qed.

(** The queue stays within the capacity. *)
Lemma dfs_with_room fuel l s r :
  distinct_vars F → inv F s → room F s → dfs_with pick F fuel l s = Some r →
  npropped r.2 ≤ capacity F
  ∧ ∀ k, capacity F ≤ k → (propagation_queue r.2).[k] = (propagation_queue s).[k].
Proof.
  intros Hd Hi Hr E. pose proof (total_le_VC F HF Hd) as Ht.
  destruct (dfs_with_spec fuel l s r Hi E) as [_ Hp]. unfold capacity.
  assert (npropped r.2 ≤ total F ∧ above F s r.2) as [Hn Hab].
  { destruct r.1; [destruct Hp as [_ Hp] | destruct Hp as [_ _ _ Hp]];
      destruct (Hp Hr) as [? ?]; [split; [by apply room_npropped | done] | done]. }
  split; [lia | intros k Hk; apply Hab; lia].
Qed.
End search.

(** ** The driver *)

Lemma chain_dimacs_ok : dimacs_ok 3 [[1; 2]; [-1; 3]; [-2; -3]].
Proof. unfold dimacs_ok. repeat constructor; lia. Qed.

Section driver.
Context (nv : Z) (cls : list (list Z)) (rest : list Z).
Context (Hnv : 0 ≤ nv) (Hcls : dimacs_ok nv cls).
Implicit Types (fuel : nat) (lines : list (Z * Z)).

(** What [main] prints after a true answer satisfies the clauses read. *)
Lemma solve_sat fuel lines :
  solve fuel nv (Z.of_nat (length cls)) (dimacs_of cls ++ rest) = Some (SAT lines) →
  forallb (eval_clause (printed lines)) cls = true.
Proof.
  unfold solve. destruct (load _ _ _) as [[F s]|] eqn:El; [| done].
  destruct (load_ready nv cls rest F s Hnv Hcls El) as (HF & Hi & _ & Hc).
  destruct (dfs F fuel 0 s) as [[[] s']|] eqn:Ed; [| done..].
  destruct (dfs_with_spec _ F HF fuel 0 s _ Hi Ed) as [Hi' [Hn _]].
  destruct (report_sat F s' HF Hi' Hn) as (lines' & -> & Hm).
  intros [= <-]. by rewrite <- Hc.
Qed.

(** [main] ends with an answer. *)
Lemma solve_returns fuel :
  (Z.to_nat nv < fuel)%nat →
  ∃ out, solve fuel nv (Z.of_nat (length cls)) (dimacs_of cls ++ rest) = Some out.
Proof.
  intros Hf. unfold solve.
  destruct (load_dimacs nv cls rest Hcls) as (ld & El & _). rewrite El.
  destruct (load_ready nv cls rest _ _ Hnv Hcls El) as (HF & Hi & HV & _).
  edestruct (dfs_with_returns most_constrained_var _ HF fuel 0) as [r ->];
    [exact Hi | | eauto].
  eapply Nat.le_lt_trans; [apply unset_vars_bound |]. by rewrite HV.
Qed.
End driver.

(** ** Theorems of the component *)

(** C1: soundness of the answer [true].  On a well-formed formula, from a
    state that satisfies the invariant of the counters (the state [main]
    builds is one), an answer [true] of [dfs] comes with an assignment
    that satisfies every clause: reading [assn[v] > 0] as true, as the
    reporter does, each clause holds a true literal. *)
Theorem dfs_sound F fuel l s s' :
  wf_formula F → inv F s → dfs F fuel l s = Some (true, s') → satisfied F s'.
Proof.
  intros HF Hi E.
  destruct (dfs_with_spec _ F HF fuel l s _ Hi E) as [Hi' [Hn _]].
  by apply inv_model.
Qed.

Lemma dfs_sound_witness :
  ∃ s', dfs chain_formula 4 0 (init_state chain_formula) = Some (true, s')
        ∧ satisfied chain_formula s'.
Proof.
  pose proof chain_formula_wf as HF.
  destruct (dfs chain_formula 4 0 (init_state chain_formula)) as [[[] s']|] eqn:E;
    [| by vm_compute in E..].
  exists s'. split; [done |].
  exact (dfs_sound _ 4 0 _ s' HF (init_state_inv _ HF) E).
Defined.

(** C7: [dfs] terminates.  On a well-formed formula, from a state of the
    invariant, [dfs] returns within [V + 1] nested calls: every level
    sets a variable that was unset, and gives the second value its turn
    in a state with the variables of the first. *)
Theorem dfs_terminates F l s :
  wf_formula F → inv F s → ∃ r, dfs F (dfs_fuel F) l s = Some r.
Proof.
  intros HF Hi. apply (dfs_with_returns _ F HF); [done |].
  pose proof (unset_vars_bound F s). unfold dfs_fuel. lia.
Qed.

Lemma dfs_terminates_witness :
  ∃ r, dfs example_formula (dfs_fuel example_formula) 0
         (init_state example_formula) = Some r.
Proof.
  exact (dfs_terminates example_formula 0 _ example_formula_wf
           (init_state_inv _ example_formula_wf)).
Defined.

(** C5: backtracking is exact on the counters.  After an answer [false]
    of [dfs] the state is [backtracked]: [assn], [satisfier], [rem] and
    [nunsat] read as at the call; the queue has the entries it had, and
    what it has gained are literals of variables that are unset;
    [npropped_at] is unchanged for the variables that were set. *)
Theorem dfs_false_restores F fuel l s s' :
  wf_formula F → inv F s → dfs F fuel l s = Some (false, s') →
  backtracked F s s'.
Proof.
  intros HF Hi E. by destruct (dfs_with_spec _ F HF fuel l s _ Hi E) as [_ Hb].
Qed.

Lemma dfs_false_restores_witness :
  ∃ s', dfs example_formula 4 0 (init_state example_formula) = Some (false, s')
        ∧ s' ≡c init_state example_formula.
Proof.
  pose proof example_formula_wf as HF.
  destruct (dfs example_formula 4 0 (init_state example_formula))
    as [[[] s']|] eqn:E; [by vm_compute in E | | by vm_compute in E].
  exists s'. split; [done |].
  exact (bt_core _ _ _ (dfs_false_restores _ 4 0 _ s' HF (init_state_inv _ HF) E)).
Defined.

(** C13: [dfs] meets [dfs_post] for every picking function that returns
    [-1] or an unset variable of the formula ([most_constrained_var] and
    [random_next_var] are two): the invariant of the counters (spec I1, I2
    left to right, I3) holds in the state [dfs] returns in, whatever the
    answer; with the answer [true], [nunsat] is 0; with the answer
    [false], the state is backtracked. *)
Theorem dfs_preserves_inv pick F fuel l s r :
  Heuristic pick → wf_formula F → inv F s →
  dfs_with pick F fuel l s = Some r → dfs_post F s r.
Proof. intros Hp HF Hi E. by apply (dfs_with_spec pick F HF fuel l s r Hi E). Qed.

Lemma dfs_preserves_inv_witness :
  ∃ r, dfs_with (λ F s, random_next_var F 5 s) chain_formula 4 0
         (init_state chain_formula) = Some r
       ∧ dfs_post chain_formula (init_state chain_formula) r.
Proof.
  pose proof chain_formula_wf as HF.
  destruct (dfs_with (λ F s, random_next_var F 5 s) chain_formula 4 0
              (init_state chain_formula)) as [r|] eqn:E; [| by vm_compute in E].
  exists r. split; [done |].
  exact (dfs_preserves_inv _ _ 4 0 _ r (random_heuristic 5 ltac:(lia)) HF
           (init_state_inv _ HF) E).
Defined.

(** C2: the program is sound when it prints an assignment.  For the
    integers of a DIMACS body over [nv] variables, whatever follows
    them: if [main] prints lines [i b], the valuation that makes
    variable [i] true exactly when the line [i 1] is printed satisfies
    every clause of the input. *)
Theorem solve_sound fuel nv cls rest lines :
  0 ≤ nv → dimacs_ok nv cls →
  solve fuel nv (Z.of_nat (length cls)) (dimacs_of cls ++ rest) = Some (SAT lines) →
  forallb (eval_clause (printed lines)) cls = true.
Proof. intros Hnv Hcls. by apply solve_sat. Qed.

Lemma solve_sound_witness :
  ∃ lines,
    solve 4 3 (Z.of_nat (length [[1; 2]; [-1; 3]; [-2; -3]]))
      (dimacs_of [[1; 2]; [-1; 3]; [-2; -3]] ++ []) = Some (SAT lines)
    ∧ forallb (eval_clause (printed lines)) [[1; 2]; [-1; 3]; [-2; -3]] = true.
Proof.
  destruct (solve 4 3 (Z.of_nat (length [[1; 2]; [-1; 3]; [-2; -3]]))
              (dimacs_of [[1; 2]; [-1; 3]; [-2; -3]] ++ []))
    as [[lines|]|] eqn:E; [| by vm_compute in E..].
  exists lines. split; [done |].
  exact (solve_sound 4 3 _ [] lines ltac:(lia) chain_dimacs_ok E).
Defined.

(** C10: the program answers.  For the integers of a DIMACS body over
    [nv] variables, [main] reads the clauses, runs [dfs] and prints an
    assignment or [UNSAT]: no loop of the program runs forever, and the
    recursion is at most [nv + 1] deep. *)
Theorem solve_answers nv cls rest :
  0 ≤ nv → dimacs_ok nv cls →
  ∃ out, solve (solve_fuel nv) nv (Z.of_nat (length cls))
           (dimacs_of cls ++ rest) = Some out.
Proof.
  intros Hnv Hcls. apply solve_returns; [done | done | unfold solve_fuel; lia].
Qed.

Lemma solve_answers_witness :
  ∃ out, solve (solve_fuel 3) 3 (Z.of_nat (length [[1; 2]; [-1; 3]; [-2; -3]]))
           (dimacs_of [[1; 2]; [-1; 3]; [-2; -3]] ++ [7]) = Some out.
Proof. exact (solve_answers 3 _ [7] ltac:(lia) chain_dimacs_ok). Defined.

(** C15: the queue stays inside its block.  [main] allocates [V * C]
    cells for the propagation queue.  On a well-formed formula whose
    clauses do not repeat a variable, from a state of the invariant in
    which the queue has room for the occurrences of the unset variables
    (an empty queue has), [dfs] returns with [npropped] at most [V * C],
    and the cells of the queue array from [V * C] on are as they were:
    since every entry written is a nonzero literal and none is erased, no
    write of the run went past the block. *)
Theorem dfs_queue_in_bounds F fuel l s r :
  wf_formula F → distinct_vars F → inv F s → room F s →
  dfs F fuel l s = Some r →
  npropped r.2 ≤ capacity F
  ∧ ∀ k, capacity F ≤ k → (propagation_queue r.2).[k] = (propagation_queue s).[k].
Proof.
  intros HF Hd Hi Hr E. exact (dfs_with_room _ F HF fuel l s r Hd Hi Hr E).
Qed.

Lemma dfs_queue_in_bounds_witness :
  ∃ r, dfs chain_formula 4 0 (init_state chain_formula) = Some r
       ∧ npropped r.2 ≤ capacity chain_formula.
Proof.
  pose proof chain_formula_wf as HF.
  destruct (dfs chain_formula 4 0 (init_state chain_formula)) as [r|] eqn:E;
    [| by vm_compute in E].
  exists r. split; [done |].
  exact (proj1 (dfs_queue_in_bounds _ 4 0 _ r HF chain_formula_distinct
                  (init_state_inv _ HF)
                  (room_empty chain_formula (init_state chain_formula) eq_refl)
                  E)).
Defined.
