(* ===== verification/Runs.v ===== *)
(** * The runs of the search, without fuel

    [do_unit_loop] and [dfs_with] are recursions on fuel.  This file gives
    the three procedures [do_unit_propagations], [try_value] and [dfs] of
    [src/sat.cpp] as relations between the state at the call and the
    answer with the state at the return, one rule per path through the
    body, and proves that the functions on fuel compute exactly these
    relations: a run is a derivation, the fuel of the functions decides
    nothing but whether the answer is reached, and on a state of the
    invariant every call has exactly one run. *)

From S2P Require Import Prelude Formula Core State Conflict Assign Propagate Search Sound.

(** ** The relations *)

(** The loop of [do_unit_propagations(from)] at index [i]. *)
Inductive prop_run (F : formula) (from : Z) : Z → state → bool * state → Prop :=
  | prop_done i s :
      npropped s ≤ i → prop_run F from i s (true, s)
  | prop_fail i s s' :
      i < npropped s →
      assign F (var_of (propagation_queue s).[i]) (sign_of (propagation_queue s).[i])
        (clear_conflicts (var_of (propagation_queue s).[i]) s) = (false, s') →
      prop_run F from i s (false, undo_unit_propagations F from i s')
  | prop_next i s s' r :
      i < npropped s →
      assign F (var_of (propagation_queue s).[i]) (sign_of (propagation_queue s).[i])
        (clear_conflicts (var_of (propagation_queue s).[i]) s) = (true, s') →
      prop_run F from (i + 1) s' r →
      prop_run F from i s r.

(** [dfs(l)] with the picking function [pick], and [try_value(v, sign, l)],
    which call each other. *)
Inductive dfs_run (pick : formula → state → Z) (F : formula)
    : Z → state → bool * state → Prop :=
  | run_sat l s :
      nunsat s = 0 → dfs_run pick F l s (true, s)
  | run_none l s :
      nunsat s ≠ 0 → pick F s = -1 → dfs_run pick F l s (false, s)
  | run_first l s s1 :
      nunsat s ≠ 0 → pick F s ≠ -1 →
      try_run pick F (pick F s) (first_try s (pick F s)) l
        (open_level (pick F s) s) (true, s1) →
      dfs_run pick F l s (true, s1)
  | run_backjump l s s1 :
      nunsat s ≠ 0 → pick F s ≠ -1 →
      try_run pick F (pick F s) (first_try s (pick F s)) l
        (open_level (pick F s) s) (false, s1) →
      in_conflict_set (pick F s) s1 = false →
      dfs_run pick F l s (false, s1)
  | run_second l s s1 r :
      nunsat s ≠ 0 → pick F s ≠ -1 →
      try_run pick F (pick F s) (first_try s (pick F s)) l
        (open_level (pick F s) s) (false, s1) →
      in_conflict_set (pick F s) s1 = true →
      try_run pick F (pick F s) (second_try s (pick F s)) l
        (augment_conflict (pick F s) s1) r →
      dfs_run pick F l s r
with try_run (pick : formula → state → Z) (F : formula)
    : Z → Z → Z → state → bool * state → Prop :=
  | try_refused v sign l s s1 :
      assign F v sign s = (false, s1) → try_run pick F v sign l s (false, s1)
  | try_conflict v sign l s s1 s2 :
      assign F v sign s = (true, s1) →
      prop_run F ((npropped_at s1).[v]) ((npropped_at s1).[v]) s1 (false, s2) →
      try_run pick F v sign l s (false, unassign F v sign s2)
  | try_found v sign l s s1 s2 s3 :
      assign F v sign s = (true, s1) →
      prop_run F ((npropped_at s1).[v]) ((npropped_at s1).[v]) s1 (true, s2) →
      dfs_run pick F (l + 1) s2 (true, s3) →
      try_run pick F v sign l s (true, s3)
  | try_failed v sign l s s1 s2 s3 :
      assign F v sign s = (true, s1) →
      prop_run F ((npropped_at s1).[v]) ((npropped_at s1).[v]) s1 (true, s2) →
      dfs_run pick F (l + 1) s2 (false, s3) →
      try_run pick F v sign l s
        (false,
         unassign F v sign
           (undo_unit_propagations F ((npropped_at s3).[v]) (npropped s3) s3)).

Scheme dfs_run_mut := Minimality for dfs_run Sort Prop
  with try_run_mut := Minimality for try_run Sort Prop.

(** ** The propagation loop *)

Section prop.
Context (F : formula).
Implicit Types (s t : state) (i from : Z) (r : bool * state) (fuel : nat).

(** An answer of the loop on fuel is a run. *)
Lemma do_unit_loop_run fuel from i s r :
  do_unit_loop F fuel from i s = Some r → prop_run F from i s r.
Proof.
  revert i s. induction fuel as [|fuel IH]; intros i s; [done |]. simpl.
  destruct (Z.ltb_spec i (npropped s)) as [Hi|Hi];
    [| intros [= <-]; by constructor].
  destruct (assign _ _ _ _) as [[] s'] eqn:E.
  - intros Hr%IH. by eapply prop_next.
  - intros [= <-]. by apply prop_fail.
Qed.

(** A run is the answer of the loop on any fuel that gives one. *)
Lemma prop_run_do_unit_loop fuel from i s r r' :
  prop_run F from i s r → do_unit_loop F fuel from i s = Some r' → r' = r.
Proof.
  intros Hr. revert fuel. induction Hr as [i s Hi|i s s' Hi E|i s s' r Hi E _ IH];
    intros [|fuel]; try done; simpl;
    destruct (Z.ltb_spec i (npropped s)); try lia; rewrite ?E;
    [by intros [= <-].. | apply IH].
Qed.

(** The runs of the loop are the answers of [do_unit_propagations]. *)
Lemma prop_run_iff from s r :
  wf_formula F →
  prop_run F from from s r ↔ do_unit_propagations F from s = Some r.
Proof.
  intros HF. split; [| apply do_unit_loop_run].
  intros Hr. destruct (do_unit_propagations_total F HF from s) as [r' E].
  by rewrite E, (prop_run_do_unit_loop _ _ _ _ _ _ Hr E).
Qed.
End prop.

(** ** The search *)

Section search.
Context (pick : formula → state → Z) (F : formula) (HF : wf_formula F).
Implicit Types (s t : state) (l v sign : Z) (r : bool * state) (fuel : nat).

(** An answer of [try_value] over runs of the level below is a run. *)
Lemma try_value_run d v sign l s r :
  (∀ l s r, d l s = Some r → dfs_run pick F l s r) →
  try_value F d v sign l s = Some r → try_run pick F v sign l s r.
Proof.
  intros Hd. unfold try_value.
  destruct (assign F v sign s) as [[] s1] eqn:E;
    [| intros [= <-]; by apply try_refused].
  destruct (do_unit_propagations _ _ _) as [[[] s2]|] eqn:Ep; [| | done];
    apply (prop_run_iff F _ _ _ HF) in Ep;
    [| intros [= <-]; by eapply try_conflict].
  destruct (d (l + 1) s2) as [[[] s3]|] eqn:Ed; [| | done];
    apply Hd in Ed; intros [= <-]; [by eapply try_found | by eapply try_failed].
Qed.

(** An answer of [dfs] on fuel is a run. *)
Lemma dfs_with_run fuel l s r :
  dfs_with pick F fuel l s = Some r → dfs_run pick F l s r.
Proof.
  revert l s r. induction fuel as [|fuel IH]; intros l s r; [done |]. simpl.
  destruct (Z.eqb_spec (nunsat s) 0); [intros [= <-]; by apply run_sat |].
  destruct (Z.eqb_spec (pick F s) (-1)); [intros [= <-]; by apply run_none |].
  destruct (try_value _ _ _ (first_try _ _) _ _) as [[[] s1]|] eqn:E1; [| | done];
    apply (try_value_run _ _ _ _ _ _ IH) in E1;
    [intros [= <-]; by apply run_first |].
  destruct (in_conflict_set _ s1) eqn:Hin;
    [| intros [= <-]; by apply run_backjump].
  intros E2%(try_value_run _ _ _ _ _ _ IH). by eapply run_second.
Qed.

(** A run is reached on some fuel. *)
Lemma dfs_run_fuel l s r :
  dfs_run pick F l s r → ∃ fuel, dfs_with pick F fuel l s = Some r.
Proof.
  apply (dfs_run_mut pick F
           (λ l s r, ∃ fuel, dfs_with pick F fuel l s = Some r)
           (λ v sign l s r,
              ∃ fuel, try_value F (dfs_with pick F fuel) v sign l s = Some r)).
  - intros l' s' Hn. exists 1%nat. simpl. by rewrite Hn.
  - intros l' s' Hn Hp. exists 1%nat. simpl.
    destruct (Z.eqb_spec (nunsat s') 0); [done |]. by rewrite Hp.
  - intros l' s' s1 Hn Hp _ [fuel E]. exists (S fuel). simpl.
    destruct (Z.eqb_spec (nunsat s') 0); [done |].
    destruct (Z.eqb_spec (pick F s') (-1)); [done |]. by rewrite E.
  - intros l' s' s1 Hn Hp _ [fuel E] Hin. exists (S fuel). simpl.
    destruct (Z.eqb_spec (nunsat s') 0); [done |].
    destruct (Z.eqb_spec (pick F s') (-1)); [done |]. by rewrite E, Hin.
  - intros l' s' s1 r' Hn Hp _ [f1 E1] Hin _ [f2 E2]. exists (S (f1 `max` f2)).
    simpl. destruct (Z.eqb_spec (nunsat s') 0); [done |].
    destruct (Z.eqb_spec (pick F s') (-1)); [done |].
    rewrite (try_value_mono F (dfs_with pick F f1) (dfs_with pick F (f1 `max` f2))
               _ _ _ _ _ (λ l s r, dfs_with_fuel_mono pick F f1 _ l s r
                                     (Nat.le_max_l f1 f2)) E1), Hin.
    apply (try_value_mono F (dfs_with pick F f2)); [| done].
    intros. eapply dfs_with_fuel_mono; [apply Nat.le_max_r | done].
  - intros v sign l' s' s1 E. exists 0%nat. unfold try_value. by rewrite E.
  - intros v sign l' s' s1 s2 E Hp%(prop_run_iff F _ _ _ HF). exists 0%nat.
    unfold try_value. by rewrite E, Hp.
  - intros v sign l' s' s1 s2 s3 E Hp%(prop_run_iff F _ _ _ HF) _ [fuel Ed].
    exists fuel. unfold try_value. by rewrite E, Hp, Ed.
  - intros v sign l' s' s1 s2 s3 E Hp%(prop_run_iff F _ _ _ HF) _ [fuel Ed].
    exists fuel. unfold try_value. by rewrite E, Hp, Ed.
Qed.

(** On a state of the invariant the run of a call is the answer of the
    function on the fuel [dfs_fuel]. *)
Lemma dfs_run_answer `{!Heuristic pick} l s r :
  inv F s → dfs_run pick F l s r ↔ dfs_with pick F (dfs_fuel F) l s = Some r.
Proof.
  intros Hi. split; [| apply dfs_with_run].
  intros [f E]%dfs_run_fuel.
  destruct (dfs_with_returns pick F HF (dfs_fuel F) l s Hi) as [r' E'].
  { pose proof (unset_vars_bound F s). unfold dfs_fuel. lia. }
  apply (dfs_with_fuel_mono pick F f (f `max` dfs_fuel F)) in E; [| lia].
  rewrite E'.
  apply (dfs_with_fuel_mono pick F _ (f `max` dfs_fuel F)) in E'; [| lia].
  congruence.
Qed.

(** Two runs of a call end alike. *)
Lemma dfs_run_det l s r r' :
  dfs_run pick F l s r → dfs_run pick F l s r' → r = r'.
Proof.
  intros [f E]%dfs_run_fuel [f' E']%dfs_run_fuel.
  apply (dfs_with_fuel_mono pick F f (f `max` f')) in E; [| lia].
  apply (dfs_with_fuel_mono pick F f' (f `max` f')) in E'; [| lia].
  congruence.
Qed.
End search.

(** ** Theorems of the component *)

(** C24: the loop of [do_unit_propagations] on fuel is the loop.  On a
    well-formed formula the answers of [do_unit_propagations(from)] are
    exactly the runs of the loop from index [from]: an iteration per
    entry, the exit with [false] and the undo on the first [assign] that
    fails, the exit with [true] when the index reaches [npropped].  The
    fuel of the model is never what ends a run. *)
Theorem prop_run_iff_do_unit F from s r :
  wf_formula F →
  prop_run F from from s r ↔ do_unit_propagations F from s = Some r.
Proof. apply prop_run_iff. Qed.

Lemma prop_run_iff_do_unit_witness :
  ∃ r, prop_run chain_formula 0 0
         (assign chain_formula 0 (-1) (init_state chain_formula)).2 r
       ∧ r.1 = true.
Proof.
  destruct (do_unit_propagations chain_formula 0
              (assign chain_formula 0 (-1) (init_state chain_formula)).2)
    as [r|] eqn:E; [| by vm_compute in E].
  exists r. split;
    [exact (proj2 (prop_run_iff_do_unit _ 0 _ r chain_formula_wf) E) |].
  vm_compute in E. by injection E as <-.
Defined.

(** C16: [dfs] on fuel is [dfs].  On a well-formed formula and a state
    of the invariant, for every picking function that returns [-1] or an
    unset variable, the runs of [dfs] (the derivations of [dfs_run], one
    rule per path through the bodies of [dfs] and [try_value]) are
    exactly the answers of the function on the fuel [V + 1]: every call
    has one run and one only, and the function computes it. *)
Theorem dfs_run_iff_dfs pick F l s r :
  Heuristic pick → wf_formula F → inv F s →
  dfs_run pick F l s r ↔ dfs_with pick F (dfs_fuel F) l s = Some r.
Proof. intros Hp HF Hi. by apply dfs_run_answer. Qed.

Lemma dfs_run_iff_dfs_witness :
  ∃ s', dfs_run most_constrained_var chain_formula 0 (init_state chain_formula)
          (true, s').
Proof.
  pose proof chain_formula_wf as HF.
  destruct (dfs_with most_constrained_var chain_formula (dfs_fuel chain_formula)
              0 (init_state chain_formula)) as [[[] s']|] eqn:E;
    [| by vm_compute in E..].
  exists s'.
  exact (proj2 (dfs_run_iff_dfs _ _ 0 _ (true, s') _ HF (init_state_inv _ HF)) E).
Defined.
