(* ===== verification/Scenarios.v ===== *)
(** * The scenarios of the specification, run through the model

    The concrete scenarios of section 8 of the specification, and runs
    that show where the program and the specification part: the answer
    [UNSAT] on satisfiable formulas (theorems, for every fuel), and, as
    examples of the general theorems of [Assign], [Tallies] and [Search],
    the tallies after an [assign], the satisfier of a clause in the
    middle of an undo, and the queue after a refused decision. *)

From S2P Require Import Prelude Formula Core State Conflict Assign Propagate Search Loader.

(** The integers of the body of [example_formula]. *)
Definition example_input : list Z := [1; 2; 0; 1; 2; 0; -1; 0].

(** Scenario 3 of the specification: [x1], [¬x1 ∨ x2], [¬x2 ∨ x3]. *)
Definition scenario3_input : list Z := [1; 0; -1; 2; 0; -2; 3; 0].

(** The state of [example_formula] after [assign(x2, +1)]. *)
Definition example_x2_set : state :=
  (assign example_formula 1 1 (init_state example_formula)).2.

(** The answer of [main] on a body, for every fuel from [fuel0] on. *)
Lemma solve_fuel_mono fuel0 fuel nv nc toks out :
  (fuel0 ≤ fuel)%nat → solve fuel0 nv nc toks = Some out →
  solve fuel nv nc toks = Some out.
Proof.
  intros Hle. unfold solve. destruct (load nv nc toks) as [[F s]|]; [| done].
  destruct (dfs F fuel0 0 s) as [r|] eqn:E; [| done].
  unfold dfs in *. by rewrite (dfs_with_fuel_mono _ _ _ _ _ _ _ Hle E).
Qed.

(** C12: the search is incomplete: [(x1 ∨ x2) ∧ (x1 ∨ x2) ∧ ¬x1] is
    satisfied by [x1 = false, x2 = true], and [main] prints [UNSAT] for it.
    [dfs] picks [x1], tries [+1] first, [assign] fails on the third clause
    and the level ends without a try of [-1]. *)
Theorem unsat_answer_on_satisfiable fuel :
  (1 ≤ fuel)%nat →
  example_input = dimacs_of (clauses example_formula)
  ∧ eval_formula (λ v, bool_decide (v = 1)) example_formula = true
  ∧ solve fuel 3 3 example_input = Some UNSAT.
Proof.
  intros Hf. split_and!; [done | by vm_compute |].
  apply (solve_fuel_mono 1); [done | by vm_compute].
Qed.

Lemma unsat_answer_on_satisfiable_witness :
  solve 4 3 3 example_input = Some UNSAT.
Proof. exact (proj2 (proj2 (unsat_answer_on_satisfiable 4 ltac:(lia)))). Defined.

(** C35: scenario 3 of the specification (a chain of implications
    [x1], [¬x1 ∨ x2], [¬x2 ∨ x3]) expects the lines [1 1], [2 1], [3 1];
    the all-true valuation does satisfy the formula, and [main] prints
    [UNSAT]. *)
Theorem scenario3_unsat fuel :
  (10 ≤ fuel)%nat →
  scenario3_input = dimacs_of [[1]; [-1; 2]; [-2; 3]]
  ∧ eval_formula (λ _, true) (formula_of 3 [[1]; [-1; 2]; [-2; 3]]) = true
  ∧ solve fuel 3 3 scenario3_input = Some UNSAT.
Proof.
  intros Hf. split_and!; [done | by vm_compute |].
  apply (solve_fuel_mono 10); [done | by vm_compute].
Qed.

Lemma scenario3_unsat_witness :
  solve 12 3 3 scenario3_input = Some UNSAT.
Proof. exact (proj2 (proj2 (scenario3_unsat 12 ltac:(lia)))). Defined.

(** An instance of [assign_tallies]: spec I4 (the tallies count the
    occurrences in unsatisfied clauses) holds of the state [main] builds
    for [(x1 ∨ x2) ∧ (x1 ∨ x2) ∧ ¬x1] and not after the first successful
    [assign]: [x2 = true] satisfies two clauses, and [assign] adds their
    literals to the tallies (line 174 calls [mark_signed_appearances]). *)
Example tally_accuracy_lost :
  tally_accurate example_formula (init_state example_formula) = true
  ∧ (assign example_formula 1 1 (init_state example_formula)).1 = true
  ∧ tally_accurate example_formula example_x2_set = false.
Proof. by vm_compute. Qed.

(** The run in which [undo_unit_propagations] meets the case of
    [unassign_elects_no_satisfier].  On [twice_queued_formula] after the
    decision [x1 = false], the propagation sets [x2] and [x3], passes the
    second entry of [x2] and fails on [x4];
    [undo_unit_propagations(0, 3)] meets the second entry of [x2] first
    and unsets [x2] while [x3] is still true: clause 3, [x2 ∨ x3], is left
    without satisfier and counted in [nunsat] although [x3] satisfies it.
    The two iterations that follow bring [nunsat] back. *)
Example undo_loses_satisfier_accuracy :
  let F := twice_queued_formula in
  let s1 := (assign F 0 (-1) (init_state F)).2 in
  let s2 := (assign F 1 1 (clear_conflicts 1 s1)).2 in
  let s3 := (assign F 2 1 (clear_conflicts 2 s2)).2 in
  let s4 := (assign F 1 1 (clear_conflicts 1 s3)).2 in
  let t := (assign F 3 1 (clear_conflicts 3 s4)).2 in
  let u := undo_loop F 1 2 t in
  do_unit_propagations F 0 s1 = Some (false, undo_unit_propagations F 0 3 t)
  ∧ undo_unit_propagations F 0 3 t = set_npropped 0 (undo_loop F 2 0 u)
  ∧ clause F 3 = [2; 3] ∧ (assn u).[2] = 1 ∧ (satisfier u).[3] = 0
  ∧ nunsat u = 5 ∧ nunsat (undo_loop F 2 0 u) = nunsat s1.
Proof. by vm_compute. Qed.

(** The run of [dfs] in which [try_value_refused] applies.  On
    [refused_formula] [dfs] picks [x1] and tries [-1]; [assign] queues
    [x2], fails on the clause [x1] and undoes the counters, and [dfs]
    returns false with [npropped = 1] where it was 0. *)
Example refused_value_leaves_queue :
  ∃ s', dfs refused_formula 4 0 (init_state refused_formula) = Some (false, s')
        ∧ npropped (init_state refused_formula) = 0
        ∧ (npropped_at s').[0] = 0
        ∧ npropped s' = 1 ∧ (propagation_queue s').[0] = 2.
Proof.
  eexists. split; [by vm_compute | by vm_compute].
Qed.

(** ** Scenarios 1, 2 and 4 *)

Example scenario1 : solve 10 1 1 [1; 0] = Some (SAT [(1, 1)]).
Proof. vm_compute. reflexivity. Qed.

Example scenario2 : solve 10 1 2 [1; 0; -1; 0] = Some UNSAT.
Proof. vm_compute. reflexivity. Qed.

Example scenario4 : solve 10 2 3 [1; 0; 2; 0; -1; -2; 0] = Some UNSAT.
Proof. vm_compute. reflexivity. Qed.
